(** * OCR server: worker pool, image pipeline and text extraction policy

    A shallow embedding of [src/server/server.cpp]: the text clean-up and the
    retry policy of [ThreadPool::process_image], the optional stages of the
    image pipeline, and the task queue shared by [ThreadPool::enqueue],
    [ThreadPool::worker] and [OCRServiceImpl::ProcessImage].

    Tesseract and Leptonica are external: they appear as a record of
    capabilities ([Engine]) whose fields carry the names of the calls the
    source makes.  Threads are modelled by interleaving: every critical
    section of the source is one atomic event of a schedule. *)

From Stdlib Require Import ZArith List Ascii String Strings.Byte Lia Bool.
From Stdlib Require Import Floats.SpecFloat.
From stdpp Require Import gmap.
Import ListNotations.

Local Open Scope char_scope.

(** ** Text: [std::string] as its sequence of bytes *)

Module Text.

Definition text := list ascii.

(** A string literal of the source. *)
Definition lit (s : string) : text := list_ascii_of_string s.

(** The lambda given to [std::remove_if] (lines 128 and 138):
    [c > 127 || (c < 32 && c != ' ' && c != '\n')] on [unsigned char]. *)
Definition is_stripped (c : ascii) : bool :=
  let n := N_of_ascii c in
  (127 <? n)%N || ((n <? 32)%N && negb (Ascii.eqb c " ") && negb (Ascii.eqb c "010")).

(** [s.erase(std::remove_if(s.begin(), s.end(), p), s.end())]: the elements
    for which [p] is false, in their order. *)
Definition erase_remove_if (p : ascii -> bool) (s : text) : text :=
  List.filter (fun c => negb (p c)) s.

(** [s.erase(std::remove(s.begin(), s.end(), ch), s.end())]. *)
Definition erase_remove (ch : ascii) (s : text) : text :=
  erase_remove_if (fun c => Ascii.eqb c ch) s.

(** Membership of [c] in the character set given to [find_*_not_of]. *)
Definition in_set (chars : text) (c : ascii) : bool :=
  existsb (Ascii.eqb c) chars.

(** [s.find_first_not_of(chars)]: the least index whose character is not in
    [chars]; [None] is [std::string::npos]. *)
Fixpoint find_first_not_of (chars s : text) : option nat :=
  match s with
  | [] => None
  | c :: s' =>
      if in_set chars c
      then option_map S (find_first_not_of chars s')
      else Some 0%nat
  end.

(** [s.find_last_not_of(chars)]: the greatest such index. *)
Fixpoint find_last_not_of (chars s : text) : option nat :=
  match s with
  | [] => None
  | c :: s' =>
      match find_last_not_of chars s' with
      | Some i => Some (S i)
      | None => if in_set chars c then None else Some 0%nat
      end
  end.

(** [s.substr(pos, n)] for [pos <= s.size()] (the only use, line 153, has
    [pos] an index of [s], see [find_first_not_of_lt]). *)
Definition substr (pos n : nat) (s : text) : text :=
  firstn n (skipn pos s).

(** The set [" \n"] of lines 150-151. *)
Definition blanks : text := [" "; "010"].

(** Lines 150-156: the text between the first and the last character that
    is neither a space nor a newline. *)
Definition trim (s : text) : text :=
  match find_first_not_of blanks s, find_last_not_of blanks s with
  | Some start_pos, Some end_pos => substr start_pos (end_pos - start_pos + 1) s
  | _, _ => []
  end.

Definition UNREADABLE : text := lit "[UNREADABLE]".

(** Lines 146-160, the part of [process_image] under "Clean up text". *)
Definition clean_up (t : text) : text :=
  let t := erase_remove "013" t in
  let t := erase_remove "009" t in
  let t := trim t in
  if Nat.eqb (length t) 0 then UNREADABLE else t.

(** What [process_image] does to the raw output it keeps: the byte filter
    of line 127 (or 137), then the clean-up of lines 146-160. *)
Definition sanitize (raw : text) : text :=
  clean_up (erase_remove_if is_stripped raw).

End Text.

(** ** Single-precision arithmetic of the scale factor (line 89) *)

Module Float32.

Definition prec : Z := 24.
Definition emax : Z := 128.

(** Conversion of an [int] operand to [float]. *)
Definition of_int (z : Z) : spec_float := binary_normalize prec emax z 0 false.

Definition div (a b : spec_float) : spec_float := SFdiv prec emax a b.

(** [std::max(a, b)], that is [(a < b) ? b : a]. *)
Definition max (a b : spec_float) : spec_float := if SFltb a b then b else a.

End Float32.

(** ** The recognition engine and the image library *)

Inductive PageSegMode := PSM_SINGLE_BLOCK | PSM_SINGLE_WORD.

(** Lines 24-28. *)
Record OCRResult := {
  text : Text.text;
  time_ms : spec_float;
  processed_image : list Byte.byte
}.

Section Engine.

(** A decoded bitmap, the [Pix] that a non-null [Pix*] points to. *)
Variable Pix : Type.

(** What the external calls of one run of [process_image] answer.  A
    pointer result that the source tests against null is an [option];
    [pixConvertTo8] and [pixScale], whose results the source uses
    unchecked, are taken to succeed.  The constant arguments of the three
    enhancement calls (lines 94, 100, 106) are part of the capability. *)
Record Engine := {
  Init : Z;                                   (* api.Init(...): 0 on success *)
  pixRead : list Byte.byte -> option Pix;          (* decoding of the temporary file *)
  pixConvertTo8 : Pix -> Pix;
  pixGetWidth : Pix -> Z;
  pixGetHeight : Pix -> Z;
  pixScale : Pix -> spec_float -> spec_float -> Pix;
  pixUnsharpMaskingGray : Pix -> option Pix;
  pixContrastNorm : Pix -> option Pix;
  pixOtsuThreshOnBackgroundNorm : Pix -> option Pix;
  pixWrite : Pix -> list Byte.byte;                (* the PNG written, then read back *)
  Recognize : PageSegMode -> Pix -> option Text.text;  (* recognition of an image in a mode *)
  elapsed : spec_float                        (* the duration the clock measures *)
}.

(** The state of a [tesseract::TessBaseAPI] object that the source
    drives, with the record of the recognitions run on it. *)
Record TessBaseAPI := {
  psm : PageSegMode;
  image : option Pix;
  recognitions : list (PageSegMode * Pix)
}.

Definition api_new : TessBaseAPI :=
  {| psm := PSM_SINGLE_BLOCK; image := None; recognitions := [] |}.

Definition SetPageSegMode (m : PageSegMode) (api : TessBaseAPI) : TessBaseAPI :=
  {| psm := m; image := image api; recognitions := recognitions api |}.

Definition SetImage (p : Pix) (api : TessBaseAPI) : TessBaseAPI :=
  {| psm := psm api; image := Some p; recognitions := recognitions api |}.

(** [api.GetUTF8Text()]: recognition of the image set, in the mode set;
    [None] is a null [char*]. *)
Definition GetUTF8Text (E : Engine) (api : TessBaseAPI) : option Text.text * TessBaseAPI :=
  match image api with
  | None => (None, api)
  | Some p =>
      (Recognize E (psm api) p,
       {| psm := psm api; image := image api;
          recognitions := recognitions api ++ [(psm api, p)] |})
  end.

(** [raw_text ? raw_text : ""]. *)
Definition or_empty (raw_text : option Text.text) : Text.text :=
  match raw_text with Some t => t | None => [] end.

(** Lines 84-92. *)
Definition upscale (E : Engine) (gray : Pix) : Pix :=
  let w := pixGetWidth E gray in
  let h := pixGetHeight E gray in
  if (w <? 500)%Z || (h <? 250)%Z then
    let scale := Float32.max (Float32.div (Float32.of_int 500) (Float32.of_int w))
                             (Float32.div (Float32.of_int 250) (Float32.of_int h)) in
    pixScale E gray scale scale
  else gray.

(** Lines 94-98. *)
Definition sharpen (E : Engine) (scaled : Pix) : Pix :=
  match pixUnsharpMaskingGray E scaled with
  | Some sharpened => sharpened
  | None => scaled
  end.

(** Lines 100-104. *)
Definition normalize_contrast (E : Engine) (scaled : Pix) : Pix :=
  match pixContrastNorm E scaled with
  | Some contrast => contrast
  | None => scaled
  end.

(** Lines 106-107. *)
Definition binarize (E : Engine) (scaled : Pix) : Pix :=
  match pixOtsuThreshOnBackgroundNorm E scaled with
  | Some binary => binary
  | None => scaled
  end.

(** Lines 81-107: from the decoded image to [final_image]. *)
Definition preprocess (E : Engine) (image : Pix) : Pix :=
  let gray := pixConvertTo8 E image in
  let scaled := upscale E gray in
  let scaled := sharpen E scaled in
  let scaled := normalize_contrast E scaled in
  binarize E scaled.

(** Lines 122-139: the first recognition, and the second one when the
    filtered text of the first is shorter than two bytes. *)
Definition extract (E : Engine) (final_image : Pix) (api : TessBaseAPI)
  : Text.text * TessBaseAPI :=
  let api := SetImage final_image api in
  let '(raw_text, api) := GetUTF8Text E api in
  let text := or_empty raw_text in
  let text := Text.erase_remove_if Text.is_stripped text in
  if Nat.eqb (length text) 0 || Nat.ltb (length text) 2 then
    let api := SetPageSegMode PSM_SINGLE_WORD api in
    let api := SetImage final_image api in
    let '(raw_text, api) := GetUTF8Text E api in
    let text := or_empty raw_text in
    (Text.erase_remove_if Text.is_stripped text, api)
  else (text, api).

Definition INIT_FAILED : Text.text := Text.lit "[ERROR: Tesseract initialization failed]".
Definition OPEN_FAILED : Text.text := Text.lit "[ERROR: Unable to open image]".

(** Lines 47-166, with the recognitions that the run made. *)
Definition process_image_run (E : Engine) (image_data : list Byte.byte)
  : OCRResult * list (PageSegMode * Pix) :=
  let api := api_new in
  if negb (Init E =? 0)%Z then
    ({| text := INIT_FAILED; time_ms := elapsed E; processed_image := [] |},
     recognitions api)
  else
    let api := SetPageSegMode PSM_SINGLE_BLOCK api in
    match pixRead E image_data with
    | None =>
        ({| text := OPEN_FAILED; time_ms := elapsed E; processed_image := [] |},
         recognitions api)
    | Some image =>
        let final_image := preprocess E image in
        let processed_data := pixWrite E final_image in
        let '(text, api) := extract E final_image api in
        ({| text := Text.clean_up text; time_ms := elapsed E;
            processed_image := processed_data |},
         recognitions api)
    end.

Definition process_image (E : Engine) (image_data : list Byte.byte) : OCRResult :=
  fst (process_image_run E image_data).

End Engine.

Arguments Init {Pix} _.
Arguments pixRead {Pix} _ _.
Arguments pixConvertTo8 {Pix} _ _.
Arguments pixGetWidth {Pix} _ _.
Arguments pixGetHeight {Pix} _ _.
Arguments pixScale {Pix} _ _ _ _.
Arguments pixUnsharpMaskingGray {Pix} _ _.
Arguments pixContrastNorm {Pix} _ _.
Arguments pixOtsuThreshOnBackgroundNorm {Pix} _ _.
Arguments pixWrite {Pix} _ _.
Arguments Recognize {Pix} _ _ _.
Arguments elapsed {Pix} _.
Arguments upscale {Pix} _ _.
Arguments sharpen {Pix} _ _.
Arguments normalize_contrast {Pix} _ _.
Arguments binarize {Pix} _ _.
Arguments preprocess {Pix} _ _.
Arguments extract {Pix} _ _ _.
Arguments process_image_run {Pix} _ _.
Arguments process_image {Pix} _ _.
Arguments GetUTF8Text {Pix} _ _.
Arguments SetImage {Pix} _ _.
Arguments SetPageSegMode {Pix} _ _.
Arguments api_new {Pix}.
Arguments psm {Pix} _.
Arguments image {Pix} _.
Arguments recognitions {Pix} _.

(** ** Messages of the service ([ocr_service.proto], as the source uses them) *)

Module ImageRequest.
Record t := {
  filename : Text.text;
  image_data : list Byte.byte;
  batch_id : Z;
  image_id : Z
}.
End ImageRequest.

Module OCRResponse.
Record t := {
  image_id : Z;
  filename : Text.text;
  extracted_text : Text.text;
  processing_time_ms : spec_float;
  success : bool;
  processed_image : list Byte.byte
}.

(** A default-constructed message (line 249). *)
Definition default : t :=
  {| image_id := 0; filename := []; extracted_text := [];
     processing_time_ms := S754_zero false; success := false;
     processed_image := [] |}.

Definition set_image_id (v : Z) (r : t) : t :=
  {| image_id := v; filename := filename r; extracted_text := extracted_text r;
     processing_time_ms := processing_time_ms r; success := success r;
     processed_image := processed_image r |}.
Definition set_filename (v : Text.text) (r : t) : t :=
  {| image_id := image_id r; filename := v; extracted_text := extracted_text r;
     processing_time_ms := processing_time_ms r; success := success r;
     processed_image := processed_image r |}.
Definition set_extracted_text (v : Text.text) (r : t) : t :=
  {| image_id := image_id r; filename := filename r; extracted_text := v;
     processing_time_ms := processing_time_ms r; success := success r;
     processed_image := processed_image r |}.
Definition set_processing_time_ms (v : spec_float) (r : t) : t :=
  {| image_id := image_id r; filename := filename r; extracted_text := extracted_text r;
     processing_time_ms := v; success := success r;
     processed_image := processed_image r |}.
Definition set_success (v : bool) (r : t) : t :=
  {| image_id := image_id r; filename := filename r; extracted_text := extracted_text r;
     processing_time_ms := processing_time_ms r; success := v;
     processed_image := processed_image r |}.
Definition set_processed_image (v : list Byte.byte) (r : t) : t :=
  {| image_id := image_id r; filename := filename r; extracted_text := extracted_text r;
     processing_time_ms := processing_time_ms r; success := success r;
     processed_image := v |}.
End OCRResponse.

(** What [ProcessImage] returns to the transport. *)
Inductive Status := Status_OK | Status_error (code : Z).

(** ** The pool, the queue and the calls that wait on them *)

(** The locals of one activation of [OCRServiceImpl::ProcessImage]
    (lines 244-269) that a task points to, with the request it was called
    with.  The mutex and the condition variable of the call only order the
    accesses to [completed]. *)
Module Call.
Record t := {
  request : ImageRequest.t;
  response : OCRResponse.t;
  completed : bool
}.
Definition with_response (f : OCRResponse.t -> OCRResponse.t) (c : t) : t :=
  {| request := request c; response := f (response c); completed := completed c |}.
Definition with_completed (b : bool) (c : t) : t :=
  {| request := request c; response := response c; completed := b |}.
End Call.

(** Lines 31-37.  [request] is a copy; [response] and [completed] are
    pointers into a call, given as the address of that call. *)
Module OCRTask.
Record t := {
  request : ImageRequest.t;
  response : nat;
  completed : nat
}.
End OCRTask.

(** Where a worker thread stands in the loop of lines 168-207. *)
Inductive worker_state :=
| Waiting                          (* at [condition.wait], line 173 *)
| Processing (task : OCRTask.t)    (* past line 179, holding [task] *)
| Returned.                        (* left through line 175 *)

(** Lines 39-45. *)
Record ThreadPool := {
  workers : list worker_state;
  tasks : list OCRTask.t;          (* [std::queue]: front of the queue first *)
  stop : bool
}.

(** Lines 210-215. *)
Definition ThreadPool_new (num_threads : nat) : ThreadPool :=
  {| workers := replicate num_threads Waiting; tasks := []; stop := false |}.

(** Lines 228-235: [tasks.push] under [queue_mutex]. *)
Definition enqueue (task : OCRTask.t) (p : ThreadPool) : ThreadPool :=
  {| workers := workers p; tasks := tasks p ++ [task]; stop := stop p |}.

Definition set_worker (w : nat) (st : worker_state) (p : ThreadPool) : ThreadPool :=
  {| workers := <[w := st]> (workers p); tasks := tasks p; stop := stop p |}.

(** Lines 171-179, the critical section of worker [w]: it leaves when
    [stop] is set and the queue is empty, takes [tasks.front()] when the
    queue is not empty, and keeps waiting otherwise. *)
Definition worker_take (w : nat) (p : ThreadPool) : ThreadPool * option OCRTask.t :=
  match workers p !! w with
  | Some Waiting =>
      match tasks p with
      | [] => if stop p then (set_worker w Returned p, None) else (p, None)
      | task :: rest =>
          ({| workers := <[w := Processing task]> (workers p);
              tasks := rest; stop := stop p |}, Some task)
      end
  | _ => (p, None)
  end.

(** Lines 217-226, up to the joins: [stop = true]. *)
Definition shutdown (p : ThreadPool) : ThreadPool :=
  {| workers := workers p; tasks := tasks p; stop := true |}.

(** Lines 189-195. *)
Definition fill_response (task : OCRTask.t) (result : OCRResult)
    (r : OCRResponse.t) : OCRResponse.t :=
  let r := OCRResponse.set_image_id (ImageRequest.image_id (OCRTask.request task)) r in
  let r := OCRResponse.set_filename (ImageRequest.filename (OCRTask.request task)) r in
  let r := OCRResponse.set_extracted_text (text result) r in
  let r := OCRResponse.set_processing_time_ms (time_ms result) r in
  let r := OCRResponse.set_success true r in
  OCRResponse.set_processed_image (processed_image result) r.

Section Server.

Variable Pix : Type.

(** The service: its pool, the calls in progress by address, and the
    address the next call gets. *)
Record Server := {
  thread_pool : ThreadPool;
  calls : gmap nat Call.t;
  next_call : nat
}.

(** Lines 272-273. *)
Definition Server_new (num_threads : nat) : Server :=
  {| thread_pool := ThreadPool_new num_threads; calls := ∅; next_call := 0 |}.

(** What a schedule is made of.  Each event is one atomic stretch of one
    thread of the source. *)
Inductive event :=
| Arrive (request : ImageRequest.t)   (* a call of [ProcessImage], lines 246-255 *)
| Take (w : nat)                      (* worker [w], lines 171-179 *)
| Complete (w : nat) (E : Engine Pix) (* worker [w], lines 181-205, in a world [E] *)
| Return (a : nat)                    (* the call at [a], lines 257-268 *)
| Shutdown.                           (* the destructor of the pool *)

(** What an event lets an observer see. *)
Inductive action :=
| Enqueued (task : OCRTask.t)
| Dequeued (w : nat) (task : OCRTask.t)
| Processed (w : nat) (task : OCRTask.t)
| Replied (request : ImageRequest.t) (response : OCRResponse.t) (status : Status).

(** Lines 246-255: a new call, its task pushed on the queue. *)
Definition ProcessImage_submit (request : ImageRequest.t) (s : Server)
  : Server * list action :=
  let a := next_call s in
  let call := {| Call.request := request; Call.response := OCRResponse.default;
                 Call.completed := false |} in
  let task := {| OCRTask.request := request; OCRTask.response := a;
                 OCRTask.completed := a |} in
  ({| thread_pool := enqueue task (thread_pool s);
      calls := <[a := call]> (calls s);
      next_call := S a |},
   [Enqueued task]).

(** Lines 257-268: once [completed] is set the call writes its response
    and returns [Status::OK]; until then it waits. *)
Definition ProcessImage_return (a : nat) (s : Server) : Server * list action :=
  match calls s !! a with
  | Some call =>
      if Call.completed call then
        ({| thread_pool := thread_pool s; calls := delete a (calls s);
            next_call := next_call s |},
         [Replied (Call.request call) (Call.response call) Status_OK])
      else (s, [])
  | None => (s, [])
  end.

(** Lines 181-205: the task held by worker [w] is processed, the response
    and the flag of its call are written, the worker goes back to wait. *)
Definition worker_complete (w : nat) (E : Engine Pix) (s : Server)
  : Server * list action :=
  match workers (thread_pool s) !! w with
  | Some (Processing task) =>
      let result := process_image E (ImageRequest.image_data (OCRTask.request task)) in
      let cs := alter (Call.with_response (fill_response task result))
                      (OCRTask.response task) (calls s) in
      let cs := alter (Call.with_completed true) (OCRTask.completed task) cs in
      ({| thread_pool := set_worker w Waiting (thread_pool s);
          calls := cs; next_call := next_call s |},
       [Processed w task])
  | _ => (s, [])
  end.

Definition step (e : event) (s : Server) : Server * list action :=
  match e with
  | Arrive request => ProcessImage_submit request s
  | Take w =>
      let '(p, taken) := worker_take w (thread_pool s) in
      ({| thread_pool := p; calls := calls s; next_call := next_call s |},
       match taken with Some task => [Dequeued w task] | None => [] end)
  | Complete w E => worker_complete w E s
  | Return a => ProcessImage_return a s
  | Shutdown =>
      ({| thread_pool := shutdown (thread_pool s); calls := calls s;
          next_call := next_call s |}, [])
  end.

(** A schedule run from a state: the state reached and what was seen. *)
Fixpoint run (es : list event) (s : Server) : Server * list action :=
  match es with
  | [] => (s, [])
  | e :: es' =>
      let '(s1, out1) := step e s in
      let '(s2, out2) := run es' s1 in
      (s2, out1 ++ out2)
  end.

(** The tasks pushed, taken and processed, each in the order it happened. *)
Definition enqueued (tr : list action) : list OCRTask.t :=
  flat_map (fun a => match a with Enqueued t => [t] | _ => [] end) tr.
Definition dequeued (tr : list action) : list OCRTask.t :=
  flat_map (fun a => match a with Dequeued _ t => [t] | _ => [] end) tr.
Definition processed (tr : list action) : list OCRTask.t :=
  flat_map (fun a => match a with Processed _ t => [t] | _ => [] end) tr.

(** The task a worker holds, if any. *)
Definition held (st : worker_state) : list OCRTask.t :=
  match st with Processing t => [t] | _ => [] end.

End Server.

Arguments Arrive {Pix} _.
Arguments Take {Pix} _.
Arguments Complete {Pix} _ _.
Arguments Return {Pix} _.
Arguments Shutdown {Pix}.
Arguments step {Pix} _ _.
Arguments run {Pix} _ _.
Arguments worker_complete {Pix} _ _ _.

(** ** Sanitization as the specification words it *)

Module Spec.

(** "non-ASCII (> 127)". *)
Definition non_ascii (c : ascii) : bool := (127 <? N_of_ascii c)%N.

(** "a control character", as ASCII has them: the bytes 0 to 31 and 127. *)
Definition ascii_control (c : ascii) : bool :=
  (N_of_ascii c <? 32)%N || (N_of_ascii c =? 127)%N.

(** The control characters below 32, without byte 127. *)
Definition control (c : ascii) : bool := (N_of_ascii c <? 32)%N.

Definition space_or_newline (c : ascii) : bool :=
  Ascii.eqb c " " || Ascii.eqb c "010".

(** "strip any byte that is non-ASCII (> 127) or a control character other
    than space/newline", for the control characters below 32. *)
Definition strip_bytes (s : Text.text) : Text.text :=
  List.filter (fun c => negb (non_ascii c || (control c && negb (space_or_newline c)))) s.

(** "strip carriage returns and tabs". *)
Definition strip_cr_tab (s : Text.text) : Text.text :=
  List.filter (fun c => negb (Ascii.eqb c "013" || Ascii.eqb c "009")) s.

(** "trim leading ... spaces and newlines". *)
Fixpoint trim_leading (s : Text.text) : Text.text :=
  match s with
  | [] => []
  | c :: s' => if space_or_newline c then trim_leading s' else s
  end.

(** "trim ... trailing spaces and newlines". *)
Fixpoint trim_trailing (s : Text.text) : Text.text :=
  match s with
  | [] => []
  | c :: s' =>
      match trim_trailing s' with
      | [] => if space_or_newline c then [] else [c]
      | kept => c :: kept
      end
  end.

(** "if the result is empty after trimming, substitute the sentinel text". *)
Definition or_unreadable (s : Text.text) : Text.text :=
  match s with
  | [] => Text.lit "[UNREADABLE]"
  | _ => s
  end.

Definition sanitize (raw : Text.text) : Text.text :=
  or_unreadable (trim_trailing (trim_leading (strip_cr_tab (strip_bytes raw)))).

End Spec.

(** ** The filter read on all control characters

    The rule that the sanitized output of [raw] has no byte above 127 and
    no ASCII control character other than space and newline. *)
Definition sanitize_removes_controls (raw : Text.text) : Prop :=
  Forall (fun c => Spec.non_ascii c = false
                   /\ (Spec.ascii_control c = true -> c = " " \/ c = "010"))
         (Text.sanitize raw).

(** ** The retry rule read on the sanitized text

    The rule in which the length that decides the retry is the length of
    the sanitized output of the first recognition. *)
Definition retry_on_sanitized_length {Pix} (E : Engine Pix) (image_data : list Byte.byte) : Prop :=
  forall img,
    Init E = 0%Z -> pixRead E image_data = Some img ->
    let final_image := preprocess E img in
    let first := Text.sanitize (or_empty (Recognize E PSM_SINGLE_BLOCK final_image)) in
    let second := Text.sanitize (or_empty (Recognize E PSM_SINGLE_WORD final_image)) in
    ((length first < 2)%nat ->
       snd (process_image_run E image_data)
         = [(PSM_SINGLE_BLOCK, final_image); (PSM_SINGLE_WORD, final_image)]
       /\ text (process_image E image_data) = second)
    /\ ((2 <= length first)%nat ->
       snd (process_image_run E image_data) = [(PSM_SINGLE_BLOCK, final_image)]).

(** The rule that bytes which do not decode always give the decoding
    sentinel. *)
Definition undecodable_gives_open_failed {Pix} (E : Engine Pix) (image_data : list Byte.byte) : Prop :=
  pixRead E image_data = None ->
  text (process_image E image_data) = OPEN_FAILED.

(** ** Sample worlds, requests and schedules *)

Module Sample.

(** A bitmap known by its width and height only. *)
Definition bitmap : Type := (Z * Z)%type.

(** A world in which initialization answers [init], decoding succeeds on
    non-empty data with a 640 x 480 bitmap, no enhancement applies, and
    the two recognition modes answer [block] and [word]. *)
Definition engine (init : Z) (block word : option Text.text) : Engine bitmap :=
  {| Init := init;
     pixRead := fun data => match data with [] => None | _ => Some (640, 480)%Z end;
     pixConvertTo8 := fun p => p;
     pixGetWidth := fst;
     pixGetHeight := snd;
     pixScale := fun p _ _ => p;
     pixUnsharpMaskingGray := fun _ => None;
     pixContrastNorm := fun _ => None;
     pixOtsuThreshOnBackgroundNorm := fun _ => None;
     pixWrite := fun _ => [x89; x50; x4e; x47]%byte;
     Recognize := fun m _ =>
       match m with PSM_SINGLE_BLOCK => block | PSM_SINGLE_WORD => word end;
     elapsed := S754_zero false |}.

Definition png : list Byte.byte := [x89; x50; x4e; x47]%byte.

(** The first pass reads one letter and a newline, the second a word. *)
Definition one_letter : Engine bitmap :=
  engine 0 (Some (Text.lit "a" ++ ["010"])) (Some (Text.lit "at" ++ ["010"])).

(** The first pass reads nothing, the second a word. *)
Definition nothing_then_word : Engine bitmap :=
  engine 0 None (Some (Text.lit "at" ++ ["010"])).

(** Both passes read a line of text. *)
Definition hello : Engine bitmap :=
  engine 0 (Some (Text.lit "HELLO" ++ ["010"])) (Some (Text.lit "HELLO" ++ ["010"])).

(** Initialization fails. *)
Definition no_tessdata : Engine bitmap := engine (-1) None None.

Definition J (id : Z) : ImageRequest.t :=
  {| ImageRequest.filename := Text.lit "scan.png";
     ImageRequest.image_data := png;
     ImageRequest.batch_id := 1;
     ImageRequest.image_id := id |}.

(** Three calls arrive, then one worker takes and completes each. *)
Definition three_jobs : list (event bitmap) :=
  [Arrive (J 1); Arrive (J 2); Arrive (J 3);
   Take 0; Complete 0 hello; Take 0; Complete 0 hello; Take 0; Complete 0 hello;
   Return 0; Return 1; Return 2].

(** The task of a call at address [a] for the request [J id]. *)
Definition task (id : Z) (a : nat) : OCRTask.t :=
  {| OCRTask.request := J id; OCRTask.response := a; OCRTask.completed := a |}.

(** What a worker writes for [J id] in the world [hello]. *)
Definition reply (id : Z) : OCRResponse.t :=
  fill_response (task id 0) (process_image hello png) OCRResponse.default.

(** One call has arrived and the only worker holds its task. *)
Definition in_hand : Server :=
  fst (run [Arrive (Pix:=bitmap) (J 1); Take 0] (Server_new 1)).

End Sample.

(** ** What every schedule preserves *)

(** The tasks that are in the queue or in the hands of a worker. *)
Definition pending (s : Server) : list OCRTask.t :=
  tasks (thread_pool s) ++ flat_map held (workers (thread_pool s)).

Section Invariant.

Variable Pix : Type.

(** The response of a call is what a worker wrote for a task that carried
    the request of that very call. *)
Definition answered (request : ImageRequest.t) (response : OCRResponse.t) : Prop :=
  exists (E : Engine Pix) (task : OCRTask.t) (r0 : OCRResponse.t),
    OCRTask.request task = request
    /\ response = fill_response task
         (process_image E (ImageRequest.image_data request)) r0.

(** Pending tasks point to distinct calls, each still waiting and called
    with the request the task carries; a call whose flag is set has been
    answered. *)
Record consistent (s : Server) : Prop := {
  pending_distinct : List.NoDup (map OCRTask.response (pending s));
  pending_calls : forall t, In t (pending s) ->
    OCRTask.completed t = OCRTask.response t
    /\ exists c, calls s !! OCRTask.response t = Some c
                 /\ Call.request c = OCRTask.request t
                 /\ Call.completed c = false;
  calls_answered : forall a c, calls s !! a = Some c ->
    (a < next_call s)%nat
    /\ (Call.completed c = true -> answered (Call.request c) (Call.response c))
}.

(** A reply carries [Status::OK] and the answer to its own request. *)
Definition reply_ok (act : action) : Prop :=
  match act with
  | Replied request response status =>
      status = Status_OK /\ answered request response
  | _ => True
  end.

End Invariant.

(** ** Schedules and observations used below *)

Section Schedules.

Variable Pix : Type.

(** Worker [w] takes and completes a task, once for each world of [Es]. *)
Fixpoint drain (w : nat) (Es : list (Engine Pix)) : list (event Pix) :=
  match Es with
  | [] => []
  | E :: Es' => Take w :: Complete w E :: drain w Es'
  end.

Definition is_Shutdown (e : event Pix) : bool :=
  match e with Shutdown => true | _ => false end.

End Schedules.

Arguments drain {Pix} _ _.
Arguments is_Shutdown {Pix} _.

(** The requests answered, in the order of the replies. *)
Definition replied (tr : list action) : list ImageRequest.t :=
  flat_map (fun a => match a with Replied request _ _ => [request] | _ => [] end) tr.

(** ** The client ([src/client/client.cpp])

    The [int] counters of the client are integers: the model follows
    them while they stay in range, and the product of line 373 is reduced
    to an [int].  The slots run in the one thread of the window, a slot
    at a time, except where a slot opens a message box: the box runs an
    event loop of its own, in which the signals of the threads reach their
    slots before the first slot goes on. *)

Module Client.

(** What Qt provides: the code units of a [QString], the conversion of an
    ASCII literal, the conversions from and to [std::string], and the
    decoding of image bytes by [QPixmap::loadFromData]. *)
Record Qt := {
  QChar : Type;
  latin1 : ascii -> QChar;
  toStdString : list QChar -> Text.text;
  fromStdString : Text.text -> list QChar;
  loadFromData : list Byte.byte -> bool
}.

(** What a call through the stub gives the client: the messages that
    [reader->Read] delivers and the status that [reader->Finish] returns,
    or an exception. *)
Inductive rpc :=
| Stream (messages : list OCRResponse.t) (finish : Status)
| Throws (what : Text.text).

(** [status.ok()]. *)
Definition ok (status : Status) : bool :=
  match status with Status_OK => true | Status_error _ => false end.

(** The three reference parameters of [OCRClient::ProcessImage]. *)
Record outputs := {
  result : Text.text;
  time_ms : spec_float;
  processed_image : list Byte.byte
}.

(** Lines 35-61: the value returned with the reference parameters after
    the call, or the exception that leaves the call. *)
Definition ProcessImage (stub : ImageRequest.t -> rpc)
    (filename : Text.text) (image_data : list Byte.byte) (batch_id image_id : Z)
    (out : outputs) : (bool * outputs) + Text.text :=
  let request := {| ImageRequest.filename := filename;
                    ImageRequest.image_data := image_data;
                    ImageRequest.batch_id := batch_id;
                    ImageRequest.image_id := image_id |} in
  match stub request with
  | Throws what => inr what
  | Stream [] _ => inl (false, out)
  | Stream (response :: _) finish =>
      inl (ok finish,
           {| result := OCRResponse.extracted_text response;
              time_ms := OCRResponse.processing_time_ms response;
              processed_image := OCRResponse.processed_image response |})
  end.

(** The value of an [int] expression whose mathematical value is [z].
    C++ leaves the overflow of [int] undefined; the model gives it the
    value that two's complement hardware computes. *)
Definition int_wrap (z : Z) : Z := ((z + 2 ^ 31) mod 2 ^ 32 - 2 ^ 31)%Z.

(** The [k]-th of the running threads makes its call, through a stub, and
    its signal reaches the slot it is connected to. *)
Inductive arrival :=
| Arrives (k : nat) (stub : ImageRequest.t -> rpc) (uninitialized : spec_float).

Section Gui.

Variable Q : Qt.

Definition QString : Type := list (QChar Q).

(** A [QString] made from an ASCII literal. *)
Definition qlit (s : string) : QString := map (latin1 Q) (list_ascii_of_string s).

(** [s.left(n)]. *)
Definition left (n : nat) (s : QString) : QString := firstn n s.

(** Lines 64-78, without the pointer to the one client. *)
Record ProcessThread := {
  filename : QString;
  image_data : list Byte.byte;
  batch_id : Z;
  image_id : Z
}.

(** Lines 80-82. *)
Inductive signal :=
| resultReady (id : Z) (filename text : QString) (time_ms : spec_float)
    (processedImage : list Byte.byte)
| processingError (id : Z) (filename error : QString).

(** Lines 85-104.  [uninitialized] is the value that the local [time_ms]
    happens to hold before the call. *)
Definition ProcessThread_run (stub : ImageRequest.t -> rpc)
    (uninitialized : spec_float) (th : ProcessThread) : signal :=
  match ProcessImage stub (toStdString Q (filename th)) (image_data th)
          (batch_id th) (image_id th)
          {| result := []; time_ms := uninitialized; processed_image := [] |} with
  | inl (true, out) =>
      resultReady (image_id th) (filename th) (fromStdString Q (result out))
        (time_ms out) (processed_image out)
  | inl (false, _) =>
      processingError (image_id th) (filename th) (qlit "gRPC call failed")
  | inr what =>
      processingError (image_id th) (filename th) (fromStdString Q what)
  end.

(** What the image label of a widget shows. *)
Inductive image_view :=
| Placeholder
| Pixmap (data : list Byte.byte)
| Caption (s : QString).

(** Lines 107-113. *)
Record ResultWidget := {
  imageLabel : image_view;
  textLabel : QString;
  isProcessing : bool
}.

(** Lines 116-141. *)
Definition ResultWidget_new : ResultWidget :=
  {| imageLabel := Placeholder; textLabel := qlit "In progress"; isProcessing := true |}.

(** Lines 155-158. *)
Definition displayText (text : QString) : QString :=
  if Nat.ltb 30 (length text) then left 27 text ++ qlit "..." else text.

(** Lines 143-161. *)
Definition setResult (text : QString) (imageData : list Byte.byte)
    (w : ResultWidget) : ResultWidget :=
  {| imageLabel := if loadFromData Q imageData then Pixmap imageData
                   else Caption (qlit "Error");
     textLabel := displayText text;
     isProcessing := false |}.

(** Lines 163-170. *)
Definition setError (error : QString) (w : ResultWidget) : ResultWidget :=
  {| imageLabel := Caption (qlit "ERROR"); textLabel := left 30 error;
     isProcessing := false |}.

Definition COLUMNS : Z := 4.

(** A widget placed in the grid: its row, its column, the id it is kept
    under in [resultWidgets]. *)
Record placed := { row : Z; col : Z; widget_id : Z }.

(** Lines 176-190, the fields that the slots read and write. *)
Record OCRWindow := {
  current_batch_id : Z;
  total_images : Z;
  completed_images : Z;
  active_threads : list ProcessThread;
  resultWidgets : gmap Z ResultWidget;
  resultsLayout : list placed;
  progressBar : Z
}.

(** Lines 193-277. *)
Definition OCRWindow_new : OCRWindow :=
  {| current_batch_id := 1; total_images := 0; completed_images := 0;
     active_threads := []; resultWidgets := ∅; resultsLayout := [];
     progressBar := 0 |}.

(** Lines 369-376: the product is an [int], and [/] on [int] rounds
    toward zero. *)
Definition updateProgress (w : OCRWindow) : OCRWindow :=
  {| current_batch_id := current_batch_id w; total_images := total_images w;
     completed_images := completed_images w; active_threads := active_threads w;
     resultWidgets := resultWidgets w; resultsLayout := resultsLayout w;
     progressBar := if (total_images w =? 0)%Z then 0%Z
                    else (int_wrap (completed_images w * 100) ÷ total_images w)%Z |}.

(** Lines 378-390. *)
Definition clearResults (w : OCRWindow) : OCRWindow :=
  {| current_batch_id := current_batch_id w; total_images := 0;
     completed_images := 0; active_threads := active_threads w;
     resultWidgets := ∅; resultsLayout := []; progressBar := 0 |}.

(** A message box shown to the user. *)
Inductive popup :=
| warning (text : QString)
| information (total : Z).

Definition is_warning (p : popup) : bool :=
  match p with warning _ => true | information _ => false end.

(** A file picked in the dialog: its path, its base name, and its bytes
    when it can be opened.  When it cannot, [QMessageBox::warning] runs an
    event loop until the user closes the box: [meanwhile] are the signals
    of threads started earlier that reach their slots in that loop. *)
Record picked := {
  path : QString;
  basename : QString;
  content : option (list Byte.byte);
  meanwhile : list arrival
}.

(** The window and the threads that were started and whose signal has not
    yet reached a slot. *)
Record Gui := {
  window : OCRWindow;
  running : list ProcessThread
}.

Definition Gui_new : Gui := {| window := OCRWindow_new; running := [] |}.

(** [completed_images++], then the widget under [id], if any, is given
    to [f] (lines 345-349 and 360-364). *)
Definition count_and_show (id : Z) (f : ResultWidget -> ResultWidget)
    (w : OCRWindow) : OCRWindow :=
  {| current_batch_id := current_batch_id w; total_images := total_images w;
     completed_images := (completed_images w + 1)%Z;
     active_threads := active_threads w;
     resultWidgets := alter f id (resultWidgets w);
     resultsLayout := resultsLayout w; progressBar := progressBar w |}.

(** Lines 344-357. *)
Definition onResultReady (id : Z) (text : QString) (processedImage : list Byte.byte)
    (w : OCRWindow) : OCRWindow * list popup :=
  let w := updateProgress (count_and_show id (setResult text processedImage) w) in
  (w, if (completed_images w =? total_images w)%Z
      then [information (total_images w)] else []).

(** Lines 359-367. *)
Definition onProcessingError (id : Z) (error : QString)
    (w : OCRWindow) : OCRWindow * list popup :=
  (updateProgress (count_and_show id (setError error) w), []).

(** The slot that a signal is connected to (lines 328-331). *)
Definition deliver (sig : signal) (w : OCRWindow) : OCRWindow * list popup :=
  match sig with
  | resultReady id _ text _ processedImage => onResultReady id text processedImage w
  | processingError id _ error => onProcessingError id error w
  end.

(** The signal of the [k]-th running thread reaches its slot.  When the
    slot opens the information box every image is counted, so that no
    thread is left whose signal could arrive while the box is open. *)
Definition finish (k : nat) (stub : ImageRequest.t -> rpc) (uninitialized : spec_float)
    (g : Gui) : Gui * list popup :=
  match running g !! k with
  | Some th =>
      let '(w, out) := deliver (ProcessThread_run stub uninitialized th) (window g) in
      ({| window := w; running := delete k (running g) |}, out)
  | None => (g, [])
  end.

Fixpoint finish_all (arrivals : list arrival) (g : Gui) : Gui * list popup :=
  match arrivals with
  | [] => (g, [])
  | Arrives k stub uninitialized :: arrivals' =>
      let '(g1, out1) := finish k stub uninitialized g in
      let '(g2, out2) := finish_all arrivals' g1 in
      (g2, out1 ++ out2)
  end.

(** Lines 300-339, one turn of the loop.  The slots that run while the
    warning box is open find the window as the turns before left it. *)
Definition upload_one (g : Gui) (f : picked) : Gui * list popup :=
  match content f with
  | None =>
      let '(g', out) := finish_all (meanwhile f) g in
      (g', warning (qlit "Could not open file: " ++ path f) :: out)
  | Some data =>
      let w := window g in
      let id := total_images w in
      let thread := {| filename := basename f; image_data := data;
                       batch_id := current_batch_id w; image_id := id |} in
      ({| window :=
            {| current_batch_id := current_batch_id w;
               total_images := (total_images w + 1)%Z;
               completed_images := completed_images w;
               active_threads := active_threads w ++ [thread];
               resultWidgets := <[id := ResultWidget_new]> (resultWidgets w);
               resultsLayout := resultsLayout w ++
                 [{| row := (id ÷ COLUMNS)%Z; col := Z.rem id COLUMNS;
                     widget_id := id |}];
               progressBar := progressBar w |};
          running := running g ++ [thread] |}, [])
  end.

Fixpoint upload_all (g : Gui) (fs : list picked) : Gui * list popup :=
  match fs with
  | [] => (g, [])
  | f :: fs' =>
      let '(g1, out1) := upload_one g f in
      let '(g2, out2) := upload_all g1 fs' in
      (g2, out1 ++ out2)
  end.

Definition with_window (w : OCRWindow) (g : Gui) : Gui :=
  {| window := w; running := running g |}.

(** Lines 287-342.  Signals that arrive while the file dialog is open
    reach their slots before the slot reads the window: they are events
    before this one. *)
Definition onUploadClicked (filenames : list picked) (g : Gui) : Gui * list popup :=
  match filenames with
  | [] => (g, [])
  | _ =>
      let w := window g in
      let w :=
        if (0 <? total_images w)%Z && (completed_images w =? total_images w)%Z
        then clearResults
               {| current_batch_id := (current_batch_id w + 1)%Z;
                  total_images := total_images w;
                  completed_images := completed_images w;
                  active_threads := active_threads w;
                  resultWidgets := resultWidgets w;
                  resultsLayout := resultsLayout w;
                  progressBar := progressBar w |}
        else w in
      let '(g', out) := upload_all (with_window w g) filenames in
      (with_window (updateProgress (window g')) g', out)
  end.

(** What happens to the window: the user picks files, or the [k]-th
    running thread makes its call, through a stub, and its signal reaches
    the slot. *)
Inductive gui_event :=
| UploadClicked (filenames : list picked)
| Finished (k : nat) (stub : ImageRequest.t -> rpc) (uninitialized : spec_float).

Definition gui_step (e : gui_event) (g : Gui) : Gui * list popup :=
  match e with
  | UploadClicked filenames => onUploadClicked filenames g
  | Finished k stub uninitialized => finish k stub uninitialized g
  end.

(** The progress bar shows what [updateProgress] last computed from the
    counters of the window. *)
Definition up_to_date (w : OCRWindow) : Prop :=
  progressBar w
  = (if (total_images w =? 0)%Z then 0%Z
     else int_wrap (completed_images w * 100) ÷ total_images w)%Z.

(** [file.is_open()]. *)
Definition opens (f : picked) : bool :=
  match content f with Some _ => true | None => false end.

(** The files picked in the uploads of a sequence of events. *)
Definition picked_files (es : list gui_event) : Z :=
  fold_right (fun e n =>
      match e with
      | UploadClicked filenames => (Z.of_nat (length filenames) + n)%Z
      | Finished _ _ _ => n
      end) 0%Z es.

Fixpoint gui_run (es : list gui_event) (g : Gui) : Gui * list popup :=
  match es with
  | [] => (g, [])
  | e :: es' =>
      let '(g1, out1) := gui_step e g in
      let '(g2, out2) := gui_run es' g1 in
      (g2, out1 ++ out2)
  end.

(** What the slots keep true of the window and of the running threads. *)
Record coherent (g : Gui) : Prop := {
  counted : (0 <= completed_images (window g))%Z
            /\ (completed_images (window g) + Z.of_nat (length (running g))
                = total_images (window g))%Z;
  widgets_of_batch : forall id,
      is_Some (resultWidgets (window g) !! id)
      <-> (0 <= id < total_images (window g))%Z;
  running_distinct : List.NoDup (map image_id (running g));
  running_shown : forall th, In th (running g) ->
      batch_id th = current_batch_id (window g)
      /\ exists wd, resultWidgets (window g) !! image_id th = Some wd
                    /\ isProcessing wd = true;
  shown_running : forall id wd,
      resultWidgets (window g) !! id = Some wd -> isProcessing wd = true ->
      In id (map image_id (running g));
  laid_out : map widget_id (resultsLayout (window g))
             = map Z.of_nat (seq 0 (Z.to_nat (total_images (window g))))
             /\ Forall (fun p => row p = (widget_id p ÷ COLUMNS)%Z
                                 /\ col p = Z.rem (widget_id p) COLUMNS)
                       (resultsLayout (window g))
}.

End Gui.

(** A Qt whose code units are bytes, for text that is ASCII. *)
Definition ascii_qt : Qt :=
  {| QChar := ascii; latin1 := fun c => c;
     toStdString := fun s => s; fromStdString := fun s => s;
     loadFromData := fun data => match data with [] => false | _ => true end |}.

(** The thread started for the first image of the first batch. *)
Definition sample_thread : ProcessThread ascii_qt :=
  Build_ProcessThread ascii_qt (Text.lit "scan.png") Sample.png 1 1.

(** A file that opens and one that does not. *)
Definition readable_file : picked ascii_qt :=
  Build_picked ascii_qt (Text.lit "/tmp/scan.png") (Text.lit "scan.png")
    (Some Sample.png) [].
Definition missing_file : picked ascii_qt :=
  Build_picked ascii_qt (Text.lit "/tmp/gone.png") (Text.lit "gone.png") None [].

(** A stub that delivers one response and [OK]. *)
Definition one_response (r : OCRResponse.t) : ImageRequest.t -> rpc :=
  fun _ => Stream [r] Status_OK.

(** A file that does not open, and while its warning box is open the
    result of the first running thread arrives. *)
Definition missing_file_late : picked ascii_qt :=
  Build_picked ascii_qt (Text.lit "/tmp/gone.png") (Text.lit "gone.png") None
    [Arrives 0 (one_response (Sample.reply 0)) (S754_zero false)].

End Client.

(** ** The sizes of a scaled image

    Leptonica is outside the repository.  For a factor of at least 0.7
    its [pixScale] interpolates, and gives the scaled image the width
    [(l_int32)(scalex * (l_float32)ws + 0.5)] and the height
    [(l_int32)(scaley * (l_float32)hs + 0.5)]: a product in single
    precision, a sum that double precision holds exactly, and a
    truncation. *)

(** The scaled value [m * 2 ^ (e + K)] of a positive finite float. *)
Definition value_at (K : Z) (x : spec_float) : Z :=
  match x with
  | S754_finite false m e => (Z.pos m * 2 ^ (e + K))%Z
  | _ => 0%Z
  end.

(** A float is a positive normal number of single precision. *)
Definition normal32 (x : spec_float) (lo hi : Z) : Prop :=
  exists m e, x = S754_finite false m e /\ (2 ^ 23 <= Z.pos m < 2 ^ 24)%Z /\ (lo <= e <= hi)%Z.

Module Leptonica.

Local Open Scope Z_scope.

(** [(l_int32)(x + 0.5)] for a positive finite [x]. *)
Definition round_half_up (x : spec_float) : Z :=
  match x with
  | S754_finite false m (Zneg p) => (2 * Z.pos m + 2 ^ Z.pos p) / 2 ^ (Z.pos p + 1)
  | S754_finite false m e => Z.pos m * 2 ^ e
  | _ => 0
  end.

(** [(l_int32)(scale * (l_float32)d + 0.5)]. *)
Definition scaled_size (scale : spec_float) (d : Z) : Z :=
  round_half_up (SFmul Float32.prec Float32.emax scale (Float32.of_int d)).

Section Sizes.

Context {Pix : Type}.

(** What Leptonica answers about sizes: an image scaled with
    interpolation has the sizes above, when they are in the range of
    [l_int32], and unsharp masking, contrast normalization and
    thresholding give an image of the size of their argument. *)
Record sizes (E : Engine Pix) : Prop := {
  scaled_width : forall p sx sy,
    scaled_size sx (pixGetWidth E p) < 2 ^ 31 ->
    scaled_size sy (pixGetHeight E p) < 2 ^ 31 ->
    pixGetWidth E (pixScale E p sx sy) = scaled_size sx (pixGetWidth E p);
  scaled_height : forall p sx sy,
    scaled_size sx (pixGetWidth E p) < 2 ^ 31 ->
    scaled_size sy (pixGetHeight E p) < 2 ^ 31 ->
    pixGetHeight E (pixScale E p sx sy) = scaled_size sy (pixGetHeight E p);
  sharpened_size : forall p q, pixUnsharpMaskingGray E p = Some q ->
    pixGetWidth E q = pixGetWidth E p /\ pixGetHeight E q = pixGetHeight E p;
  normalized_size : forall p q, pixContrastNorm E p = Some q ->
    pixGetWidth E q = pixGetWidth E p /\ pixGetHeight E q = pixGetHeight E p;
  binarized_size : forall p q, pixOtsuThreshOnBackgroundNorm E p = Some q ->
    pixGetWidth E q = pixGetWidth E p /\ pixGetHeight E q = pixGetHeight E p
}.

End Sizes.

(** A world of bitmaps known by their sizes: decoding gives a 333 x 167
    bitmap, scaling follows the rule above, sharpening applies and the
    other two enhancements do not. *)
Definition thumbnails : Engine Sample.bitmap :=
  {| Init := 0;
     pixRead := fun data => match data with [] => None | _ => Some (333, 167) end;
     pixConvertTo8 := fun p => p;
     pixGetWidth := fst;
     pixGetHeight := snd;
     pixScale := fun p sx sy => (scaled_size sx (fst p), scaled_size sy (snd p));
     pixUnsharpMaskingGray := fun p => Some p;
     pixContrastNorm := fun _ => None;
     pixOtsuThreshOnBackgroundNorm := fun _ => None;
     pixWrite := fun _ => [x89; x50; x4e; x47]%byte;
     Recognize := fun _ _ => Some (Text.lit "HELLO");
     elapsed := S754_zero false |}.

End Leptonica.

(** Powers of two as opaque terms, for linear arithmetic. *)
Ltac hide_pow :=
  repeat match goal with
  | |- context [(2 ^ ?e)%Z] =>
      let P := fresh "P" in set (P := (2 ^ e)%Z) in *; clearbody P
  | H : context [(2 ^ ?e)%Z] |- _ =>
      let P := fresh "P" in set (P := (2 ^ e)%Z) in *; clearbody P
  end.

(** * Properties *)

(** ** The text clean-up *)

Section TextFacts.

Import Text.

Lemma is_stripped_spec (c : ascii) :
  is_stripped c = Spec.non_ascii c || (Spec.control c && negb (Spec.space_or_newline c)).
Proof.
  unfold is_stripped, Spec.non_ascii, Spec.control, Spec.space_or_newline.
  cbv zeta.
  destruct (127 <? N_of_ascii c)%N, (N_of_ascii c <? 32)%N,
    (Ascii.eqb c " "), (Ascii.eqb c "010"); reflexivity.
Qed.

Lemma in_blanks_spec (c : ascii) : in_set blanks c = Spec.space_or_newline c.
Proof.
  unfold in_set, blanks, Spec.space_or_newline. simpl.
  now rewrite orb_false_r.
Qed.

Lemma erase_remove_if_spec (s : text) :
  erase_remove_if is_stripped s = Spec.strip_bytes s.
Proof.
  unfold erase_remove_if, Spec.strip_bytes.
  apply List.filter_ext. intros c. now rewrite is_stripped_spec.
Qed.

Lemma erase_remove_cr_tab_spec (s : text) :
  erase_remove "009" (erase_remove "013" s) = Spec.strip_cr_tab s.
Proof.
  unfold erase_remove, erase_remove_if, Spec.strip_cr_tab.
  induction s as [|c s IH]; [reflexivity|].
  cbn [List.filter].
  destruct (Ascii.eqb c "013") eqn:Hcr; cbn [negb orb].
  - exact IH.
  - cbn [List.filter]. destruct (Ascii.eqb c "009"); cbn [negb]; [exact IH|].
    now rewrite IH.
Qed.

(** The index found by [find_first_not_of] is an index of the string, so
    [substr] at line 153 is called within range. *)
Lemma find_first_not_of_lt (chars s : text) (i : nat) :
  find_first_not_of chars s = Some i -> (i < length s)%nat.
Proof.
  revert i. induction s as [|c s IH]; intros i; cbn [find_first_not_of].
  - discriminate.
  - destruct (in_set chars c).
    + destruct (find_first_not_of chars s) as [j|]; cbn; [|discriminate].
      intros [= <-]. specialize (IH j eq_refl). cbn. lia.
    + intros [= <-]. cbn. lia.
Qed.

(** At line 153 [end_pos - start_pos + 1] does not wrap around. *)
Lemma find_first_le_last (chars s : text) (i j : nat) :
  find_first_not_of chars s = Some i ->
  find_last_not_of chars s = Some j -> (i <= j)%nat.
Proof.
  revert i j. induction s as [|c s IH]; intros i j; cbn [find_first_not_of find_last_not_of].
  - discriminate.
  - destruct (in_set chars c).
    + destruct (find_first_not_of chars s) as [i'|]; cbn; [|discriminate].
      intros [= <-]. destruct (find_last_not_of chars s) as [j'|]; [|discriminate].
      intros [= <-]. specialize (IH i' j' eq_refl eq_refl). lia.
    + intros [= <-] _. lia.
Qed.

Lemma find_last_trailing (s : text) :
  Spec.trim_trailing s =
  match find_last_not_of blanks s with
  | Some j => firstn (S j) s
  | None => []
  end.
Proof.
  induction s as [|c s IH]; [reflexivity|].
  cbn [Spec.trim_trailing find_last_not_of]. rewrite IH.
  destruct (find_last_not_of blanks s) as [j|] eqn:Hl.
  - destruct s as [|d s]; [discriminate Hl|]. reflexivity.
  - rewrite in_blanks_spec. destruct (Spec.space_or_newline c); reflexivity.
Qed.

Lemma trim_spec (s : text) :
  trim s = Spec.trim_trailing (Spec.trim_leading s).
Proof.
  induction s as [|c s IH]; [reflexivity|].
  cbn [Spec.trim_leading].
  destruct (Spec.space_or_newline c) eqn:Hc.
  - rewrite <- IH. unfold trim. cbn [find_first_not_of find_last_not_of].
    rewrite in_blanks_spec, Hc.
    destruct (find_first_not_of blanks s) as [i|],
             (find_last_not_of blanks s) as [j|]; reflexivity.
  - rewrite find_last_trailing. unfold trim.
    cbn [find_first_not_of]. rewrite in_blanks_spec, Hc.
    destruct (find_last_not_of blanks (c :: s)) as [j|] eqn:Hl.
    + unfold substr. rewrite Nat.sub_0_r, Nat.add_1_r. reflexivity.
    + cbn [find_last_not_of] in Hl. rewrite in_blanks_spec, Hc in Hl.
      destruct (find_last_not_of blanks s); discriminate.
Qed.

Lemma clean_up_spec (t : text) :
  clean_up t = Spec.or_unreadable (Spec.trim_trailing (Spec.trim_leading (Spec.strip_cr_tab t))).
Proof.
  unfold clean_up. rewrite erase_remove_cr_tab_spec, trim_spec.
  now destruct (Spec.trim_trailing _).
Qed.

(** The clean-up of the source computes the sanitization the
    specification describes. *)
Lemma sanitize_refines (raw : text) : sanitize raw = Spec.sanitize raw.
Proof.
  unfold sanitize, Spec.sanitize. now rewrite clean_up_spec, erase_remove_if_spec.
Qed.

Lemma clean_up_nonempty (t : text) : clean_up t <> [].
Proof.
  unfold clean_up.
  destruct (trim _) as [|c r]; cbn; discriminate.
Qed.

End TextFacts.

(** ** Trimming and filtering, on the specification side *)

Section SpecFacts.

Lemma filter_keeps_Forall (P : ascii -> Prop) (p : ascii -> bool) (s : Text.text) :
  Forall P s -> Forall P (List.filter p s).
Proof.
  induction 1 as [|c s Hc Hs IH]; cbn; [constructor|].
  destruct (p c); [constructor|]; assumption.
Qed.

Lemma filter_holds (p : ascii -> bool) (s : Text.text) :
  Forall (fun c => p c = true) (List.filter p s).
Proof.
  induction s as [|c s IH]; cbn; [constructor|].
  destruct (p c) eqn:Hc; [constructor|]; assumption.
Qed.

Lemma filter_fixed (p : ascii -> bool) (s : Text.text) :
  Forall (fun c => p c = true) s -> List.filter p s = s.
Proof.
  induction 1 as [|c s Hc Hs IH]; cbn; [reflexivity|].
  now rewrite Hc, IH.
Qed.

Lemma trim_leading_Forall (P : ascii -> Prop) (s : Text.text) :
  Forall P s -> Forall P (Spec.trim_leading s).
Proof.
  induction 1 as [|c s Hc Hs IH]; cbn; [constructor|].
  destruct (Spec.space_or_newline c); [assumption|]. now constructor.
Qed.

Lemma trim_trailing_Forall (P : ascii -> Prop) (s : Text.text) :
  Forall P s -> Forall P (Spec.trim_trailing s).
Proof.
  induction 1 as [|c s Hc Hs IH]; cbn; [constructor|].
  destruct (Spec.trim_trailing s) as [|k ks].
  - destruct (Spec.space_or_newline c); constructor; [assumption|constructor].
  - now constructor.
Qed.

Lemma trim_trailing_eq (c : ascii) (s : Text.text) :
  Spec.trim_trailing (c :: s) =
  match Spec.trim_trailing s with
  | [] => if Spec.space_or_newline c then [] else [c]
  | kept => c :: kept
  end.
Proof. reflexivity. Qed.

Lemma trim_trailing_cons (c : ascii) (s : Text.text) :
  Spec.space_or_newline c = false ->
  Spec.trim_trailing (c :: s) = c :: Spec.trim_trailing s.
Proof.
  intros Hc. cbn. rewrite Hc. now destruct (Spec.trim_trailing s).
Qed.

Lemma trim_leading_head (s : Text.text) :
  match Spec.trim_leading s with
  | [] => True
  | c :: _ => Spec.space_or_newline c = false
  end.
Proof.
  induction s as [|c s IH]; cbn; [exact I|].
  destruct (Spec.space_or_newline c) eqn:Hc; [exact IH|exact Hc].
Qed.

Lemma trim_trailing_idem (s : Text.text) :
  Spec.trim_trailing (Spec.trim_trailing s) = Spec.trim_trailing s.
Proof.
  induction s as [|c s IH]; [reflexivity|].
  rewrite (trim_trailing_eq c s).
  destruct (Spec.trim_trailing s) as [|k ks] eqn:Hs.
  - destruct (Spec.space_or_newline c) eqn:Hc; [reflexivity|].
    cbn. now rewrite Hc.
  - now rewrite trim_trailing_eq, IH.
Qed.

(** Trimming a trimmed text changes nothing. *)
Lemma trim_fixed (s : Text.text) :
  let t := Spec.trim_trailing (Spec.trim_leading s) in
  Spec.trim_trailing (Spec.trim_leading t) = t.
Proof.
  cbv zeta.
  pose proof (trim_leading_head s) as Hh.
  destruct (Spec.trim_leading s) as [|c r]; [reflexivity|].
  rewrite (trim_trailing_cons c r Hh).
  cbn [Spec.trim_leading]. rewrite Hh.
  rewrite <- (trim_trailing_cons c r Hh).
  apply trim_trailing_idem.
Qed.

Lemma spec_sanitize_idempotent (raw : Text.text) :
  Spec.sanitize (Spec.sanitize raw) = Spec.sanitize raw.
Proof.
  unfold Spec.sanitize at 2 3.
  set (u := Spec.strip_cr_tab (Spec.strip_bytes raw)).
  assert (Hb : Forall (fun c => negb (Spec.non_ascii c ||
             (Spec.control c && negb (Spec.space_or_newline c))) = true) u).
  { apply filter_keeps_Forall, filter_holds. }
  assert (Hc : Forall (fun c => negb (Ascii.eqb c "013" || Ascii.eqb c "009") = true) u).
  { apply filter_holds. }
  pose proof (trim_fixed u) as Ht. cbv zeta in Ht.
  set (t := Spec.trim_trailing (Spec.trim_leading u)) in *.
  assert (Hb' : Forall (fun c => negb (Spec.non_ascii c ||
             (Spec.control c && negb (Spec.space_or_newline c))) = true) t).
  { apply trim_trailing_Forall, trim_leading_Forall, Hb. }
  assert (Hc' : Forall (fun c => negb (Ascii.eqb c "013" || Ascii.eqb c "009") = true) t).
  { apply trim_trailing_Forall, trim_leading_Forall, Hc. }
  destruct t as [|c r] eqn:Et; [reflexivity|].
  cbn [Spec.or_unreadable]. unfold Spec.sanitize.
  unfold Spec.strip_bytes. rewrite (filter_fixed _ _ Hb').
  unfold Spec.strip_cr_tab. rewrite (filter_fixed _ _ Hc').
  now rewrite Ht.
Qed.

(** Every byte of a sanitized text is ASCII, is no control byte below 32
    other than a newline, and is neither a carriage return nor a tab. *)
Lemma spec_sanitize_bytes (raw : Text.text) :
  Forall (fun c => (N_of_ascii c <= 127)%N
                   /\ ((32 <= N_of_ascii c)%N \/ c = "010")
                   /\ c <> "013" /\ c <> "009")
         (Spec.sanitize raw).
Proof.
  unfold Spec.sanitize.
  set (u := Spec.strip_cr_tab (Spec.strip_bytes raw)).
  assert (Hu : Forall (fun c => (N_of_ascii c <= 127)%N
                   /\ ((32 <= N_of_ascii c)%N \/ c = "010")
                   /\ c <> "013" /\ c <> "009") u).
  { assert (H1 : Forall (fun c => negb (Spec.non_ascii c ||
             (Spec.control c && negb (Spec.space_or_newline c))) = true) u)
      by apply filter_keeps_Forall, filter_holds.
    assert (H2 : Forall (fun c => negb (Ascii.eqb c "013" || Ascii.eqb c "009") = true) u)
      by apply filter_holds.
    rewrite Forall_forall in *. intros c Hin.
    specialize (H1 c Hin). specialize (H2 c Hin).
    unfold Spec.non_ascii, Spec.control, Spec.space_or_newline in H1.
    apply negb_true_iff, orb_false_iff in H1 as [Hn Hk].
    apply negb_true_iff, orb_false_iff in H2 as [Hcr Htab].
    apply N.ltb_ge in Hn.
    apply Ascii.eqb_neq in Hcr, Htab.
    repeat split; try assumption.
    destruct (N_of_ascii c <? 32)%N eqn:Hlt.
    - cbn in Hk. apply negb_false_iff, orb_true_iff in Hk as [Hs|Hs];
        apply Ascii.eqb_eq in Hs; subst c; [left; cbn; lia|now right].
    - left. now apply N.ltb_ge in Hlt. }
  destruct (Spec.trim_trailing (Spec.trim_leading u)) as [|c r] eqn:Et.
  - cbn [Spec.or_unreadable].
    repeat constructor; cbn; try lia; discriminate.
  - cbn [Spec.or_unreadable]. rewrite <- Et.
    apply trim_trailing_Forall, trim_leading_Forall, Hu.
Qed.

End SpecFacts.

(** ** One run of [process_image] *)

Section ProcessImageFacts.

Context {Pix : Type}.
Implicit Types (E : Engine Pix) (image_data : list Byte.byte).

Lemma retry_test (n : nat) : Nat.eqb n 0 || Nat.ltb n 2 = Nat.ltb n 2.
Proof. destruct n as [|[|n]]; reflexivity. Qed.

Lemma extract_eq E (final_image : Pix) (api : TessBaseAPI Pix) :
  extract E final_image api =
  let first := Text.erase_remove_if Text.is_stripped
                 (or_empty (Recognize E (psm api) final_image)) in
  if Nat.ltb (length first) 2 then
    (Text.erase_remove_if Text.is_stripped
       (or_empty (Recognize E PSM_SINGLE_WORD final_image)),
     {| psm := PSM_SINGLE_WORD; image := Some final_image;
        recognitions := recognitions api ++
          [(psm api, final_image); (PSM_SINGLE_WORD, final_image)] |})
  else
    (first,
     {| psm := psm api; image := Some final_image;
        recognitions := recognitions api ++ [(psm api, final_image)] |}).
Proof.
  unfold extract, GetUTF8Text, SetImage, SetPageSegMode.
  cbn [image psm recognitions]. cbv zeta.
  rewrite retry_test.
  destruct (Nat.ltb _ 2); [|reflexivity].
  cbn [image psm recognitions]. now rewrite <- List.app_assoc.
Qed.

Lemma process_image_run_init_failed E image_data :
  Init E <> 0%Z ->
  process_image_run E image_data =
  ({| text := INIT_FAILED; time_ms := elapsed E; processed_image := [] |}, []).
Proof.
  intros H. unfold process_image_run.
  apply Z.eqb_neq in H. now rewrite H.
Qed.

Lemma process_image_run_open_failed E image_data :
  Init E = 0%Z -> pixRead E image_data = None ->
  process_image_run E image_data =
  ({| text := OPEN_FAILED; time_ms := elapsed E; processed_image := [] |}, []).
Proof.
  intros Hi Hr. unfold process_image_run. now rewrite Hi, Hr.
Qed.

Lemma process_image_run_decoded E image_data (img : Pix) :
  Init E = 0%Z -> pixRead E image_data = Some img ->
  process_image_run E image_data =
  let final_image := preprocess E img in
  let first := Text.erase_remove_if Text.is_stripped
                 (or_empty (Recognize E PSM_SINGLE_BLOCK final_image)) in
  if Nat.ltb (length first) 2 then
    ({| text := Text.sanitize (or_empty (Recognize E PSM_SINGLE_WORD final_image));
        time_ms := elapsed E; processed_image := pixWrite E final_image |},
     [(PSM_SINGLE_BLOCK, final_image); (PSM_SINGLE_WORD, final_image)])
  else
    ({| text := Text.sanitize (or_empty (Recognize E PSM_SINGLE_BLOCK final_image));
        time_ms := elapsed E; processed_image := pixWrite E final_image |},
     [(PSM_SINGLE_BLOCK, final_image)]).
Proof.
  intros Hi Hr. unfold process_image_run. rewrite Hi, Hr. cbn [Z.eqb negb].
  cbv zeta. rewrite extract_eq. cbn [psm SetPageSegMode api_new recognitions].
  cbv zeta. now destruct (Nat.ltb _ 2).
Qed.

(** The text of a result is a sentinel or the sanitization of what one of
    the two modes read on the final image. *)
Lemma process_image_text E image_data :
  text (process_image E image_data) = INIT_FAILED
  \/ text (process_image E image_data) = OPEN_FAILED
  \/ exists mode img,
       pixRead E image_data = Some img
       /\ text (process_image E image_data)
          = Text.sanitize (or_empty (Recognize E mode (preprocess E img))).
Proof.
  unfold process_image.
  destruct (Z.eq_dec (Init E) 0%Z) as [Hi|Hi].
  - destruct (pixRead E image_data) as [img|] eqn:Hr.
    + right. right. rewrite (process_image_run_decoded _ _ _ Hi Hr). cbv zeta.
      destruct (Nat.ltb _ 2);
        [exists PSM_SINGLE_WORD, img|exists PSM_SINGLE_BLOCK, img]; now split.
    + right. left. now rewrite (process_image_run_open_failed _ _ Hi Hr).
  - left. now rewrite (process_image_run_init_failed _ _ Hi).
Qed.

Lemma process_image_text_nonempty E image_data :
  text (process_image E image_data) <> [].
Proof.
  destruct (process_image_text E image_data) as [H|[H|(mode & img & _ & H)]];
    rewrite H; try discriminate.
  apply clean_up_nonempty.
Qed.

End ProcessImageFacts.

(** ** The extraction policy and the sanitization *)

(** C1, as stated, fails: when the first pass reads one letter followed by
    a newline, the sanitized output of the first pass is the single
    letter (length 1), and yet [process_image] runs no second
    recognition. *)
Lemma retry_on_sanitized_length_refuted :
  ~ retry_on_sanitized_length Sample.one_letter Sample.png.
Proof.
  intros H.
  destruct (H (640, 480)%Z eq_refl eq_refl) as [Hshort _].
  assert (Hlen : (length (Text.sanitize (or_empty
            (Recognize Sample.one_letter PSM_SINGLE_BLOCK
               (preprocess Sample.one_letter (640, 480)%Z)))) < 2)%nat)
    by (vm_compute; lia).
  destruct (Hshort Hlen) as [Hcalls _].
  vm_compute in Hcalls. discriminate Hcalls.
Qed.

(** C1, amended: the retry is decided on the output of the first
    (single-block) recognition after the byte filter alone, before carriage
    returns and tabs are removed, before trimming and before the sentinel
    is substituted.  When that filtered text is shorter than 2 bytes,
    single-word recognition runs exactly once more on the same final
    image and the result is its sanitized output, whatever its length;
    otherwise there is no second recognition and the result is the
    sanitized output of the first. *)
Theorem retry_decided_before_clean_up {Pix : Type} (E : Engine Pix)
    (image_data : list Byte.byte) (img : Pix) :
  Init E = 0%Z -> pixRead E image_data = Some img ->
  let final_image := preprocess E img in
  let filtered := Text.erase_remove_if Text.is_stripped
                    (or_empty (Recognize E PSM_SINGLE_BLOCK final_image)) in
  ((length filtered < 2)%nat ->
     snd (process_image_run E image_data)
       = [(PSM_SINGLE_BLOCK, final_image); (PSM_SINGLE_WORD, final_image)]
     /\ text (process_image E image_data)
        = Text.sanitize (or_empty (Recognize E PSM_SINGLE_WORD final_image)))
  /\ ((2 <= length filtered)%nat ->
     snd (process_image_run E image_data) = [(PSM_SINGLE_BLOCK, final_image)]
     /\ text (process_image E image_data)
        = Text.sanitize (or_empty (Recognize E PSM_SINGLE_BLOCK final_image))).
Proof.
  intros Hi Hr final_image filtered. unfold process_image.
  rewrite (process_image_run_decoded E image_data img Hi Hr). cbv zeta.
  fold final_image. fold filtered.
  destruct (Nat.ltb (length filtered) 2) eqn:Hlt.
  - apply Nat.ltb_lt in Hlt. split; intros H; [now split|lia].
  - apply Nat.ltb_ge in Hlt. split; intros H; [lia|now split].
Qed.

Lemma retry_decided_before_clean_up_witness :
  (snd (process_image_run Sample.nothing_then_word Sample.png)
     = [(PSM_SINGLE_BLOCK, (640, 480)%Z); (PSM_SINGLE_WORD, (640, 480)%Z)]
   /\ text (process_image Sample.nothing_then_word Sample.png) = Text.lit "at")
  /\ (snd (process_image_run Sample.one_letter Sample.png)
        = [(PSM_SINGLE_BLOCK, (640, 480)%Z)]
      /\ text (process_image Sample.one_letter Sample.png) = Text.lit "a").
Proof.
  split.
  - destruct (retry_decided_before_clean_up Sample.nothing_then_word Sample.png
                (640, 480)%Z eq_refl eq_refl) as [H _].
    apply H. vm_compute. lia.
  - destruct (retry_decided_before_clean_up Sample.one_letter Sample.png
                (640, 480)%Z eq_refl eq_refl) as [_ H].
    apply H. vm_compute. lia.
Defined.

(** C2, as stated, fails: byte 127 is an ASCII control character other
    than space and newline, and the sanitization keeps it. *)
Lemma sanitize_removes_controls_refuted :
  ~ sanitize_removes_controls ["a"; "127"; "b"].
Proof.
  intros H. change (Text.sanitize ["a"; "127"; "b"]) with ["a"; "127"; "b"] in H.
  apply List.Forall_inv_tail, List.Forall_inv in H.
  destruct H as [_ H]. destruct (H eq_refl) as [Heq|Heq]; discriminate Heq.
Qed.

(** C2, amended: the text that [process_image] returns for a decoded image
    is the sanitization of the raw output of one of its recognitions, and
    that sanitization removes every byte above 127 and every control byte
    below 32 other than newline (byte 127 is kept), removes carriage
    returns and tabs, trims leading and trailing spaces and newlines, and
    substitutes "[UNREADABLE]" when nothing is left after trimming. *)
Theorem sanitize_as_specified :
  (forall raw, Text.sanitize raw = Spec.sanitize raw)
  /\ (forall raw,
        Forall (fun c => (N_of_ascii c <= 127)%N
                         /\ ((32 <= N_of_ascii c)%N \/ c = "010")
                         /\ c <> "013" /\ c <> "009")
               (Text.sanitize raw))
  /\ (forall raw, Spec.trim_trailing (Spec.trim_leading
                    (Spec.strip_cr_tab (Spec.strip_bytes raw))) = [] ->
                  Text.sanitize raw = Text.lit "[UNREADABLE]")
  /\ (forall (Pix : Type) (E : Engine Pix) image_data img,
        Init E = 0%Z -> pixRead E image_data = Some img ->
        exists mode,
          In (mode, preprocess E img) (snd (process_image_run E image_data))
          /\ text (process_image E image_data)
             = Spec.sanitize (or_empty (Recognize E mode (preprocess E img)))).
Proof.
  split; [exact sanitize_refines|].
  split; [intros raw; rewrite sanitize_refines; apply spec_sanitize_bytes|].
  split.
  - intros raw H. rewrite sanitize_refines. unfold Spec.sanitize. now rewrite H.
  - intros Pix E image_data img Hi Hr. unfold process_image.
    rewrite (process_image_run_decoded E image_data img Hi Hr). cbv zeta.
    destruct (Nat.ltb _ 2); cbn [fst snd text].
    + exists PSM_SINGLE_WORD. split; [right; now left|apply sanitize_refines].
    + exists PSM_SINGLE_BLOCK. split; [now left|apply sanitize_refines].
Qed.

Lemma sanitize_as_specified_witness :
  Text.sanitize [" "; "010"; "009"] = Text.lit "[UNREADABLE]"
  /\ exists mode,
       In (mode, preprocess Sample.hello (640, 480)%Z)
          (snd (process_image_run Sample.hello Sample.png))
       /\ text (process_image Sample.hello Sample.png)
          = Spec.sanitize (or_empty (Recognize Sample.hello mode
                                       (preprocess Sample.hello (640, 480)%Z))).
Proof.
  destruct sanitize_as_specified as (_ & _ & Hempty & Hrun).
  split.
  - apply Hempty. reflexivity.
  - apply (Hrun Sample.bitmap Sample.hello Sample.png (640, 480)%Z);
      reflexivity.
Defined.

(** A line as the engine gives it, with a form feed and a byte above 127. *)
Example sanitize_line :
  Text.sanitize ([" "; "H"; "i"; "012"; "233"; "013"; "010"]) = ["H"; "i"].
Proof. reflexivity. Qed.

(** C4: sanitizing a sanitized text returns it unchanged. *)
Theorem sanitize_idempotent (s : Text.text) :
  Text.sanitize (Text.sanitize s) = Text.sanitize s.
Proof.
  rewrite !sanitize_refines. apply spec_sanitize_idempotent.
Qed.

(** ** The optional stages of the pipeline *)

(** C7: a stage of unsharp masking, contrast normalization or binarization
    that yields nothing leaves the image of the previous stage in place,
    and the run goes on; when binarization yields nothing, every
    recognition of the run, and the image returned with the result, is on
    the contrast-normalized image. *)
Theorem optional_stages_pass_through {Pix : Type} (E : Engine Pix) :
  (forall img, preprocess E img
     = binarize E (normalize_contrast E (sharpen E (upscale E (pixConvertTo8 E img)))))
  /\ (forall scaled, pixUnsharpMaskingGray E scaled = None -> sharpen E scaled = scaled)
  /\ (forall scaled, pixContrastNorm E scaled = None -> normalize_contrast E scaled = scaled)
  /\ (forall scaled, pixOtsuThreshOnBackgroundNorm E scaled = None -> binarize E scaled = scaled)
  /\ (forall image_data img,
        Init E = 0%Z -> pixRead E image_data = Some img ->
        let normalized :=
          normalize_contrast E (sharpen E (upscale E (pixConvertTo8 E img))) in
        pixOtsuThreshOnBackgroundNorm E normalized = None ->
        (exists rest,
            snd (process_image_run E image_data)
              = (PSM_SINGLE_BLOCK, normalized) :: rest
            /\ Forall (fun r => snd r = normalized) rest)
        /\ processed_image (process_image E image_data) = pixWrite E normalized
        /\ exists mode,
             text (process_image E image_data)
             = Text.sanitize (or_empty (Recognize E mode normalized))).
Proof.
  split; [reflexivity|].
  split; [intros scaled H; unfold sharpen; now rewrite H|].
  split; [intros scaled H; unfold normalize_contrast; now rewrite H|].
  split; [intros scaled H; unfold binarize; now rewrite H|].
  intros image_data img Hi Hr normalized Hb. unfold process_image.
  rewrite (process_image_run_decoded E image_data img Hi Hr). cbv zeta.
  assert (Hp : preprocess E img = normalized).
  { unfold preprocess. cbv zeta. fold normalized. unfold binarize. now rewrite Hb. }
  rewrite Hp.
  destruct (Nat.ltb _ 2); cbn [fst snd text processed_image].
  - split; [|split; [reflexivity|now exists PSM_SINGLE_WORD]].
    eexists. split; [reflexivity|]. now repeat constructor.
  - split; [|split; [reflexivity|now exists PSM_SINGLE_BLOCK]].
    eexists. split; [reflexivity|]. constructor.
Qed.

Lemma optional_stages_pass_through_witness :
  sharpen Sample.nothing_then_word (640, 480)%Z = (640, 480)%Z
  /\ exists rest,
       snd (process_image_run Sample.nothing_then_word Sample.png)
         = (PSM_SINGLE_BLOCK, (640, 480)%Z) :: rest
       /\ Forall (fun r => snd r = (640, 480)%Z) rest.
Proof.
  destruct (optional_stages_pass_through Sample.nothing_then_word)
    as (_ & Hsharp & _ & _ & Hrun).
  split.
  - apply Hsharp. reflexivity.
  - destruct (Hrun Sample.png (640, 480)%Z eq_refl eq_refl eq_refl) as [H _].
    exact H.
Defined.

(** ** The order of the two failure checks *)

(** C10: initialization is checked before the image is decoded.  When it
    fails the text is "[ERROR: Tesseract initialization failed]" whatever
    decoding would give, and no recognition runs; a result whose text is
    "[ERROR: Unable to open image]" comes from a run whose initialization
    succeeded. *)
Theorem init_checked_before_decode {Pix : Type} (E : Engine Pix)
    (image_data : list Byte.byte) :
  (Init E <> 0%Z ->
     text (process_image E image_data) = INIT_FAILED
     /\ snd (process_image_run E image_data) = [])
  /\ (Init E = 0%Z -> pixRead E image_data = None ->
      text (process_image E image_data) = OPEN_FAILED)
  /\ (text (process_image E image_data) = OPEN_FAILED -> Init E = 0%Z).
Proof.
  unfold process_image. repeat split.
  - now rewrite (process_image_run_init_failed E image_data H).
  - now rewrite (process_image_run_init_failed E image_data H).
  - intros Hi Hr. now rewrite (process_image_run_open_failed E image_data Hi Hr).
  - intros Ht. destruct (Z.eq_dec (Init E) 0%Z) as [Hi|Hi]; [exact Hi|].
    rewrite (process_image_run_init_failed E image_data Hi) in Ht.
    discriminate Ht.
Qed.

Lemma init_checked_before_decode_witness :
  (text (process_image Sample.no_tessdata Sample.png) = INIT_FAILED
   /\ snd (process_image_run Sample.no_tessdata Sample.png) = [])
  /\ text (process_image Sample.no_tessdata []) = INIT_FAILED
  /\ text (process_image Sample.hello []) = OPEN_FAILED
  /\ Init Sample.hello = 0%Z.
Proof.
  split; [|split; [|split]].
  - apply (init_checked_before_decode Sample.no_tessdata Sample.png).
    vm_compute. discriminate.
  - apply (init_checked_before_decode Sample.no_tessdata []).
    vm_compute. discriminate.
  - apply (init_checked_before_decode Sample.hello []); reflexivity.
  - apply (init_checked_before_decode Sample.hello []). reflexivity.
Defined.

(** ** The queue *)

Section QueueFacts.

Context {Pix : Type}.
Implicit Types (s : Server) (e : event Pix) (es : list (event Pix)).

Lemma enqueued_app (tr1 tr2 : list action) :
  enqueued (tr1 ++ tr2) = enqueued tr1 ++ enqueued tr2.
Proof. apply flat_map_app. Qed.

Lemma dequeued_app (tr1 tr2 : list action) :
  dequeued (tr1 ++ tr2) = dequeued tr1 ++ dequeued tr2.
Proof. apply flat_map_app. Qed.

Lemma processed_app (tr1 tr2 : list action) :
  processed (tr1 ++ tr2) = processed tr1 ++ processed tr2.
Proof. apply flat_map_app. Qed.

Lemma run_cons e es s :
  run (e :: es) s =
  (fst (run es (fst (step e s))), snd (step e s) ++ snd (run es (fst (step e s)))).
Proof.
  cbn [run]. destruct (step e s) as [s1 out1]. cbn [fst snd].
  now destruct (run es s1).
Qed.

(** What [worker_take] does, case by case. *)
Lemma worker_take_cases (w : nat) (p : ThreadPool) :
  (exists t rest,
      workers p !! w = Some Waiting /\ tasks p = t :: rest
      /\ worker_take w p =
         ({| workers := <[w := Processing t]> (workers p); tasks := rest;
             stop := stop p |}, Some t))
  \/ (workers p !! w = Some Waiting /\ tasks p = []
      /\ worker_take w p = (set_worker w Returned p, None))
  \/ worker_take w p = (p, None).
Proof.
  unfold worker_take.
  destruct (workers p !! w) as [[| |]|] eqn:Hw; auto.
  destruct (tasks p) as [|t rest] eqn:Ht.
  - destruct (stop p); auto.
  - left. now exists t, rest.
Qed.

(** One event: what was queued before, followed by what the event pushed,
    is what the event took followed by what is queued after. *)
Lemma step_fifo e s :
  tasks (thread_pool s) ++ enqueued (snd (step e s))
  = dequeued (snd (step e s)) ++ tasks (thread_pool (fst (step e s))).
Proof.
  destruct e as [request|w|w E|a|]; cbn [step].
  - cbn. reflexivity.
  - destruct (worker_take_cases w (thread_pool s))
      as [(t & rest & _ & Ht & ->)|[(_ & _ & ->)| ->]]; cbn.
    + now rewrite Ht, List.app_nil_r.
    + now rewrite List.app_nil_r.
    + now rewrite List.app_nil_r.
  - unfold worker_complete.
    destruct (workers (thread_pool s) !! w) as [[| |]|]; cbn;
      now rewrite List.app_nil_r.
  - unfold ProcessImage_return.
    destruct (calls s !! a) as [c|]; [destruct (Call.completed c)|]; cbn;
      now rewrite List.app_nil_r.
  - cbn. now rewrite List.app_nil_r.
Qed.

Lemma run_fifo es s :
  tasks (thread_pool s) ++ enqueued (snd (run es s))
  = dequeued (snd (run es s)) ++ tasks (thread_pool (fst (run es s))).
Proof.
  revert s. induction es as [|e es IH]; intros s.
  - cbn. now rewrite List.app_nil_r.
  - rewrite run_cons. cbn [fst snd].
    rewrite enqueued_app, dequeued_app, List.app_assoc, step_fifo.
    rewrite <- !List.app_assoc. f_equal. apply IH.
Qed.

(** One event of a pool with a single worker: the task the worker held
    before, followed by what the event took, is what the event processed
    followed by the task the worker holds after. *)
Lemma step_single e s (st : worker_state) :
  workers (thread_pool s) = [st] ->
  exists st',
    workers (thread_pool (fst (step e s))) = [st']
    /\ held st ++ dequeued (snd (step e s))
       = processed (snd (step e s)) ++ held st'.
Proof.
  intros Hw.
  destruct e as [request|w|w E|a|]; cbn [step].
  - exists st. cbn. now rewrite List.app_nil_r.
  - destruct (worker_take_cases w (thread_pool s))
      as [(t & rest & Hl & Ht & ->)|[(Hl & _ & ->)| ->]]; cbn [fst snd].
    + rewrite Hw in Hl |- *. destruct w as [|w]; [|discriminate Hl].
      injection Hl as ->. exists (Processing t). now split.
    + rewrite Hw in Hl. destruct w as [|w]; [|discriminate Hl].
      injection Hl as ->. exists Returned. cbn. now rewrite Hw.
    + exists st. cbn. now rewrite List.app_nil_r.
  - unfold worker_complete.
    destruct (workers (thread_pool s) !! w) as [[|t|]|] eqn:Hl;
      try (exists st; cbn; now rewrite List.app_nil_r).
    rewrite Hw in Hl. destruct w as [|w]; [|discriminate Hl].
    injection Hl as ->. exists Waiting. cbn. now rewrite Hw.
  - unfold ProcessImage_return.
    destruct (calls s !! a) as [c|]; [destruct (Call.completed c)|];
      exists st; cbn; now rewrite List.app_nil_r.
  - exists st. cbn. now rewrite List.app_nil_r.
Qed.

Lemma run_single es s (st : worker_state) :
  workers (thread_pool s) = [st] ->
  exists st',
    workers (thread_pool (fst (run es s))) = [st']
    /\ held st ++ dequeued (snd (run es s))
       = processed (snd (run es s)) ++ held st'.
Proof.
  revert s st. induction es as [|e es IH]; intros s st Hw.
  - exists st. cbn. now rewrite List.app_nil_r.
  - rewrite run_cons. cbn [fst snd].
    destruct (step_single e s st Hw) as (st1 & Hw1 & H1).
    destruct (IH _ st1 Hw1) as (st2 & Hw2 & H2).
    exists st2. split; [exact Hw2|].
    rewrite dequeued_app, processed_app, List.app_assoc, H1.
    rewrite <- !List.app_assoc. f_equal. exact H2.
Qed.

End QueueFacts.

(** C8: the queue is first in, first out.  [enqueue] appends at the tail,
    [worker_take] removes the head; in every schedule, for every pool size,
    the tasks taken so far followed by the tasks still queued are the tasks
    pushed, in the order they were pushed; with one worker the tasks
    processed followed by the one in hand are the tasks taken, so that three
    jobs pushed in the order J1, J2, J3 and all processed were processed in
    that order. *)
Theorem queue_is_fifo :
  (forall t p, tasks (enqueue t p) = tasks p ++ [t])
  /\ (forall w p t rest,
        workers p !! w = Some Waiting -> tasks p = t :: rest ->
        snd (worker_take w p) = Some t /\ tasks (fst (worker_take w p)) = rest)
  /\ (forall (Pix : Type) (n : nat) (es : list (event Pix)),
        enqueued (snd (run es (Server_new n)))
        = dequeued (snd (run es (Server_new n)))
          ++ tasks (thread_pool (fst (run es (Server_new n)))))
  /\ (forall (Pix : Type) (es : list (event Pix)),
        exists st,
          workers (thread_pool (fst (run es (Server_new 1)))) = [st]
          /\ dequeued (snd (run es (Server_new 1)))
             = processed (snd (run es (Server_new 1))) ++ held st)
  /\ (forall (Pix : Type) (es : list (event Pix)) (J1 J2 J3 : OCRTask.t),
        enqueued (snd (run es (Server_new 1))) = [J1; J2; J3] ->
        length (processed (snd (run es (Server_new 1)))) = 3%nat ->
        processed (snd (run es (Server_new 1))) = [J1; J2; J3]).
Proof.
  split; [reflexivity|].
  split.
  { intros w p t rest Hw Ht. unfold worker_take. rewrite Hw, Ht. now split. }
  split.
  { intros Pix n es. exact (run_fifo es (Server_new n)). }
  split.
  { intros Pix es.
    destruct (run_single es (Server_new 1) Waiting eq_refl) as (st & Hw & H).
    exists st. split; [exact Hw|exact H]. }
  intros Pix es J1 J2 J3 Henq Hlen.
  pose proof (run_fifo es (Server_new 1)) as Hq. cbn [Server_new thread_pool
    ThreadPool_new tasks List.app] in Hq.
  destruct (run_single es (Server_new 1) Waiting eq_refl) as (st & _ & Hs).
  cbn [held List.app] in Hs.
  cbn [Server_new] in Henq, Hlen |- *.
  rewrite Henq, Hs in Hq.
  destruct (processed (snd (run es _))) as [|a [|b [|c [|d l]]]];
    try discriminate Hlen.
  cbn in Hq. now injection Hq as <- <- <- _.
Qed.

Lemma queue_is_fifo_witness :
  snd (worker_take 0 {| workers := [Waiting];
                        tasks := [{| OCRTask.request := Sample.J 1;
                                     OCRTask.response := 0%nat;
                                     OCRTask.completed := 0%nat |}];
                        stop := false |})
  = Some {| OCRTask.request := Sample.J 1; OCRTask.response := 0%nat;
            OCRTask.completed := 0%nat |}
  /\ processed (snd (run Sample.three_jobs (Server_new 1)))
     = [ {| OCRTask.request := Sample.J 1; OCRTask.response := 0%nat;
            OCRTask.completed := 0%nat |};
         {| OCRTask.request := Sample.J 2; OCRTask.response := 1%nat;
            OCRTask.completed := 1%nat |};
         {| OCRTask.request := Sample.J 3; OCRTask.response := 2%nat;
            OCRTask.completed := 2%nat |} ].
Proof.
  destruct queue_is_fifo as (_ & Htake & _ & _ & Hthree).
  split.
  - eapply Htake; reflexivity.
  - apply (Hthree Sample.bitmap Sample.three_jobs); vm_compute; reflexivity.
Defined.

(** ** Calls and their answers *)

Section CallFacts.

Context {Pix : Type}.
Implicit Types (s : Server) (e : event Pix) (es : list (event Pix)).

Lemma held_replicate (n : nat) : flat_map held (replicate n Waiting) = [].
Proof. induction n as [|n IH]; [reflexivity|exact IH]. Qed.

(** Replacing the state of one worker replaces the task it holds. *)
Lemma held_insert (ws : list worker_state) (w : nat) (st st' : worker_state) :
  ws !! w = Some st ->
  exists A B,
    flat_map held ws = A ++ held st ++ B
    /\ flat_map held (<[w := st']> ws) = A ++ held st' ++ B.
Proof.
  intros H.
  exists (flat_map held (take w ws)), (flat_map held (drop (S w) ws)). split.
  - rewrite <- (take_drop_middle ws w st H) at 1.
    now rewrite flat_map_app.
  - rewrite insert_take_drop by (eapply lookup_lt_Some; exact H).
    now rewrite flat_map_app.
Qed.

Lemma consistent_new (n : nat) : consistent Pix (Server_new n).
Proof.
  split.
  - unfold pending. cbn. rewrite held_replicate. constructor.
  - unfold pending. cbn. rewrite held_replicate. intros t [].
  - intros a c H. cbn in H. rewrite lookup_empty in H. discriminate H.
Qed.

(** Consistency only looks at the pending tasks as a collection, at the
    calls and at the next address. *)
Lemma consistent_perm s s' :
  Permutation (pending s') (pending s) ->
  calls s' = calls s -> next_call s' = next_call s ->
  consistent Pix s -> consistent Pix s'.
Proof.
  intros Hp Hc Hn [H1 H2 H3]. split.
  - eapply Permutation_NoDup; [|exact H1].
    symmetry. now apply Permutation_map.
  - intros t Ht. rewrite Hc. apply H2. eapply Permutation_in; eassumption.
  - intros a c. rewrite Hc, Hn. apply H3.
Qed.

Lemma pending_lt s (t : OCRTask.t) :
  consistent Pix s -> In t (pending s) -> (OCRTask.response t < next_call s)%nat.
Proof.
  intros [_ H2 H3] Ht.
  destruct (H2 t Ht) as (_ & c & Hc & _).
  now destruct (H3 _ _ Hc).
Qed.

Lemma submit_consistent (request : ImageRequest.t) s :
  consistent Pix s -> consistent Pix (fst (ProcessImage_submit request s)).
Proof.
  intros Hs. pose proof Hs as [H1 H2 H3].
  set (t := {| OCRTask.request := request; OCRTask.response := next_call s;
               OCRTask.completed := next_call s |}).
  assert (Hp : Permutation (pending (fst (ProcessImage_submit request s)))
                           (t :: pending s)).
  { unfold pending. cbn. fold t. rewrite <- List.app_assoc.
    symmetry. apply Permutation_middle. }
  assert (Hfresh : forall t', In t' (pending s) -> OCRTask.response t' <> next_call s).
  { intros t' Ht'. pose proof (pending_lt s t' Hs Ht'). lia. }
  split.
  - eapply Permutation_NoDup; [symmetry; apply Permutation_map, Hp|].
    cbn. constructor; [|exact H1].
    intros Hin. apply in_map_iff in Hin as (t' & Heq & Ht').
    now apply (Hfresh t' Ht').
  - intros t' Ht'. apply (Permutation_in _ Hp) in Ht' as [<-|Ht'].
    + split; [reflexivity|]. cbn. rewrite lookup_insert_eq.
      eexists. split; [reflexivity|]. now split.
    + cbn. rewrite lookup_insert_ne by (symmetry; now apply Hfresh).
      now apply H2.
  - intros a c. cbn. destruct (decide (next_call s = a)) as [<-|Hne].
    + rewrite lookup_insert_eq. intros [= <-]. cbn. split; [lia|discriminate].
    + rewrite lookup_insert_ne by exact Hne. intros Hc.
      destruct (H3 a c Hc) as [Hlt Hans]. split; [lia|exact Hans].
Qed.

Lemma take_consistent (w : nat) s :
  consistent Pix s -> consistent Pix (fst (step (Take (Pix:=Pix) w) s)).
Proof.
  intros Hs. cbn [step].
  destruct (worker_take_cases w (thread_pool s))
    as [(t & rest & Hl & Ht & ->)|[(Hl & _ & ->)| ->]]; cbn [fst];
    apply (consistent_perm s); try reflexivity; try exact Hs; unfold pending; cbn.
  - destruct (held_insert _ w _ (Processing t) Hl) as (A & B & -> & ->).
    rewrite Ht. cbn. rewrite !List.app_assoc. symmetry.
    apply (Permutation_middle (rest ++ A) B t).
  - destruct (held_insert _ w _ Returned Hl) as (A & B & -> & ->).
    reflexivity.
Qed.

Lemma complete_consistent (w : nat) (E : Engine Pix) s :
  consistent Pix s -> consistent Pix (fst (worker_complete w E s)).
Proof.
  intros Hs. unfold worker_complete.
  destruct (workers (thread_pool s) !! w) as [[|t|]|] eqn:Hl; try exact Hs.
  cbn [fst]. pose proof Hs as [H1 H2 H3].
  destruct (held_insert _ w _ Waiting Hl) as (A & B & HA & HB).
  assert (Hpend : pending s = (tasks (thread_pool s) ++ A) ++ t :: B).
  { unfold pending. rewrite HA. cbn. now rewrite List.app_assoc. }
  set (s' := {| thread_pool := set_worker w Waiting (thread_pool s);
                calls := _; next_call := next_call s |}).
  assert (Hpend' : pending s' = (tasks (thread_pool s) ++ A) ++ B).
  { unfold pending, s'. cbn. rewrite HB. cbn. now rewrite List.app_assoc. }
  assert (Hsub : forall t', In t' (pending s') -> In t' (pending s)).
  { intros t'. rewrite Hpend, Hpend', !in_app_iff. cbn. tauto. }
  rewrite Hpend, map_app in H1. cbn [map] in H1.
  apply List.NoDup_remove in H1 as [Hnd Hnotin]. rewrite <- map_app, <- Hpend' in Hnd, Hnotin.
  assert (Ht : In t (pending s)).
  { rewrite Hpend, in_app_iff. right. now left. }
  destruct (H2 t Ht) as (Hptr & c & Hc & Hreq & Hflag).
  assert (Hother : forall a, a <> OCRTask.response t -> calls s' !! a = calls s !! a).
  { intros a Ha. unfold s'. cbn. rewrite Hptr.
    rewrite !lookup_alter_ne by (symmetry; exact Ha). reflexivity. }
  split.
  - exact Hnd.
  - intros t' Ht'.
    assert (Hne : OCRTask.response t' <> OCRTask.response t).
    { intros Heq. apply Hnotin. rewrite <- Heq. now apply in_map. }
    rewrite (Hother _ Hne). apply H2, Hsub, Ht'.
  - intros a c'. destruct (decide (a = OCRTask.response t)) as [->|Hne].
    + unfold s'. cbn. rewrite Hptr, !lookup_alter_eq, Hc. cbn.
      intros [= <-]. split; [now destruct (H3 _ _ Hc)|]. intros _. cbn.
      exists E, t, (Call.response c). rewrite Hreq. now split.
    + rewrite (Hother _ Hne). apply H3.
Qed.

Lemma return_consistent (a : nat) s :
  consistent Pix s ->
  consistent Pix (fst (ProcessImage_return a s))
  /\ Forall (reply_ok Pix) (snd (ProcessImage_return a s)).
Proof.
  intros Hs. unfold ProcessImage_return.
  destruct (calls s !! a) as [c|] eqn:Hc; [|now split].
  destruct (Call.completed c) eqn:Hflag; [|now split].
  cbn [fst snd]. pose proof Hs as [H1 H2 H3]. split.
  - split.
    + exact H1.
    + intros t Ht. destruct (H2 t Ht) as (Hptr & c' & Hc' & Hreq & Hflag').
      split; [exact Hptr|]. exists c'. cbn.
      rewrite lookup_delete_ne; [now repeat split|].
      intros Heq. rewrite Heq, Hc' in Hc. injection Hc as <-. congruence.
    + intros a' c'. cbn. intros Hl.
      apply lookup_delete_Some in Hl as [_ Hl]. now apply H3.
  - constructor; [|constructor]. cbn. split; [reflexivity|].
    now apply (H3 a c Hc).
Qed.

Lemma step_consistent e s :
  consistent Pix s ->
  consistent Pix (fst (step e s)) /\ Forall (reply_ok Pix) (snd (step e s)).
Proof.
  intros Hs. destruct e as [request|w|w E|a|].
  - split; [now apply submit_consistent|]. cbn. now repeat constructor.
  - split; [now apply take_consistent|]. cbn [step].
    destruct (worker_take w (thread_pool s)) as [p [t|]]; cbn; now repeat constructor.
  - split; [now apply complete_consistent|]. cbn [step]. unfold worker_complete.
    destruct (workers (thread_pool s) !! w) as [[| |]|]; cbn; now repeat constructor.
  - now apply return_consistent.
  - split; [|constructor]. now apply (consistent_perm s).
Qed.

Lemma run_consistent es s :
  consistent Pix s ->
  consistent Pix (fst (run es s)) /\ Forall (reply_ok Pix) (snd (run es s)).
Proof.
  revert s. induction es as [|e es IH]; intros s Hs.
  - split; [exact Hs|constructor].
  - rewrite run_cons. cbn [fst snd].
    destruct (step_consistent e s Hs) as [Hs1 Hout1].
    destruct (IH _ Hs1) as [Hs2 Hout2].
    split; [exact Hs2|]. apply Forall_app. now split.
Qed.

(** Every reply of every schedule of a new server is an [OK] carrying the
    answer to its own request. *)
Lemma replies_answered (n : nat) es
    (request : ImageRequest.t) (response : OCRResponse.t) (status : Status) :
  In (Replied request response status) (snd (run es (Server_new n))) ->
  status = Status_OK /\ answered Pix request response.
Proof.
  intros Hin.
  destruct (run_consistent es (Server_new n) (consistent_new n)) as [_ Hall].
  rewrite List.Forall_forall in Hall. exact (Hall _ Hin).
Qed.

End CallFacts.

(** ** Results as the caller sees them *)

(** C3: the text of a result is never empty.  It is one of the sentinels
    "[ERROR: Tesseract initialization failed]",
    "[ERROR: Unable to open image]" and "[UNREADABLE]", or the non-empty
    filtered and trimmed output of a recognition; and the response of
    every reply, in every schedule, has a non-empty text. *)
Theorem text_never_empty :
  (forall (Pix : Type) (E : Engine Pix) (image_data : list Byte.byte),
     text (process_image E image_data) <> []
     /\ (text (process_image E image_data) = INIT_FAILED
         \/ text (process_image E image_data) = OPEN_FAILED
         \/ text (process_image E image_data) = Text.UNREADABLE
         \/ exists mode img,
              pixRead E image_data = Some img
              /\ text (process_image E image_data)
                 = Spec.trim_trailing (Spec.trim_leading (Spec.strip_cr_tab
                     (Spec.strip_bytes
                        (or_empty (Recognize E mode (preprocess E img))))))))
  /\ (forall (Pix : Type) (n : nat) (es : list (event Pix)) request response status,
        In (Replied request response status) (snd (run es (Server_new n))) ->
        OCRResponse.extracted_text response <> []).
Proof.
  split.
  - intros Pix E image_data. split; [apply process_image_text_nonempty|].
    destruct (process_image_text E image_data) as [H|[H|(mode & img & Hr & H)]];
      [now left|right; now left|].
    right. right. rewrite H, sanitize_refines. unfold Spec.sanitize.
    destruct (Spec.trim_trailing _) as [|c r] eqn:Ht.
    + now left.
    + right. exists mode, img. split; [exact Hr|]. now rewrite Ht.
  - intros Pix n es request response status Hin.
    destruct (replies_answered n es _ _ _ Hin) as (_ & E & t & r0 & _ & ->).
    cbn. apply process_image_text_nonempty.
Qed.

Lemma text_never_empty_witness :
  OCRResponse.extracted_text (Sample.reply 1) <> [].
Proof.
  destruct text_never_empty as [_ H].
  apply (H Sample.bitmap 1%nat Sample.three_jobs (Sample.J 1) (Sample.reply 1) Status_OK).
  vm_compute. repeat (first [left; reflexivity | right]).
Defined.

(** C6, as stated, fails: when initialization fails, bytes that do not
    decode give "[ERROR: Tesseract initialization failed]", not
    "[ERROR: Unable to open image]". *)
Lemma undecodable_gives_open_failed_refuted :
  ~ undecodable_gives_open_failed Sample.no_tessdata [].
Proof.
  intros H. specialize (H eq_refl). vm_compute in H. discriminate H.
Qed.

(** C6, amended: no job is answered with an error status.  The worker
    that holds a task always writes the response of its call, with the
    success flag set, and sets the flag of the call; every reply carries
    [Status::OK], a set success flag and the text of its own run; a failure
    shows only in that text: "[ERROR: Tesseract initialization failed]"
    when initialization fails, and exactly "[ERROR: Unable to open image]"
    when initialization succeeds and the bytes do not decode. *)
Theorem failures_reported_as_text :
  (forall (Pix : Type) (s : Server) (w : nat) (E : Engine Pix) task c,
     workers (thread_pool s) !! w = Some (Processing task) ->
     OCRTask.completed task = OCRTask.response task ->
     calls s !! OCRTask.response task = Some c ->
     exists c',
       calls (fst (worker_complete w E s)) !! OCRTask.response task = Some c'
       /\ Call.completed c' = true
       /\ OCRResponse.success (Call.response c') = true
       /\ OCRResponse.extracted_text (Call.response c')
          = text (process_image E (ImageRequest.image_data (OCRTask.request task))))
  /\ (forall (Pix : Type) (n : nat) (es : list (event Pix)) request response status,
        In (Replied request response status) (snd (run es (Server_new n))) ->
        status = Status_OK
        /\ OCRResponse.success response = true
        /\ exists E : Engine Pix,
             OCRResponse.extracted_text response
             = text (process_image E (ImageRequest.image_data request)))
  /\ (forall (Pix : Type) (E : Engine Pix) (image_data : list Byte.byte),
        (Init E <> 0%Z -> text (process_image E image_data) = INIT_FAILED)
        /\ (Init E = 0%Z -> pixRead E image_data = None ->
            text (process_image E image_data) = OPEN_FAILED)).
Proof.
  split; [|split].
  - intros Pix s w E task c Hw Hptr Hc. unfold worker_complete.
    rewrite Hw. cbn [fst calls]. rewrite Hptr, !lookup_alter_eq, Hc. cbn.
    eexists. split; [reflexivity|]. now repeat split.
  - intros Pix n es request response status Hin.
    destruct (replies_answered n es _ _ _ Hin) as (-> & E & t & r0 & _ & ->).
    split; [reflexivity|]. split; [reflexivity|]. now exists E.
  - intros Pix E image_data. unfold process_image. split.
    + intros Hi. now rewrite (process_image_run_init_failed E image_data Hi).
    + intros Hi Hr. now rewrite (process_image_run_open_failed E image_data Hi Hr).
Qed.

Lemma failures_reported_as_text_witness :
  (exists c',
      calls (fst (worker_complete 0 Sample.no_tessdata Sample.in_hand)) !! 0%nat = Some c'
      /\ Call.completed c' = true
      /\ OCRResponse.success (Call.response c') = true
      /\ OCRResponse.extracted_text (Call.response c')
         = text (process_image Sample.no_tessdata Sample.png))
  /\ OCRResponse.success (Sample.reply 2) = true
  /\ text (process_image Sample.no_tessdata []) = INIT_FAILED
  /\ text (process_image Sample.hello []) = OPEN_FAILED.
Proof.
  destruct failures_reported_as_text as (Hworker & Hreply & Htext).
  split; [|split; [|split]].
  - apply (Hworker Sample.bitmap Sample.in_hand 0%nat Sample.no_tessdata
             (Sample.task 1 0)
             {| Call.request := Sample.J 1; Call.response := OCRResponse.default;
                Call.completed := false |}); reflexivity.
  - apply (Hreply Sample.bitmap 1%nat Sample.three_jobs (Sample.J 2)
             (Sample.reply 2) Status_OK).
    vm_compute. repeat (first [left; reflexivity | right]).
  - apply (Htext Sample.bitmap Sample.no_tessdata []). vm_compute. discriminate.
  - apply (Htext Sample.bitmap Sample.hello []); reflexivity.
Defined.

(** C9: what the worker writes carries the identifiers of the request of
    its task, and in every schedule, for every pool size, each reply
    carries the image id and the file name of the request of the call it
    answers, with the text and the processed image of a run on the image
    data of that same request. *)
Theorem replies_carry_own_identifiers :
  (forall task result r,
     OCRResponse.image_id (fill_response task result r)
       = ImageRequest.image_id (OCRTask.request task)
     /\ OCRResponse.filename (fill_response task result r)
       = ImageRequest.filename (OCRTask.request task))
  /\ (forall (Pix : Type) (n : nat) (es : list (event Pix)) request response status,
        In (Replied request response status) (snd (run es (Server_new n))) ->
        OCRResponse.image_id response = ImageRequest.image_id request
        /\ OCRResponse.filename response = ImageRequest.filename request
        /\ exists E : Engine Pix,
             OCRResponse.extracted_text response
               = text (process_image E (ImageRequest.image_data request))
             /\ OCRResponse.processed_image response
               = processed_image (process_image E (ImageRequest.image_data request))).
Proof.
  split; [now split|].
  intros Pix n es request response status Hin.
  destruct (replies_answered n es _ _ _ Hin) as (_ & E & t & r0 & <- & ->).
  split; [reflexivity|]. split; [reflexivity|]. now exists E.
Qed.

Lemma replies_carry_own_identifiers_witness :
  OCRResponse.image_id (Sample.reply 3) = 3%Z
  /\ OCRResponse.filename (Sample.reply 3) = Text.lit "scan.png".
Proof.
  destruct replies_carry_own_identifiers as [_ H].
  destruct (H Sample.bitmap 1%nat Sample.three_jobs (Sample.J 3)
              (Sample.reply 3) Status_OK) as (Hid & Hname & _).
  - vm_compute. repeat (first [left; reflexivity | right]).
  - split; [exact Hid|exact Hname].
Defined.

(** ** The guard of the upscaling stage *)

Section UpscaleFacts.

Context {Pix : Type}.

(** An image of at least 500 x 250 is passed on as it is. *)
Lemma upscale_large (E : Engine Pix) (gray : Pix) :
  (500 <= pixGetWidth E gray)%Z -> (250 <= pixGetHeight E gray)%Z ->
  upscale E gray = gray.
Proof.
  intros Hw Hh. unfold upscale. cbv zeta.
  apply Z.ltb_ge in Hw, Hh. now rewrite Hw, Hh.
Qed.

(** A smaller image is scaled once, by one factor for both axes. *)
Lemma upscale_small (E : Engine Pix) (gray : Pix) :
  (pixGetWidth E gray < 500)%Z \/ (pixGetHeight E gray < 250)%Z ->
  let scale :=
    Float32.max
      (Float32.div (Float32.of_int 500) (Float32.of_int (pixGetWidth E gray)))
      (Float32.div (Float32.of_int 250) (Float32.of_int (pixGetHeight E gray))) in
  upscale E gray = pixScale E gray scale scale.
Proof.
  intros H. unfold upscale. cbv zeta.
  destruct H as [H|H]; apply Z.ltb_lt in H; rewrite H;
    [reflexivity|now rewrite orb_true_r].
Qed.

(** For a 100 x 100 image the factor is 5, the larger of 5 and 2.5. *)
Example scale_100_100 :
  Float32.max (Float32.div (Float32.of_int 500) (Float32.of_int 100))
              (Float32.div (Float32.of_int 250) (Float32.of_int 100))
  = Float32.of_int 5.
Proof. vm_compute. reflexivity. Qed.

End UpscaleFacts.

(** ** The sizes after upscaling, lines 84-92 *)

Section SinglePrecision.

Local Open Scope Z_scope.

(** *** Rounding to single precision

    The number of binary digits of a mantissa. *)
Lemma digits2_pos_bounds (p : positive) :
  2 ^ (Z.pos (digits2_pos p) - 1) <= Z.pos p < 2 ^ Z.pos (digits2_pos p).
Proof.
  induction p as [p IH|p IH|]; cbn [digits2_pos].
  - rewrite Pos2Z.inj_succ, (Pos2Z.inj_xI p).
    replace (Z.succ (Z.pos (digits2_pos p)) - 1) with (Z.succ (Z.pos (digits2_pos p) - 1)) by lia.
    rewrite !Z.pow_succ_r by lia. hide_pow. lia.
  - rewrite Pos2Z.inj_succ, (Pos2Z.inj_xO p).
    replace (Z.succ (Z.pos (digits2_pos p)) - 1) with (Z.succ (Z.pos (digits2_pos p) - 1)) by lia.
    rewrite !Z.pow_succ_r by lia. hide_pow. lia.
  - cbn. lia.
Qed.

Lemma digits2_unique (p : positive) (k : Z) :
  2 ^ (k - 1) <= Z.pos p < 2 ^ k -> Z.pos (digits2_pos p) = k.
Proof.
  intros [Hlo Hhi]. pose proof (digits2_pos_bounds p) as [Dlo Dhi].
  assert (Hk : 0 <= k).
  { destruct (Z.lt_ge_cases k 0) as [Hneg|]; [|assumption].
    rewrite Z.pow_neg_r in Hhi by assumption. lia. }
  destruct (Z.lt_trichotomy (Z.pos (digits2_pos p)) k) as [Hlt|[Heq|Hgt]]; [|exact Heq|].
  - assert (2 ^ Z.pos (digits2_pos p) <= 2 ^ (k - 1)) by (apply Z.pow_le_mono_r; lia). lia.
  - assert (2 ^ k <= 2 ^ (Z.pos (digits2_pos p) - 1)) by (apply Z.pow_le_mono_r; lia). lia.
Qed.

(** Shifting a mantissa right divides it by a power of two. *)
Lemma shr_1_m (mrs : shr_record) :
  0 <= shr_m mrs -> shr_m (shr_1 mrs) = shr_m mrs / 2.
Proof.
  destruct mrs as [m r s]. cbn [shr_m]. intros Hm.
  destruct m as [|[p|p|]|p]; cbn [shr_1 shr_m].
  - reflexivity.
  - rewrite (Pos2Z.inj_xI p). apply Z.div_unique with 1; lia.
  - rewrite (Pos2Z.inj_xO p). apply Z.div_unique with 0; lia.
  - reflexivity.
  - lia.
Qed.

Lemma shr_iter (p : positive) (mrs : shr_record) :
  0 <= shr_m mrs ->
  shr_m (SpecFloat.iter_pos shr_1 p mrs) = shr_m mrs / 2 ^ Z.pos p.
Proof.
  revert mrs. induction p as [p IH|p IH|]; intros mrs Hm; cbn [SpecFloat.iter_pos].
  - assert (H1 : 0 <= shr_m (shr_1 mrs)) by (rewrite shr_1_m by assumption; apply Z.div_pos; lia).
    assert (H2 : 0 <= shr_m (SpecFloat.iter_pos shr_1 p (shr_1 mrs)))
      by (rewrite IH by assumption; apply Z.div_pos; [assumption|apply Z.pow_pos_nonneg; lia]).
    rewrite IH, IH, shr_1_m by assumption.
    rewrite !Z.div_div by (try apply Z.pow_pos_nonneg; lia).
    f_equal. rewrite (Pos2Z.inj_xI p).
    replace (2 * Z.pos p + 1) with (1 + Z.pos p + Z.pos p) by lia.
    rewrite !Z.pow_add_r by lia. lia.
  - assert (H2 : 0 <= shr_m (SpecFloat.iter_pos shr_1 p mrs))
      by (rewrite IH by assumption; apply Z.div_pos; [assumption|apply Z.pow_pos_nonneg; lia]).
    rewrite IH, IH by assumption.
    rewrite !Z.div_div by (try apply Z.pow_pos_nonneg; try (apply Z.pow_nonzero; lia); lia).
    f_equal. rewrite (Pos2Z.inj_xO p).
    replace (2 * Z.pos p) with (Z.pos p + Z.pos p) by lia.
    rewrite !Z.pow_add_r by lia. lia.
  - now rewrite shr_1_m.
Qed.

Lemma shr_record_of_loc_m (m : Z) (l : location) : shr_m (shr_record_of_loc m l) = m.
Proof. destruct l as [|[| |]]; reflexivity. Qed.

Lemma round_nearest_even_bounds (m : Z) (l : location) :
  m <= round_nearest_even m l <= m + 1.
Proof.
  unfold round_nearest_even. destruct l as [|[| |]]; try lia.
  destruct (Z.even m); lia.
Qed.

Lemma fexp_normal (e : Z) : -125 <= e -> fexp 24 128 e = e - 24.
Proof. unfold fexp, emin. lia. Qed.

(** Rounding a mantissa of at least 24 digits: what is left after the
    shift, and the exponent. *)
Lemma shr_fexp_normal (p : positive) (e : Z) (l : location) :
  24 <= Z.pos (digits2_pos p) -> -125 <= Z.pos (digits2_pos p) + e ->
  shr_m (fst (shr_fexp 24 128 (Z.pos p) e l)) = Z.pos p / 2 ^ (Z.pos (digits2_pos p) - 24)
  /\ snd (shr_fexp 24 128 (Z.pos p) e l) = e + (Z.pos (digits2_pos p) - 24).
Proof.
  intros Hd He. unfold shr_fexp. cbn [Zdigits2]. rewrite fexp_normal by assumption.
  replace (Z.pos (digits2_pos p) + e - 24 - e) with (Z.pos (digits2_pos p) - 24) by lia.
  destruct (Z.pos (digits2_pos p) - 24) as [|n|n] eqn:Hn; [| |lia].
  - cbn [shr fst snd]. rewrite shr_record_of_loc_m, Z.div_1_r. split; lia.
  - cbn [shr fst snd]. rewrite shr_iter, shr_record_of_loc_m; [split; reflexivity|].
    rewrite shr_record_of_loc_m. lia.
Qed.


(** Rounding a mantissa of 24 to 60 digits gives a normal number: the
    mantissa that the shift leaves, or the next one, which may be the
    first of the next binade. *)
Lemma binary_round_aux_core (sx : bool) (p : positive) (e : Z) (l : location) :
  2 ^ 23 <= Z.pos p -> Z.pos (digits2_pos p) <= 60 -> -100 <= e <= 40 ->
  exists m' e',
    binary_round_aux 24 128 sx (Z.pos p) e l = S754_finite sx m' e'
    /\ 2 ^ 23 <= Z.pos m' < 2 ^ 24
    /\ 24 <= Z.pos (digits2_pos p)
    /\ 2 ^ 23 <= Z.pos p / 2 ^ (Z.pos (digits2_pos p) - 24)
    /\ ((e' = e + (Z.pos (digits2_pos p) - 24)
         /\ Z.pos p / 2 ^ (Z.pos (digits2_pos p) - 24) <= Z.pos m'
            <= Z.pos p / 2 ^ (Z.pos (digits2_pos p) - 24) + 1)
        \/ (e' = e + (Z.pos (digits2_pos p) - 24) + 1
            /\ Z.pos m' = 2 ^ 23
            /\ Z.pos p / 2 ^ (Z.pos (digits2_pos p) - 24) + 1 = 2 ^ 24)).
Proof.
  intros Hp Hd60 He.
  pose proof (digits2_pos_bounds p) as [Dlo Dhi].
  set (d := Z.pos (digits2_pos p)) in *.
  assert (Hd : 24 <= d).
  { destruct (Z.lt_ge_cases d 24) as [Hlt|]; [|assumption].
    assert (2 ^ d <= 2 ^ 23) by (apply Z.pow_le_mono_r; lia). lia. }
  destruct (shr_fexp_normal p e l Hd ltac:(fold d; lia)) as [Hm1 He1]. fold d in Hm1, He1.
  unfold binary_round_aux.
  destruct (shr_fexp 24 128 (Z.pos p) e l) as [mrs1 e1]. cbn [fst snd] in Hm1, He1.
  assert (Hm1b : 2 ^ 23 <= shr_m mrs1 < 2 ^ 24).
  { rewrite Hm1.
    assert (Hpow : 0 < 2 ^ (d - 24)) by (apply Z.pow_pos_nonneg; lia).
    assert (H1 : 2 ^ (d - 1) = 2 ^ (d - 24) * 2 ^ 23)
      by (rewrite <- Z.pow_add_r by lia; f_equal; lia).
    assert (H2 : 2 ^ d = 2 ^ (d - 24) * 2 ^ 24)
      by (rewrite <- Z.pow_add_r by lia; f_equal; lia).
    split.
    - apply Z.div_le_lower_bound; [exact Hpow|]. rewrite <- H1. exact Dlo.
    - apply Z.div_lt_upper_bound; [exact Hpow|]. rewrite <- H2. exact Dhi. }
  pose proof (round_nearest_even_bounds (shr_m mrs1) (loc_of_shr_record mrs1)) as Hr.
  set (m2 := round_nearest_even (shr_m mrs1) (loc_of_shr_record mrs1)) in *.
  assert (Hm2 : 2 ^ 23 <= m2 <= 2 ^ 24) by lia.
  destruct m2 as [|p2|p2] eqn:Ep2; [cbn in Hm2; lia| |cbn in Hm2; lia].
  assert (Hd2 : Z.pos (digits2_pos p2) = 24 \/ (Z.pos (digits2_pos p2) = 25 /\ Z.pos p2 = 2 ^ 24)).
  { destruct (Z.eq_dec (Z.pos p2) (2 ^ 24)) as [Heq|Hne].
    - right. split; [|exact Heq]. apply digits2_unique. rewrite Heq. cbn. lia.
    - left. apply digits2_unique. cbn in *. lia. }
  assert (Hd2' : 24 <= Z.pos (digits2_pos p2)) by (destruct Hd2 as [->|[-> _]]; lia).
  destruct (shr_fexp_normal p2 e1 loc_Exact Hd2' ltac:(lia)) as [Hm3 He3].
  destruct (shr_fexp 24 128 (Z.pos p2) e1 loc_Exact) as [mrs2 e2]. cbn [fst snd] in Hm3, He3.
  assert (Hm3b : (shr_m mrs2 = Z.pos p2 /\ Z.pos p2 < 2 ^ 24 /\ e2 = e1)
                 \/ (shr_m mrs2 = 2 ^ 23 /\ Z.pos p2 = 2 ^ 24 /\ e2 = e1 + 1)).
  { destruct Hd2 as [H24|[H25 Heq]].
    - left. pose proof (digits2_pos_bounds p2) as [_ Hhi]. rewrite H24 in Hhi.
      rewrite H24 in Hm3, He3. rewrite Z.sub_diag, Z.div_1_r in Hm3.
      rewrite Hm3. lia.
    - right. rewrite H25 in Hm3, He3. rewrite Heq in Hm3.
      change (2 ^ 24 / 2 ^ (25 - 24)) with (2 ^ 23) in Hm3. rewrite Hm3. lia. }
  assert (Hm3c : 2 ^ 23 <= shr_m mrs2 < 2 ^ 24 /\ e1 <= e2 <= e1 + 1).
  { change (2 ^ 23) with 8388608 in *. change (2 ^ 24) with 16777216 in *.
    destruct Hm3b as [(-> & ? & ->)|(-> & ? & ->)]; lia. }
  destruct (shr_m mrs2) as [|m'|m'] eqn:Em; [cbn in Hm3c; lia| |cbn in Hm3c; lia].
  assert (Hle : (e2 <=? 128 - 24) = true) by (apply Z.leb_le; lia).
  rewrite Hle. exists m', e2. split; [reflexivity|]. split; [tauto|].
  split; [exact Hd|]. rewrite <- Hm1. split; [tauto|].
  destruct Hm3b as [(Ha & Hb & Hc)|(Ha & Hb & Hc)]; [left|right]; lia.
Qed.

Lemma binary_round_aux_normal (sx : bool) (p : positive) (e : Z) (l : location) :
  2 ^ 23 <= Z.pos p -> Z.pos (digits2_pos p) <= 60 -> -100 <= e <= 40 ->
  exists m' e',
    binary_round_aux 24 128 sx (Z.pos p) e l = S754_finite sx m' e'
    /\ 2 ^ 23 <= Z.pos m' < 2 ^ 24
    /\ Z.pos (digits2_pos p) - 24 + e <= e' <= Z.pos (digits2_pos p) - 24 + e + 1.
Proof.
  intros Hp Hd He.
  destruct (binary_round_aux_core sx p e l Hp Hd He) as (m & e' & Heq & Hm & _ & _ & Hc).
  exists m, e'. split; [exact Heq|]. split; [exact Hm|]. destruct Hc as [[-> _]|[-> _]]; lia.
Qed.

(** Rounding an exact value [p * 2 ^ e]: the result is within a 2^-23
    fraction of the value, and not below any float below the value. *)
Lemma round_exact (p : positive) (e K : Z) :
  2 ^ 23 <= Z.pos p -> Z.pos (digits2_pos p) <= 60 -> -100 <= e <= 40 -> 100 <= K ->
  exists x,
    binary_round_aux 24 128 false (Z.pos p) e loc_Exact = x
    /\ normal32 x (Z.pos (digits2_pos p) - 24 + e) (Z.pos (digits2_pos p) - 24 + e + 1)
    /\ 2 ^ 23 * Z.abs (value_at K x - Z.pos p * 2 ^ (e + K)) <= Z.pos p * 2 ^ (e + K)
    /\ forall j t, 0 < j <= 2 ^ 24 -> - K <= t ->
         j * 2 ^ (t + K) <= Z.pos p * 2 ^ (e + K) -> j * 2 ^ (t + K) <= value_at K x.
Proof.
  intros Hp Hd He HK.
  destruct (binary_round_aux_core false p e loc_Exact Hp Hd He)
    as (m & e' & Heq & Hm & Hd24 & Hm1 & Hc).
  exists (S754_finite false m e'). split; [exact Heq|].
  set (k := Z.pos (digits2_pos p) - 24) in *.
  set (m1 := Z.pos p / 2 ^ k) in *.
  assert (Hk : 0 <= k) by (unfold k; lia).
  assert (Hpk : 0 < 2 ^ k) by (apply Z.pow_pos_nonneg; lia).
  assert (Hdiv : m1 * 2 ^ k <= Z.pos p < (m1 + 1) * 2 ^ k).
  { unfold m1. pose proof (Z.div_mod (Z.pos p) (2 ^ k) ltac:(lia)) as Hdm.
    pose proof (Z.mod_pos_bound (Z.pos p) (2 ^ k) Hpk). nia. }
  set (G := 2 ^ (e + k + K)).
  assert (HG : 0 < G) by (apply Z.pow_pos_nonneg; lia).
  assert (HV : Z.pos p * 2 ^ (e + K) = Z.pos p * 2 ^ (e + K)) by reflexivity.
  assert (HGk : 2 ^ k * 2 ^ (e + K) = G)
    by (unfold G; rewrite <- Z.pow_add_r by lia; f_equal; lia).
  assert (HE : 0 < 2 ^ (e + K)) by (apply Z.pow_pos_nonneg; lia).
  assert (Hlo : m1 * G <= Z.pos p * 2 ^ (e + K) < (m1 + 1) * G).
  { rewrite <- HGk. split.
    - rewrite Z.mul_assoc. apply Z.mul_le_mono_nonneg_r; lia.
    - rewrite Z.mul_assoc. apply Z.mul_lt_mono_pos_r; lia. }
  assert (Hval : m1 * G <= Z.pos m * 2 ^ (e' + K) <= (m1 + 1) * G).
  { destruct Hc as [[-> Hmm]|(-> & Hm23 & Hm24)].
    - replace (e + k + K) with (e + k + K) by reflexivity. fold G.
      replace (2 ^ (e + k + K)) with G by reflexivity.
      split; apply Z.mul_le_mono_nonneg_r; lia.
    - replace (e + k + 1 + K) with (1 + (e + k + K)) by lia.
      rewrite Z.pow_add_r by lia. fold G. rewrite Hm23.
      change (2 ^ 1) with 2. replace (2 ^ 23 * (2 * G)) with (2 ^ 24 * G) by (change (2 ^ 24) with (2 * 2 ^ 23); lia).
      rewrite <- Hm24. lia. }
  split; [|split].
  - exists m, e'. split; [reflexivity|]. split; [exact Hm|].
    fold k. destruct Hc as [[-> _]|[-> _]]; lia.
  - cbn [value_at].
    assert (H23 : 2 ^ 23 * G <= m1 * G) by (apply Z.mul_le_mono_nonneg_r; lia).
    change (2 ^ 23) with 8388608 in *. lia.
  - intros j t Hj Ht Hle. cbn [value_at].
    apply Z.le_trans with (m1 * G); [|tauto].
    destruct (Z.le_gt_cases (e + k) t) as [Hcase|Hcase].
    + (* the float is a multiple of the grid *)
      replace (t + K) with ((t - (e + k)) + (e + k + K)) in * by lia.
      rewrite Z.pow_add_r in * by lia. fold G in Hle |- *.
      rewrite Z.mul_assoc in *. apply Z.mul_le_mono_nonneg_r; [lia|].
      assert (Hlt : j * 2 ^ (t - (e + k)) * G < (m1 + 1) * G) by lia.
      apply Z.mul_lt_mono_pos_r in Hlt; lia.
    + (* the float is below the binade of the value *)
      apply Z.le_trans with (2 ^ 24 * 2 ^ (t + K)).
      * apply Z.mul_le_mono_nonneg_r; [apply Z.pow_nonneg|]; lia.
      * apply Z.le_trans with (2 ^ 23 * G); [|apply Z.mul_le_mono_nonneg_r; lia].
        unfold G. replace (e + k + K) with ((e + k - t - 1) + (1 + (t + K))) by lia.
        rewrite (Z.pow_add_r 2 (e + k - t - 1)) by lia.
        rewrite (Z.pow_add_r 2 1) by lia.
        assert (1 <= 2 ^ (e + k - t - 1)) by (apply Z.lt_pred_le, Z.pow_pos_nonneg; lia).
        assert (0 < 2 ^ (t + K)) by (apply Z.pow_pos_nonneg; lia).
        change (2 ^ 24) with 16777216. change (2 ^ 23) with 8388608. change (2 ^ 1) with 2.
        nia.
Qed.

Lemma digits2_le (p : positive) (k : Z) :
  Z.pos p < 2 ^ k -> Z.pos (digits2_pos p) <= k.
Proof.
  intros Hp. pose proof (digits2_pos_bounds p) as [Dlo _].
  destruct (Z.le_gt_cases (Z.pos (digits2_pos p)) k) as [|Hgt]; [assumption|].
  assert (2 ^ k <= 2 ^ (Z.pos (digits2_pos p) - 1)) by (apply Z.pow_le_mono_r; lia). lia.
Qed.

Lemma iter_xO (p k : positive) : Z.pos (Pos.iter xO p k) = Z.pos p * 2 ^ Z.pos k.
Proof.
  induction k as [|k IH] using Pos.peano_ind.
  - cbn. lia.
  - rewrite Pos.iter_succ, Pos2Z.inj_succ, Z.pow_succ_r by lia.
    rewrite (Pos2Z.inj_xO (Pos.iter xO p k)), IH. lia.
Qed.




(** *** The operations of line 89

    The conversion of an [int] to [float]. *)
Lemma of_int_value (d K : Z) :
  1 <= d < 2 ^ 31 -> 100 <= K ->
  normal32 (Float32.of_int d) (-23) 8
  /\ 2 ^ 23 * Z.abs (value_at K (Float32.of_int d) - d * 2 ^ K) <= d * 2 ^ K
  /\ forall j t, 0 < j <= 2 ^ 24 -> - K <= t ->
       j * 2 ^ (t + K) <= d * 2 ^ K -> j * 2 ^ (t + K) <= value_at K (Float32.of_int d).
Proof.
  intros Hd HK. destruct d as [|p|p]; [lia| |lia].
  unfold Float32.of_int, Float32.prec, Float32.emax, binary_normalize, binary_round.
  pose proof (digits2_pos_bounds p) as [Dlo Dhi].
  pose proof (digits2_le p 31 (proj2 Hd)) as Hd31.
  set (dp := Z.pos (digits2_pos p)) in *.
  rewrite fexp_normal by lia. unfold shl_align.
  replace (dp + 0 - 24 - 0) with (dp - 24) by lia.
  assert (Hcase : 24 <= dp ->
    normal32 (binary_round_aux 24 128 false (Z.pos p) 0 loc_Exact) (-23) 8
    /\ 2 ^ 23 * Z.abs (value_at K (binary_round_aux 24 128 false (Z.pos p) 0 loc_Exact)
                       - Z.pos p * 2 ^ K) <= Z.pos p * 2 ^ K
    /\ forall j t, 0 < j <= 2 ^ 24 -> - K <= t ->
         j * 2 ^ (t + K) <= Z.pos p * 2 ^ K ->
         j * 2 ^ (t + K) <= value_at K (binary_round_aux 24 128 false (Z.pos p) 0 loc_Exact)).
  { intros Hge.
    assert (Hbig : 2 ^ 23 <= Z.pos p).
    { assert (2 ^ 23 <= 2 ^ (dp - 1)) by (apply Z.pow_le_mono_r; lia). lia. }
    destruct (round_exact p 0 K Hbig ltac:(fold dp; lia) ltac:(lia) HK)
      as (y & Hy & (m & e & -> & Hm & He) & Hclose & Hmono).
    rewrite Hy. rewrite Z.add_0_l in Hclose, Hmono. fold dp in He.
    split; [|split; assumption].
    exists m, e. split; [reflexivity|]. split; [exact Hm|lia]. }
  destruct (dp - 24) as [|k|k] eqn:Hk.
  - apply Hcase. lia.
  - apply Hcase. lia.
  - assert (Hmz : 2 ^ 23 <= Z.pos (Pos.iter xO p k) < 2 ^ 24).
    { rewrite iter_xO.
      assert (H1 : 2 ^ 23 = 2 ^ (dp - 1) * 2 ^ Z.pos k)
        by (rewrite <- Z.pow_add_r by lia; f_equal; lia).
      assert (H2 : 2 ^ 24 = 2 ^ dp * 2 ^ Z.pos k)
        by (rewrite <- Z.pow_add_r by lia; f_equal; lia).
      assert (0 < 2 ^ Z.pos k) by (apply Z.pow_pos_nonneg; lia).
      rewrite H1, H2. split; [apply Z.mul_le_mono_nonneg_r; lia|apply Z.mul_lt_mono_pos_r; lia]. }
    pose proof (digits2_unique _ 24 Hmz) as Hdz.
    destruct (round_exact (Pos.iter xO p k) (dp + 0 - 24) K)
      as (y & Hy & (m & e & -> & Hm & He) & Hclose & Hmono); [tauto|lia|lia|exact HK|].
    rewrite Hy.
    assert (Hv : Z.pos (Pos.iter xO p k) * 2 ^ (dp + 0 - 24 + K) = Z.pos p * 2 ^ K).
    { rewrite iter_xO, <- Z.mul_assoc, <- Z.pow_add_r by lia. do 2 f_equal. lia. }
    rewrite Hv in Hclose, Hmono. split; [|split; assumption].
    exists m, e. rewrite Hdz in He. split; [reflexivity|]. split; [exact Hm|lia].
Qed.

Lemma of_int_normal (d : Z) :
  1 <= d < 2 ^ 31 -> normal32 (Float32.of_int d) (-23) 8.
Proof. intros Hd. now destruct (of_int_value d 100 Hd). Qed.

(** The quotient of two normal numbers of these ranges is normal. *)
Lemma div_normal (x y : spec_float) :
  normal32 x (-23) 8 -> normal32 y (-23) 8 -> normal32 (Float32.div x y) (-56) 10.
Proof.
  intros (mx & ex & -> & Hmx & Hex) (my & ey & -> & Hmy & Hey).
  unfold Float32.div, Float32.prec, Float32.emax, SFdiv, SFdiv_core_binary.
  cbn [Zdigits2 xorb].
  rewrite (digits2_unique mx 24 Hmx), (digits2_unique my 24 Hmy).
  rewrite fexp_normal by lia.
  replace (Z.min (24 + ex - (24 + ey) - 24) (ex - ey)) with (ex - ey - 24) by lia.
  replace (ex - ey - (ex - ey - 24)) with 24 by lia.
  rewrite Z.shiftl_mul_pow2 by lia.
  assert (Hq : Z.div_eucl (Z.pos mx * 2 ^ 24) (Z.pos my)
               = ((Z.pos mx * 2 ^ 24) / Z.pos my, (Z.pos mx * 2 ^ 24) mod Z.pos my)).
  { unfold Z.div, Z.modulo. now destruct (Z.div_eucl _ _). }
  rewrite Hq.
  assert (Hqlo : 2 ^ 23 <= (Z.pos mx * 2 ^ 24) / Z.pos my).
  { apply Z.div_le_lower_bound; [lia|].
    change (2 ^ 23) with 8388608 in *. change (2 ^ 24) with 16777216 in *. nia. }
  assert (Hqhi : (Z.pos mx * 2 ^ 24) / Z.pos my < 2 ^ 25).
  { apply Z.div_lt_upper_bound; [lia|].
    change (2 ^ 23) with 8388608 in *. change (2 ^ 24) with 16777216 in *.
    change (2 ^ 25) with 33554432. nia. }
  destruct ((Z.pos mx * 2 ^ 24) / Z.pos my) as [|q|q] eqn:Eq;
    [change (2 ^ 23) with 8388608 in Hqlo; lia| |change (2 ^ 23) with 8388608 in Hqlo; lia].
  pose proof (digits2_le q 25 Hqhi) as Hd25.
  assert (Hd24 : 24 <= Z.pos (digits2_pos q)).
  { pose proof (digits2_pos_bounds q) as [_ Dhi].
    destruct (Z.lt_ge_cases (Z.pos (digits2_pos q)) 24) as [Hlt|]; [|assumption].
    assert (2 ^ Z.pos (digits2_pos q) <= 2 ^ 23) by (apply Z.pow_le_mono_r; lia). lia. }
  destruct (binary_round_aux_normal false q (ex - ey - 24)
              (new_location (Z.pos my) ((Z.pos mx * 2 ^ 24) mod Z.pos my)))
    as (m & e & Heq & Hm & He); [exact Hqlo|lia|lia|].
  exists m, e. split; [exact Heq|]. split; [exact Hm|lia].
Qed.

Lemma digits2_ge (p : positive) (k : Z) :
  2 ^ k <= Z.pos p -> k + 1 <= Z.pos (digits2_pos p).
Proof.
  intros Hp. pose proof (digits2_pos_bounds p) as [_ Dhi].
  destruct (Z.lt_ge_cases (Z.pos (digits2_pos p)) (k + 1)) as [Hlt|]; [|assumption].
  assert (2 ^ Z.pos (digits2_pos p) <= 2 ^ k) by (apply Z.pow_le_mono_r; lia). lia.
Qed.

(** The product that [pixScale] computes. *)
Lemma mul_value (x y : spec_float) (K : Z) :
  normal32 x (-56) 10 -> normal32 y (-23) 8 -> 100 <= K ->
  normal32 (SFmul Float32.prec Float32.emax x y) (-56) 43
  /\ 2 ^ 23 * Z.abs (value_at (K + K) (SFmul Float32.prec Float32.emax x y)
                     - value_at K x * value_at K y) <= value_at K x * value_at K y
  /\ forall j t, 0 < j <= 2 ^ 24 -> - (K + K) <= t ->
       j * 2 ^ (t + (K + K)) <= value_at K x * value_at K y ->
       j * 2 ^ (t + (K + K)) <= value_at (K + K) (SFmul Float32.prec Float32.emax x y).
Proof.
  intros (mx & ex & -> & Hmx & Hex) (my & ey & -> & Hmy & Hey) HK.
  unfold Float32.prec, Float32.emax, SFmul. cbn [xorb value_at].
  assert (Hlo : 2 ^ 46 <= Z.pos (mx * my)).
  { rewrite Pos2Z.inj_mul. change (2 ^ 46) with (2 ^ 23 * 2 ^ 23).
    apply Z.mul_le_mono_nonneg; lia. }
  assert (Hhi : Z.pos (mx * my) < 2 ^ 48).
  { rewrite Pos2Z.inj_mul. change (2 ^ 48) with (2 ^ 24 * 2 ^ 24).
    apply Z.mul_lt_mono_nonneg; lia. }
  pose proof (digits2_le _ 48 Hhi) as Hd48.
  pose proof (digits2_ge _ 46 Hlo) as Hd47.
  destruct (round_exact (mx * my) (ex + ey) (K + K))
    as (r & Hr & (m & e & -> & Hm & He) & Hclose & Hmono);
    [change (2 ^ 46) with 70368744177664 in Hlo; change (2 ^ 23) with 8388608; lia
    |lia|lia|lia|].
  rewrite Hr.
  assert (Hv : Z.pos (mx * my) * 2 ^ (ex + ey + (K + K))
               = Z.pos mx * 2 ^ (ex + K) * (Z.pos my * 2 ^ (ey + K))).
  { rewrite Pos2Z.inj_mul.
    replace (ex + ey + (K + K)) with ((ex + K) + (ey + K)) by lia.
    rewrite Z.pow_add_r by lia. ring. }
  rewrite Hv in Hclose, Hmono. split; [|split; assumption].
  exists m, e. split; [reflexivity|]. split; [exact Hm|lia].
Qed.

(** The size is within half a pixel of the product. *)
Lemma round_half_up_bounds (x : spec_float) (K : Z) :
  normal32 x (-56) 43 -> 100 <= K ->
  2 * value_at K x - 2 ^ K < 2 * Leptonica.round_half_up x * 2 ^ K <= 2 * value_at K x + 2 ^ K.
Proof.
  intros (m & e & -> & Hm & He) HK. cbn [value_at].
  assert (HT : 0 < 2 ^ K) by (apply Z.pow_pos_nonneg; lia).
  destruct e as [|q|q]; cbn [Leptonica.round_half_up].
  - rewrite Z.add_0_l. change (2 ^ 0) with 1. lia.
  - rewrite Z.pow_add_r by lia. nia.
  - set (Q := 2 ^ Z.pos q). set (G := 2 ^ (Z.neg q + K)).
    assert (HQ : 0 < Q) by (apply Z.pow_pos_nonneg; lia).
    assert (HG : 0 < G) by (apply Z.pow_pos_nonneg; lia).
    assert (HQG : 2 ^ K = Q * G).
    { unfold Q, G. rewrite <- Z.pow_add_r by lia. f_equal. lia. }
    rewrite Z.pow_add_r by lia. fold Q. change (2 ^ 1) with 2.
    pose proof (Z.div_mod (2 * Z.pos m + Q) (Q * 2) ltac:(lia)) as Hdm.
    pose proof (Z.mod_pos_bound (2 * Z.pos m + Q) (Q * 2) ltac:(lia)) as Hmod.
    set (r := (2 * Z.pos m + Q) / (Q * 2)) in *.
    set (s := (2 * Z.pos m + Q) mod (Q * 2)) in *.
    rewrite HQG. nia.
Qed.

(** [std::max] gives one of its arguments, and no smaller one. *)
Lemma max_value (a b : spec_float) (lo hi K : Z) :
  normal32 a lo hi -> normal32 b lo hi -> - K <= lo ->
  normal32 (Float32.max a b) lo hi
  /\ value_at K a <= value_at K (Float32.max a b)
  /\ value_at K b <= value_at K (Float32.max a b).
Proof.
  intros (ma & ea & -> & Hma & Hea) (mb & eb & -> & Hmb & Heb) HK.
  assert (Ha : normal32 (S754_finite false ma ea) lo hi) by (exists ma, ea; auto).
  assert (Hb : normal32 (S754_finite false mb eb) lo hi) by (exists mb, eb; auto).
  unfold Float32.max, SFltb, SFcompare.
  destruct (Z.compare_spec ea eb) as [Heq|Hlt|Hgt].
  - subst eb. change (Pos.compare_cont Eq ma mb) with (Pos.compare ma mb).
    assert (0 < 2 ^ (ea + K)) by (apply Z.pow_pos_nonneg; lia).
    destruct (Pos.compare_spec ma mb) as [Hm|Hm|Hm]; cbn [value_at];
      (split; [assumption|]); split; try lia; apply Z.mul_le_mono_nonneg_r; lia.
  - cbn [value_at]. split; [assumption|]. split; [|lia].
    replace (eb + K) with ((eb - ea - 1) + (1 + (ea + K))) by lia.
    rewrite (Z.pow_add_r 2 (eb - ea - 1)), (Z.pow_add_r 2 1) by lia.
    assert (HX : 1 <= 2 ^ (eb - ea - 1)) by (apply Z.lt_pred_le, Z.pow_pos_nonneg; lia).
    assert (HG : 0 < 2 ^ (ea + K)) by (apply Z.pow_pos_nonneg; lia).
    change (2 ^ 23) with 8388608 in *. change (2 ^ 24) with 16777216 in *.
    change (2 ^ 1) with 2.
    set (X := 2 ^ (eb - ea - 1)) in *. set (G := 2 ^ (ea + K)) in *.
    assert (H1 : Z.pos ma * G <= 2 * Z.pos mb * G) by (apply Z.mul_le_mono_nonneg_r; lia).
    assert (H2 : 2 * Z.pos mb * G * 1 <= 2 * Z.pos mb * G * X)
      by (apply Z.mul_le_mono_nonneg_l; lia).
    lia.
  - cbn [value_at]. split; [assumption|]. split; [lia|].
    replace (ea + K) with ((ea - eb - 1) + (1 + (eb + K))) by lia.
    rewrite (Z.pow_add_r 2 (ea - eb - 1)), (Z.pow_add_r 2 1) by lia.
    assert (HX : 1 <= 2 ^ (ea - eb - 1)) by (apply Z.lt_pred_le, Z.pow_pos_nonneg; lia).
    assert (HG : 0 < 2 ^ (eb + K)) by (apply Z.pow_pos_nonneg; lia).
    change (2 ^ 23) with 8388608 in *. change (2 ^ 24) with 16777216 in *.
    change (2 ^ 1) with 2.
    set (X := 2 ^ (ea - eb - 1)) in *. set (G := 2 ^ (eb + K)) in *.
    assert (H1 : Z.pos mb * G <= 2 * Z.pos ma * G) by (apply Z.mul_le_mono_nonneg_r; lia).
    assert (H2 : 2 * Z.pos ma * G * 1 <= 2 * Z.pos ma * G * X)
      by (apply Z.mul_le_mono_nonneg_l; lia).
    lia.
Qed.

(** *** The ratio of the sizes, as integer arithmetic *)
Lemma close_bounds (x u : Z) :
  8388608 * Z.abs (x - u) <= u -> (8388608 - 1) * u <= 8388608 * x <= (8388608 + 1) * u.
Proof. lia. Qed.

Lemma ratio_arith (w h w' h' S T A B Pw Ph : Z) :
  0 < T -> 0 < S -> 1 <= w -> 1 <= h -> 1 <= w' ->
  8388608 * Z.abs (A - w * T) <= w * T ->
  8388608 * Z.abs (B - h * T) <= h * T ->
  8388608 * Z.abs (Pw - S * A) <= S * A ->
  8388608 * Z.abs (Ph - S * B) <= S * B ->
  2 * Pw - T * T < 2 * w' * (T * T) <= 2 * Pw + T * T ->
  2 * Ph - T * T < 2 * h' * (T * T) <= 2 * Ph + T * T ->
  2097152 * Z.abs (w' * h - h' * w) <= 1048576 * (w + h) + 2 * w' * h.
Proof.
  intros HT HS Hw Hh Hw' HA HB HPw HPh Hrw Hrh.
  apply close_bounds in HA, HB, HPw, HPh.
  set (N := 8388608) in *.
  set (D := T * T) in *.
  assert (HD : 0 < D) by (unfold D; nia).
  set (U := S * (w * T)). set (V := S * (h * T)).
  assert (HU : 0 < U) by (unfold U; nia).
  assert (HV : 0 < V) by (unfold V; nia).
  assert (HX : (N - 1) * U <= N * (S * A) <= (N + 1) * U).
  { unfold U. split.
    - replace ((N - 1) * (S * (w * T))) with (S * ((N - 1) * (w * T))) by ring.
      replace (N * (S * A)) with (S * (N * A)) by ring.
      apply Z.mul_le_mono_nonneg_l; lia.
    - replace ((N + 1) * (S * (w * T))) with (S * ((N + 1) * (w * T))) by ring.
      replace (N * (S * A)) with (S * (N * A)) by ring.
      apply Z.mul_le_mono_nonneg_l; lia. }
  assert (HY : (N - 1) * V <= N * (S * B) <= (N + 1) * V).
  { unfold V. split.
    - replace ((N - 1) * (S * (h * T))) with (S * ((N - 1) * (h * T))) by ring.
      replace (N * (S * B)) with (S * (N * B)) by ring.
      apply Z.mul_le_mono_nonneg_l; lia.
    - replace ((N + 1) * (S * (h * T))) with (S * ((N + 1) * (h * T))) by ring.
      replace (N * (S * B)) with (S * (N * B)) by ring.
      apply Z.mul_le_mono_nonneg_l; lia. }
  set (X := S * A) in *. set (Y := S * B) in *.
  assert (HP : (N - 1) * (N - 1) * U <= N * N * Pw <= (N + 1) * (N + 1) * U) by (unfold N in *; lia).
  assert (HQ : (N - 1) * (N - 1) * V <= N * N * Ph <= (N + 1) * (N + 1) * V) by (unfold N in *; lia).
  assert (HUV : h * U = w * V) by (unfold U, V; ring).
  set (hU := h * U) in *.
  assert (HhU : 0 < hU) by (unfold hU; nia).
  assert (H1 : (N - 1) * (N - 1) * hU <= N * N * (h * Pw) <= (N + 1) * (N + 1) * hU).
  { unfold hU. split.
    - replace ((N - 1) * (N - 1) * (h * U)) with (h * ((N - 1) * (N - 1) * U)) by ring.
      replace (N * N * (h * Pw)) with (h * (N * N * Pw)) by ring.
      apply Z.mul_le_mono_nonneg_l; lia.
    - replace ((N + 1) * (N + 1) * (h * U)) with (h * ((N + 1) * (N + 1) * U)) by ring.
      replace (N * N * (h * Pw)) with (h * (N * N * Pw)) by ring.
      apply Z.mul_le_mono_nonneg_l; lia. }
  assert (H2 : (N - 1) * (N - 1) * hU <= N * N * (w * Ph) <= (N + 1) * (N + 1) * hU).
  { rewrite HUV. split.
    - replace ((N - 1) * (N - 1) * (w * V)) with (w * ((N - 1) * (N - 1) * V)) by ring.
      replace (N * N * (w * Ph)) with (w * (N * N * Ph)) by ring.
      apply Z.mul_le_mono_nonneg_l; lia.
    - replace ((N + 1) * (N + 1) * (w * V)) with (w * ((N + 1) * (N + 1) * V)) by ring.
      replace (N * N * (w * Ph)) with (w * (N * N * Ph)) by ring.
      apply Z.mul_le_mono_nonneg_l; lia. }
  set (a := h * Pw) in *. set (b := w * Ph) in *.
  (* the rounding to whole pixels *)
  assert (H3 : 2 * (w' * h) * D <= 2 * a + h * D).
  { unfold a. replace (2 * (w' * h) * D) with (h * (2 * w' * D)) by ring.
    replace (2 * (h * Pw) + h * D) with (h * (2 * Pw + D)) by ring.
    apply Z.mul_le_mono_nonneg_l; lia. }
  assert (H3' : 2 * a - h * D <= 2 * (w' * h) * D).
  { unfold a. replace (2 * (w' * h) * D) with (h * (2 * w' * D)) by ring.
    replace (2 * (h * Pw) - h * D) with (h * (2 * Pw - D)) by ring.
    apply Z.mul_le_mono_nonneg_l; lia. }
  assert (H4 : 2 * (h' * w) * D <= 2 * b + w * D).
  { unfold b. replace (2 * (h' * w) * D) with (w * (2 * h' * D)) by ring.
    replace (2 * (w * Ph) + w * D) with (w * (2 * Ph + D)) by ring.
    apply Z.mul_le_mono_nonneg_l; lia. }
  assert (H4' : 2 * b - w * D <= 2 * (h' * w) * D).
  { unfold b. replace (2 * (h' * w) * D) with (w * (2 * h' * D)) by ring.
    replace (2 * (w * Ph) - w * D) with (w * (2 * Ph - D)) by ring.
    apply Z.mul_le_mono_nonneg_l; lia. }
  set (c := w' * h) in *. set (d := h' * w) in *.
  assert (Hc : 1 <= c) by (unfold c; nia).
  assert (H5 : 2 * a <= 3 * (c * D)).
  { assert (h * D <= c * D) by (apply Z.mul_le_mono_nonneg_r; unfold c; nia). lia. }
  apply Z.mul_le_mono_pos_r with (p := D); [exact HD|].
  set (cD := c * D) in *. set (wD := w * D) in *. set (hD := h * D) in *.
  replace (2097152 * Z.abs (c - d) * D) with (2097152 * Z.abs (c * D - d * D))
    by (rewrite <- Z.mul_sub_distr_r, Z.abs_mul, (Z.abs_eq D) by lia; ring).
  replace ((1048576 * (w + h) + 2 * c) * D) with (1048576 * (wD + hD) + 2 * cD)
    by (unfold wD, hD, cD; ring).
  fold cD. set (dD := d * D) in *.
  replace (2 * c * D) with (2 * cD) in * by (unfold cD; ring).
  replace (2 * d * D) with (2 * dD) in * by (unfold dD; ring).
  unfold N in *. lia.
Qed.


(** *** The floors

    The widths below 500 and the heights below 250, one by one. *)
Lemma widths_checked :
  forallb (fun w =>
      (999 * 2 ^ 256 <=? 2 * value_at 128 (Float32.div (Float32.of_int 500) (Float32.of_int w))
                           * value_at 128 (Float32.of_int w))
      && (2 ^ 128 <=? value_at 128 (Float32.div (Float32.of_int 500) (Float32.of_int w))))
    (map Z.of_nat (seq 1 499)) = true.
Proof. vm_compute. reflexivity. Qed.

Lemma heights_checked :
  forallb (fun h =>
      (499 * 2 ^ 256 <=? 2 * value_at 128 (Float32.div (Float32.of_int 250) (Float32.of_int h))
                           * value_at 128 (Float32.of_int h))
      && (2 ^ 128 <=? value_at 128 (Float32.div (Float32.of_int 250) (Float32.of_int h))))
    (map Z.of_nat (seq 1 249)) = true.
Proof. vm_compute. reflexivity. Qed.

Lemma in_range (n : nat) (d : Z) :
  1 <= d < Z.of_nat n + 1 -> In d (map Z.of_nat (seq 1 n)).
Proof.
  intros Hd. apply in_map_iff. exists (Z.to_nat d). split; [lia|].
  apply in_seq. lia.
Qed.

(** The quotient 500.0f / w of a width below 500 is at least 1, and its
    product with the width at least 499.5. *)
Lemma small_width (w : Z) :
  1 <= w < 500 ->
  999 * 2 ^ 256 <= 2 * value_at 128 (Float32.div (Float32.of_int 500) (Float32.of_int w))
                     * value_at 128 (Float32.of_int w)
  /\ 2 ^ 128 <= value_at 128 (Float32.div (Float32.of_int 500) (Float32.of_int w)).
Proof.
  intros Hw. pose proof widths_checked as H.
  rewrite forallb_forall in H. specialize (H w (in_range 499 w ltac:(lia))).
  apply andb_true_iff in H. destruct H as [H1 H2].
  apply Z.leb_le in H1, H2. split; assumption.
Qed.

Lemma small_height (h : Z) :
  1 <= h < 250 ->
  499 * 2 ^ 256 <= 2 * value_at 128 (Float32.div (Float32.of_int 250) (Float32.of_int h))
                     * value_at 128 (Float32.of_int h)
  /\ 2 ^ 128 <= value_at 128 (Float32.div (Float32.of_int 250) (Float32.of_int h)).
Proof.
  intros Hh. pose proof heights_checked as H.
  rewrite forallb_forall in H. specialize (H h (in_range 249 h ltac:(lia))).
  apply andb_true_iff in H. destruct H as [H1 H2].
  apply Z.leb_le in H1, H2. split; assumption.
Qed.

Lemma value_at_nonneg (K : Z) (x : spec_float) : 0 <= value_at K x.
Proof.
  destruct x as [| | |[|] m e]; cbn [value_at];
    first [lia | apply Z.mul_nonneg_nonneg; [lia|apply Z.pow_nonneg; lia]].
Qed.

Lemma value_at_pos (K : Z) (x : spec_float) (lo hi : Z) :
  normal32 x lo hi -> - K <= lo -> 0 < value_at K x.
Proof.
  intros (m & e & -> & Hm & He) HK. cbn [value_at].
  apply Z.mul_pos_pos; [lia|apply Z.pow_pos_nonneg; lia].
Qed.

(** The factor that [upscale] computes, for an image that is too small. *)
Lemma factor_reaches (w h : Z) :
  1 <= w < 2 ^ 31 -> 1 <= h < 2 ^ 31 -> w < 500 \/ h < 250 ->
  let scale := Float32.max (Float32.div (Float32.of_int 500) (Float32.of_int w))
                           (Float32.div (Float32.of_int 250) (Float32.of_int h)) in
  normal32 scale (-56) 10
  /\ 999 * 2 ^ 256 <= 2 * value_at 128 scale * value_at 128 (Float32.of_int w)
  /\ 499 * 2 ^ 256 <= 2 * value_at 128 scale * value_at 128 (Float32.of_int h).
Proof.
  intros Hw Hh Hsmall scale.
  pose proof (of_int_normal 500 ltac:(cbn; lia)) as N500.
  pose proof (of_int_normal 250 ltac:(cbn; lia)) as N250.
  destruct (of_int_value w 128 Hw ltac:(lia)) as (NW & _ & MW).
  destruct (of_int_value h 128 Hh ltac:(lia)) as (NH & _ & MH).
  pose proof (div_normal _ _ N500 NW) as NA.
  pose proof (div_normal _ _ N250 NH) as NB.
  destruct (max_value _ _ (-56) 10 128 NA NB ltac:(lia)) as (NS & SA & SB).
  fold scale in NS, SA, SB.
  pose proof (value_at_nonneg 128 (Float32.of_int w)) as PW.
  pose proof (value_at_nonneg 128 (Float32.of_int h)) as PH.
  set (vs := value_at 128 scale) in *.
  set (va := value_at 128 (Float32.div (Float32.of_int 500) (Float32.of_int w))) in *.
  set (vb := value_at 128 (Float32.div (Float32.of_int 250) (Float32.of_int h))) in *.
  set (vw := value_at 128 (Float32.of_int w)) in *.
  set (vh := value_at 128 (Float32.of_int h)) in *.
  assert (HD : 2 ^ 256 = 2 ^ 128 * 2 ^ 128) by reflexivity.
  assert (HT : 0 < 2 ^ 128) by (apply Z.pow_pos_nonneg; lia).
  assert (Hone : 2 ^ 128 <= vs).
  { destruct Hsmall as [Hs|Hs].
    - destruct (small_width w ltac:(lia)) as [_ H]. fold va in H. lia.
    - destruct (small_height h ltac:(lia)) as [_ H]. fold vb in H. lia. }
  split; [exact NS|]. split.
  - destruct (Z.lt_ge_cases w 500) as [Hlt|Hge].
    + destruct (small_width w ltac:(lia)) as [H _]. fold va vw in H.
      apply Z.le_trans with (2 * va * vw); [exact H|].
      apply Z.mul_le_mono_nonneg_r; lia.
    + assert (H500 : 500 * 2 ^ (0 + 128) <= vw).
      { apply MW; [cbn; lia|lia|]. rewrite Z.add_0_l.
        apply Z.mul_le_mono_nonneg_r; lia. }
      rewrite Z.add_0_l in H500. rewrite HD.
      set (T := 2 ^ 128) in *.
      assert (T * (500 * T) <= vs * vw) by (apply Z.mul_le_mono_nonneg; lia).
      lia.
  - destruct (Z.lt_ge_cases h 250) as [Hlt|Hge].
    + destruct (small_height h ltac:(lia)) as [H _]. fold vb vh in H.
      apply Z.le_trans with (2 * vb * vh); [exact H|].
      apply Z.mul_le_mono_nonneg_r; lia.
    + assert (H250 : 250 * 2 ^ (0 + 128) <= vh).
      { apply MH; [cbn; lia|lia|]. rewrite Z.add_0_l.
        apply Z.mul_le_mono_nonneg_r; lia. }
      rewrite Z.add_0_l in H250. rewrite HD.
      set (T := 2 ^ 128) in *.
      assert (T * (250 * T) <= vs * vh) by (apply Z.mul_le_mono_nonneg; lia).
      lia.
Qed.

(** A size scaled by a factor whose product with it is at least
    [c - 1/2] is at least [c]. *)
Lemma scaled_size_floor (scale : spec_float) (d c : Z) :
  normal32 scale (-56) 10 -> 1 <= d < 2 ^ 31 -> 1 <= c <= 2 ^ 23 ->
  (2 * c - 1) * 2 ^ 256 <= 2 * value_at 128 scale * value_at 128 (Float32.of_int d) ->
  c <= Leptonica.scaled_size scale d.
Proof.
  intros NS Hd Hc Hle. unfold Leptonica.scaled_size.
  destruct (of_int_value d 128 Hd ltac:(lia)) as (ND & _ & _).
  destruct (mul_value scale (Float32.of_int d) 128 NS ND ltac:(lia)) as (NP & _ & MP).
  pose proof (round_half_up_bounds _ 256 NP ltac:(lia)) as [Hr _].
  change (128 + 128) with 256 in MP.
  set (P := SFmul Float32.prec Float32.emax scale (Float32.of_int d)) in *.
  assert (H : (2 * c - 1) * 2 ^ (-1 + 256) <= value_at 256 P).
  { apply MP; [change (2 ^ 24) with (2 * 2 ^ 23); lia|lia|].
    change (2 ^ (-1 + 256)) with (2 ^ 255). change (2 ^ 256) with (2 * 2 ^ 255) in Hle.
    lia. }
  change (2 ^ (-1 + 256)) with (2 ^ 255) in H. change (2 ^ 256) with (2 * 2 ^ 255) in Hr.
  assert (0 < 2 ^ 255) by (apply Z.pow_pos_nonneg; lia).
  set (r := Leptonica.round_half_up P) in *. set (G := 2 ^ 255) in *.
  nia.
Qed.

(** The sizes of the scaled image are in the ratio of the sizes of the
    input, up to the rounding of each to whole pixels and a 2^-20 fraction
    for the rounding of single precision. *)
Lemma scaled_sizes_ratio (scale : spec_float) (w h : Z) :
  normal32 scale (-56) 10 -> 1 <= w < 2 ^ 31 -> 1 <= h < 2 ^ 31 ->
  1 <= Leptonica.scaled_size scale w ->
  2 ^ 21 * Z.abs (Leptonica.scaled_size scale w * h - Leptonica.scaled_size scale h * w)
  <= 2 ^ 20 * (w + h) + 2 * Leptonica.scaled_size scale w * h.
Proof.
  intros NS Hw Hh Hpos. unfold Leptonica.scaled_size in *.
  destruct (of_int_value w 128 Hw ltac:(lia)) as (NW & CW & _).
  destruct (of_int_value h 128 Hh ltac:(lia)) as (NH & CH & _).
  destruct (mul_value scale (Float32.of_int w) 128 NS NW ltac:(lia)) as (NPw & CPw & _).
  destruct (mul_value scale (Float32.of_int h) 128 NS NH ltac:(lia)) as (NPh & CPh & _).
  pose proof (round_half_up_bounds _ 256 NPw ltac:(lia)) as Rw.
  pose proof (round_half_up_bounds _ 256 NPh ltac:(lia)) as Rh.
  change (128 + 128) with 256 in *.
  change (2 ^ 256) with (2 ^ 128 * 2 ^ 128) in Rw, Rh.
  change (2 ^ 21) with 2097152. change (2 ^ 20) with 1048576.
  change (2 ^ 23) with 8388608 in CW, CH, CPw, CPh.
  apply (ratio_arith w h _ _ (value_at 128 scale) (2 ^ 128)
           (value_at 128 (Float32.of_int w)) (value_at 128 (Float32.of_int h))
           (value_at 256 (SFmul Float32.prec Float32.emax scale (Float32.of_int w)))
           (value_at 256 (SFmul Float32.prec Float32.emax scale (Float32.of_int h))));
    try assumption; try lia.
  apply (value_at_pos 128 scale (-56) 10 NS). lia.
Qed.

Section UpscaleFloors.

Context {Pix : Type}.

Lemma enhanced_sizes (E : Engine Pix) (p : Pix) :
  Leptonica.sizes E ->
  pixGetWidth E (binarize E (normalize_contrast E (sharpen E p))) = pixGetWidth E p
  /\ pixGetHeight E (binarize E (normalize_contrast E (sharpen E p))) = pixGetHeight E p.
Proof.
  intros HE.
  assert (H1 : pixGetWidth E (sharpen E p) = pixGetWidth E p
               /\ pixGetHeight E (sharpen E p) = pixGetHeight E p).
  { unfold sharpen. destruct (pixUnsharpMaskingGray E p) as [q|] eqn:Hq; [|tauto].
    exact (Leptonica.sharpened_size E HE p q Hq). }
  set (p1 := sharpen E p) in *.
  assert (H2 : pixGetWidth E (normalize_contrast E p1) = pixGetWidth E p1
               /\ pixGetHeight E (normalize_contrast E p1) = pixGetHeight E p1).
  { unfold normalize_contrast. destruct (pixContrastNorm E p1) as [q|] eqn:Hq; [|tauto].
    exact (Leptonica.normalized_size E HE p1 q Hq). }
  set (p2 := normalize_contrast E p1) in *.
  assert (H3 : pixGetWidth E (binarize E p2) = pixGetWidth E p2
               /\ pixGetHeight E (binarize E p2) = pixGetHeight E p2).
  { unfold binarize. destruct (pixOtsuThreshOnBackgroundNorm E p2) as [q|] eqn:Hq; [|tauto].
    exact (Leptonica.binarized_size E HE p2 q Hq). }
  destruct H1, H2, H3. split; congruence.
Qed.


End UpscaleFloors.


End SinglePrecision.


(** * Further properties of the code *)

(** ** The clean-up of the text, lines 127-160 *)

Section SanitizeMore.

Lemma trim_trailing_last (s : Text.text) (d : ascii) :
  match Spec.trim_trailing s with
  | [] => True
  | c :: r => Spec.space_or_newline (List.last (c :: r) d) = false
  end.
Proof.
  induction s as [|c s IH]; [exact I|].
  rewrite trim_trailing_eq.
  destruct (Spec.trim_trailing s) as [|k ks].
  - destruct (Spec.space_or_newline c) eqn:Hc; [exact I|exact Hc].
  - exact IH.
Qed.

Lemma trim_trailing_fixed (s : Text.text) (d : ascii) :
  s <> [] -> Spec.space_or_newline (List.last s d) = false ->
  Spec.trim_trailing s = s.
Proof.
  induction s as [|c s IH]; [congruence|]. intros _ Hl.
  rewrite trim_trailing_eq. destruct s as [|k ks].
  - cbn in *. now rewrite Hl.
  - rewrite IH; [reflexivity|discriminate|exact Hl].
Qed.

Lemma filter_trim_leading (s : Text.text) :
  List.filter (fun c => negb (Spec.space_or_newline c)) (Spec.trim_leading s)
  = List.filter (fun c => negb (Spec.space_or_newline c)) s.
Proof.
  induction s as [|c s IH]; [reflexivity|].
  cbn [Spec.trim_leading]. destruct (Spec.space_or_newline c) eqn:Hc.
  - cbn [List.filter]. now rewrite Hc.
  - reflexivity.
Qed.

Lemma filter_trim_trailing (s : Text.text) :
  List.filter (fun c => negb (Spec.space_or_newline c)) (Spec.trim_trailing s)
  = List.filter (fun c => negb (Spec.space_or_newline c)) s.
Proof.
  induction s as [|c s IH]; [reflexivity|].
  rewrite trim_trailing_eq. cbn [List.filter]. rewrite <- IH.
  destruct (Spec.trim_trailing s) as [|k ks].
  - destruct (Spec.space_or_newline c) eqn:Hc; cbn; now rewrite ?Hc.
  - reflexivity.
Qed.

Lemma filter_filter (p q : ascii -> bool) (s : Text.text) :
  List.filter p (List.filter q s) = List.filter (fun c => q c && p c) s.
Proof.
  induction s as [|c s IH]; [reflexivity|].
  cbn [List.filter]. destruct (q c); cbn [andb List.filter];
    [destruct (p c)|]; now rewrite IH.
Qed.

(** A carriage return and a tab are bytes the filter removes. *)
Lemma kept_not_cr_tab (c : ascii) :
  Text.is_stripped c = false ->
  negb (Ascii.eqb c "013" || Ascii.eqb c "009") = true.
Proof.
  intros H.
  destruct (Ascii.eqb c "013") eqn:Hcr;
    [apply Ascii.eqb_eq in Hcr; subst c; discriminate H|].
  destruct (Ascii.eqb c "009") eqn:Htab;
    [apply Ascii.eqb_eq in Htab; subst c; discriminate H|].
  reflexivity.
Qed.

(** X1: the text that sanitization returns is never empty and neither
    begins nor ends with a space or a newline. *)
Theorem sanitize_no_outer_blanks (raw : Text.text) (d : ascii) :
  exists c r,
    Text.sanitize raw = c :: r
    /\ Text.in_set Text.blanks c = false
    /\ Text.in_set Text.blanks (List.last (c :: r) d) = false.
Proof.
  rewrite sanitize_refines. unfold Spec.sanitize.
  set (u := Spec.strip_cr_tab (Spec.strip_bytes raw)).
  pose proof (trim_leading_head u) as Hh.
  pose proof (trim_trailing_last (Spec.trim_leading u) d) as Hl.
  destruct (Spec.trim_leading u) as [|c r] eqn:Eu.
  - cbn. eexists _, _. split; [reflexivity|]. now split.
  - rewrite (trim_trailing_cons c r Hh) in Hl |- *.
    cbn [Spec.or_unreadable]. exists c, (Spec.trim_trailing r).
    rewrite !in_blanks_spec. now repeat split.
Qed.

(** X2: sanitization loses no readable byte and invents none.  The bytes
    of the raw text that the filter keeps and that are neither space nor
    newline come out in the same order, as the bytes of the result that
    are neither space nor newline; when there are none the result is
    "[UNREADABLE]". *)
Theorem sanitize_keeps_readable_bytes (raw : Text.text) :
  let readable :=
    List.filter (fun c => negb (Text.is_stripped c) && negb (Text.in_set Text.blanks c)) raw in
  (readable = [] -> Text.sanitize raw = Text.UNREADABLE)
  /\ (readable <> [] ->
      List.filter (fun c => negb (Text.in_set Text.blanks c)) (Text.sanitize raw)
      = readable).
Proof.
  intros readable.
  assert (Hext : forall l, List.filter (fun c => negb (Text.in_set Text.blanks c)) l
                 = List.filter (fun c => negb (Spec.space_or_newline c)) l).
  { intros l. apply List.filter_ext. intros c. now rewrite in_blanks_spec. }
  rewrite Hext, sanitize_refines. unfold Spec.sanitize.
  set (u := Spec.strip_cr_tab (Spec.strip_bytes raw)).
  set (t := Spec.trim_trailing (Spec.trim_leading u)).
  assert (Ht : List.filter (fun c => negb (Spec.space_or_newline c)) t = readable).
  { unfold t. rewrite filter_trim_trailing, filter_trim_leading.
    unfold u, Spec.strip_cr_tab. rewrite <- erase_remove_if_spec.
    unfold Text.erase_remove_if. rewrite !filter_filter.
    apply List.filter_ext. intros c. rewrite in_blanks_spec.
    destruct (Text.is_stripped c) eqn:Hs; [reflexivity|].
    now rewrite (kept_not_cr_tab c Hs). }
  assert (Hhead : match t with [] => True | c :: _ => Spec.space_or_newline c = false end).
  { unfold t. pose proof (trim_leading_head u) as Hh.
    destruct (Spec.trim_leading u) as [|c r]; [exact I|].
    now rewrite (trim_trailing_cons c r Hh). }
  destruct t as [|c r] eqn:Et.
  - split; [reflexivity|]. intros Hne. now rewrite <- Ht in Hne.
  - cbn [Spec.or_unreadable]. split; [|intros _; exact Ht].
    intros Hr. rewrite <- Ht in Hr. cbn [List.filter] in Hr.
    rewrite Hhead in Hr. discriminate Hr.
Qed.

Lemma sanitize_keeps_readable_bytes_witness :
  Text.sanitize ["009"; " "; "010"] = Text.UNREADABLE
  /\ List.filter (fun c => negb (Text.in_set Text.blanks c))
       (Text.sanitize [" "; "H"; "i"; "012"; " "; "y"; "233"; "010"])
     = ["H"; "i"; "y"].
Proof.
  split.
  - apply (sanitize_keeps_readable_bytes ["009"; " "; "010"]). reflexivity.
  - apply (sanitize_keeps_readable_bytes [" "; "H"; "i"; "012"; " "; "y"; "233"; "010"]).
    vm_compute. discriminate.
Defined.

(** X3: a text that is not empty, has only bytes the filter keeps, and
    neither begins nor ends with a space or a newline, is returned as it
    is. *)
Theorem sanitize_fixes_clean_text (t : Text.text) (d : ascii) :
  t <> [] ->
  Forall (fun c => Text.is_stripped c = false) t ->
  Text.in_set Text.blanks (List.hd d t) = false ->
  Text.in_set Text.blanks (List.last t d) = false ->
  Text.sanitize t = t.
Proof.
  intros Hne Hk Hh Hl. rewrite in_blanks_spec in Hh, Hl.
  rewrite sanitize_refines. unfold Spec.sanitize.
  rewrite <- erase_remove_if_spec. unfold Text.erase_remove_if.
  rewrite filter_fixed
    by (eapply List.Forall_impl; [|exact Hk]; cbn; intros c ->; reflexivity).
  unfold Spec.strip_cr_tab.
  rewrite filter_fixed
    by (eapply List.Forall_impl; [|exact Hk]; cbn; intros c Hc; now apply kept_not_cr_tab).
  destruct t as [|c r]; [congruence|]. cbn [List.hd] in Hh.
  cbn [Spec.trim_leading]. rewrite Hh.
  rewrite (trim_trailing_fixed (c :: r) d Hne Hl). reflexivity.
Qed.

Lemma sanitize_fixes_clean_text_witness :
  Text.sanitize (Text.lit "HELLO WORLD") = Text.lit "HELLO WORLD".
Proof.
  apply (sanitize_fixes_clean_text (Text.lit "HELLO WORLD") " ").
  - vm_compute. discriminate.
  - vm_compute. repeat constructor.
  - reflexivity.
  - reflexivity.
Defined.

(** X4: after the byte filter of line 127 (or 137) the text holds no
    carriage return and no tab, so the two erasures of lines 147-148
    change nothing. *)
Theorem cr_tab_erasure_changes_nothing (raw : Text.text) :
  Text.erase_remove "009" (Text.erase_remove "013"
    (Text.erase_remove_if Text.is_stripped raw))
  = Text.erase_remove_if Text.is_stripped raw.
Proof.
  rewrite erase_remove_cr_tab_spec. unfold Spec.strip_cr_tab.
  apply filter_fixed. unfold Text.erase_remove_if.
  eapply List.Forall_impl; [|apply filter_holds]. cbn.
  intros c Hc. apply kept_not_cr_tab. now apply negb_true_iff.
Qed.

End SanitizeMore.

(** ** The pool over whole schedules, lines 168-235 and 244-269 *)

Section PoolMore.

Context {Pix : Type}.
Implicit Types (s : Server) (e : event Pix) (es : list (event Pix)).

Lemma step_workers_length e s :
  length (workers (thread_pool (fst (step e s)))) = length (workers (thread_pool s)).
Proof.
  destruct e as [request|w|w E|a|]; cbn [step]; try reflexivity.
  - destruct (worker_take_cases w (thread_pool s))
      as [(t & rest & _ & _ & ->)|[(_ & _ & ->)| ->]]; cbn;
      rewrite ?length_insert; reflexivity.
  - unfold worker_complete.
    destruct (workers (thread_pool s) !! w) as [[|t|]|]; cbn;
      rewrite ?length_insert; reflexivity.
  - unfold ProcessImage_return.
    destruct (calls s !! a) as [c|]; [destruct (Call.completed c)|]; reflexivity.
Qed.

Lemma run_workers_length es s :
  length (workers (thread_pool (fst (run es s)))) = length (workers (thread_pool s)).
Proof.
  revert s. induction es as [|e es IH]; intros s; [reflexivity|].
  rewrite run_cons. cbn [fst]. now rewrite IH, step_workers_length.
Qed.

Lemma held_length (ws : list worker_state) :
  (length (flat_map held ws) <= length ws)%nat.
Proof.
  induction ws as [|[|t|] ws IH]; cbn; lia.
Qed.

(** X5: the pool keeps the number of workers it was built with, and the
    tasks being processed at any moment are at most that many. *)
Theorem pool_size_fixed (n : nat) es :
  length (workers (thread_pool (fst (run es (Server_new n))))) = n
  /\ (length (flat_map held (workers (thread_pool (fst (run es (Server_new n))))))
      <= n)%nat.
Proof.
  assert (H : length (workers (thread_pool (fst (run es (Server_new n))))) = n).
  { rewrite run_workers_length. cbn. apply length_replicate. }
  split; [exact H|]. rewrite <- H at 2. apply held_length.
Qed.

(** A pool without workers: no worker, and no call whose flag is set. *)
Lemma step_no_workers e s :
  workers (thread_pool s) = [] ->
  (forall a c, calls s !! a = Some c -> Call.completed c = false) ->
  workers (thread_pool (fst (step e s))) = []
  /\ (forall a c, calls (fst (step e s)) !! a = Some c -> Call.completed c = false)
  /\ dequeued (snd (step e s)) = []
  /\ processed (snd (step e s)) = []
  /\ replied (snd (step e s)) = [].
Proof.
  intros Hw Hc.
  destruct e as [request|w|w E|a|]; cbn [step].
  - cbn. split; [exact Hw|]. split; [|now repeat split].
    intros a c. destruct (decide (next_call s = a)) as [<-|Hne].
    + rewrite lookup_insert_eq. now intros [= <-].
    + rewrite lookup_insert_ne by exact Hne. apply Hc.
  - unfold worker_take. rewrite Hw. cbn. now repeat split.
  - unfold worker_complete. rewrite Hw. cbn. now repeat split.
  - unfold ProcessImage_return.
    destruct (calls s !! a) as [c|] eqn:Ha; [|now repeat split].
    rewrite (Hc a c Ha). now repeat split.
  - cbn. now repeat split.
Qed.

Lemma replied_app (tr1 tr2 : list action) :
  replied (tr1 ++ tr2) = replied tr1 ++ replied tr2.
Proof. apply flat_map_app. Qed.

Lemma run_no_workers es s :
  workers (thread_pool s) = [] ->
  (forall a c, calls s !! a = Some c -> Call.completed c = false) ->
  dequeued (snd (run es s)) = []
  /\ processed (snd (run es s)) = []
  /\ replied (snd (run es s)) = [].
Proof.
  revert s. induction es as [|e es IH]; intros s Hw Hc; [now repeat split|].
  rewrite run_cons. cbn [fst snd].
  destruct (step_no_workers e s Hw Hc) as (Hw1 & Hc1 & Hd & Hp & Hr).
  destruct (IH _ Hw1 Hc1) as (Hd2 & Hp2 & Hr2).
  rewrite dequeued_app, processed_app, replied_app, Hd, Hp, Hr, Hd2, Hp2, Hr2.
  now repeat split.
Qed.

(** X6: a pool built with zero threads never takes, processes or answers
    anything: every call that arrives stays in the queue, in the order of
    arrival, whatever the schedule. *)
Theorem no_workers_no_replies es :
  dequeued (snd (run es (Server_new 0))) = []
  /\ processed (snd (run es (Server_new 0))) = []
  /\ replied (snd (run es (Server_new 0))) = []
  /\ tasks (thread_pool (fst (run es (Server_new 0))))
     = enqueued (snd (run es (Server_new 0))).
Proof.
  destruct (run_no_workers es (Server_new 0) eq_refl) as (Hd & Hp & Hr).
  { intros a c H. cbn in H. rewrite lookup_empty in H. discriminate H. }
  repeat split; try assumption.
  pose proof (run_fifo es (Server_new 0)) as Hq. rewrite Hd in Hq.
  cbn in Hq. now symmetry.
Qed.

(** The flag [stop] and the workers that have left. *)
Lemma step_stop e s :
  stop (thread_pool (fst (step e s))) = stop (thread_pool s) || is_Shutdown e.
Proof.
  destruct e as [request|w|w E|a|]; cbn [step is_Shutdown]; rewrite ?orb_false_r.
  - reflexivity.
  - destruct (worker_take_cases w (thread_pool s))
      as [(t & rest & _ & _ & ->)|[(_ & _ & ->)| ->]]; reflexivity.
  - unfold worker_complete.
    destruct (workers (thread_pool s) !! w) as [[|t|]|]; reflexivity.
  - unfold ProcessImage_return.
    destruct (calls s !! a) as [c|]; [destruct (Call.completed c)|]; reflexivity.
  - cbn. now rewrite orb_true_r.
Qed.

Lemma step_returned e s :
  (stop (thread_pool s) = false ->
   Forall (fun st => st <> Returned) (workers (thread_pool s))) ->
  stop (thread_pool (fst (step e s))) = false ->
  Forall (fun st => st <> Returned) (workers (thread_pool (fst (step e s)))).
Proof.
  intros Hinv Hstop'.
  assert (Hstop : stop (thread_pool s) = false).
  { rewrite step_stop in Hstop'. now apply orb_false_iff in Hstop' as [? _]. }
  specialize (Hinv Hstop). revert Hstop'.
  destruct e as [request|w|w E|a|]; cbn [step].
  - intros _. exact Hinv.
  - unfold worker_take.
    destruct (workers (thread_pool s) !! w) as [[|t|]|]; cbn; try (intros _; exact Hinv).
    destruct (tasks (thread_pool s)) as [|t rest]; cbn.
    + rewrite Hstop. cbn. intros _. exact Hinv.
    + intros _. apply Forall_insert; [exact Hinv|discriminate].
  - unfold worker_complete.
    destruct (workers (thread_pool s) !! w) as [[|t|]|]; cbn; intros _;
      try exact Hinv.
    apply Forall_insert; [exact Hinv|discriminate].
  - unfold ProcessImage_return.
    destruct (calls s !! a) as [c|]; [destruct (Call.completed c)|];
      intros _; exact Hinv.
  - cbn. discriminate.
Qed.

Lemma run_returned es s :
  (stop (thread_pool s) = false ->
   Forall (fun st => st <> Returned) (workers (thread_pool s))) ->
  stop (thread_pool (fst (run es s))) = stop (thread_pool s) || existsb is_Shutdown es
  /\ (stop (thread_pool (fst (run es s))) = false ->
      Forall (fun st => st <> Returned) (workers (thread_pool (fst (run es s))))).
Proof.
  revert s. induction es as [|e es IH]; intros s Hinv.
  - cbn. rewrite orb_false_r. now split.
  - rewrite run_cons. cbn [fst existsb].
    destruct (IH (fst (step e s)) (step_returned e s Hinv)) as [Hs Hr].
    split; [|exact Hr]. now rewrite Hs, step_stop, orb_assoc.
Qed.

(** X7: [stop] is set exactly when the destructor of the pool has run, and
    no worker leaves its loop before that: in a schedule without
    [Shutdown] every worker is waiting or processing. *)
Theorem workers_leave_only_after_stop (n : nat) es :
  stop (thread_pool (fst (run es (Server_new n)))) = existsb is_Shutdown es
  /\ (existsb is_Shutdown es = false ->
      Forall (fun st => st <> Returned)
             (workers (thread_pool (fst (run es (Server_new n)))))).
Proof.
  destruct (run_returned es (Server_new n)) as [Hs Hr].
  { intros _. cbn. apply Forall_replicate. discriminate. }
  cbn in Hs. split; [exact Hs|]. intros H. apply Hr. now rewrite Hs.
Qed.

End PoolMore.

Lemma workers_leave_only_after_stop_witness :
  Forall (fun st => st <> Returned)
         (workers (thread_pool (fst (run
            [Arrive (Pix:=Sample.bitmap) (Sample.J 1); Take 0; Take 1; Take 0]
            (Server_new 2))))).
Proof.
  apply (workers_leave_only_after_stop (Pix:=Sample.bitmap) 2
           [Arrive (Sample.J 1); Take 0; Take 1; Take 0]).
  reflexivity.
Defined.

Section PoolDrain.

Context {Pix : Type}.
Implicit Types (s : Server) (e : event Pix) (es : list (event Pix)).

Lemma run_app es1 es2 s :
  run (es1 ++ es2) s =
  (fst (run es2 (fst (run es1 s))), snd (run es1 s) ++ snd (run es2 (fst (run es1 s)))).
Proof.
  revert s. induction es1 as [|e es1 IH]; intros s.
  - cbn. now destruct (run es2 s).
  - rewrite <- List.app_comm_cons, !run_cons, IH. cbn [fst snd].
    now rewrite List.app_assoc.
Qed.

(** One round of a waiting worker on a queue that is not empty. *)
Lemma take_complete (w : nat) (E : Engine Pix) s (t : OCRTask.t) (rest : list OCRTask.t) :
  consistent Pix s ->
  workers (thread_pool s) !! w = Some Waiting ->
  tasks (thread_pool s) = t :: rest ->
  consistent Pix (fst (run [Take w; Complete w E] s))
  /\ snd (run [Take w; Complete w E] s) = [Dequeued w t; Processed w t]
  /\ tasks (thread_pool (fst (run [Take w; Complete w E] s))) = rest
  /\ workers (thread_pool (fst (run [Take w; Complete w E] s))) !! w = Some Waiting
  /\ stop (thread_pool (fst (run [Take w; Complete w E] s))) = stop (thread_pool s)
  /\ (forall a, a <> OCRTask.response t ->
        calls (fst (run [Take w; Complete w E] s)) !! a = calls s !! a)
  /\ exists c,
       calls (fst (run [Take w; Complete w E] s)) !! OCRTask.response t = Some c
       /\ Call.completed c = true
       /\ Call.request c = OCRTask.request t.
Proof.
  intros Hs Hw Ht.
  assert (Hlt : (w < length (workers (thread_pool s)))%nat)
    by (eapply lookup_lt_Some; exact Hw).
  set (s1 := {| thread_pool :=
                  {| workers := <[w := Processing t]> (workers (thread_pool s));
                     tasks := rest; stop := stop (thread_pool s) |};
                calls := calls s; next_call := next_call s |}).
  assert (Hstep1 : step (Take (Pix:=Pix) w) s = (s1, [Dequeued w t])).
  { cbn [step]. unfold worker_take. now rewrite Hw, Ht. }
  pose proof (take_consistent w s Hs) as Hs1. rewrite Hstep1 in Hs1. cbn [fst] in Hs1.
  assert (Hw1 : workers (thread_pool s1) !! w = Some (Processing t))
    by (cbn; now apply list_lookup_insert_eq).
  assert (Hin : In t (pending s1)).
  { unfold pending. apply in_or_app. right.
    destruct (held_insert _ w _ (Processing t) Hw) as (A & B & _ & HB).
    cbn [s1 thread_pool workers]. rewrite HB. apply in_or_app. right. now left. }
  destruct (pending_calls Pix s1 Hs1 t Hin) as (Hptr & c & Hc & Hreq & _).
  pose proof (complete_consistent w E s1 Hs1) as Hs2.
  assert (Hrun : run [Take w; Complete w E] s
                 = (fst (worker_complete w E s1), [Dequeued w t; Processed w t])).
  { rewrite run_cons, Hstep1. cbn [fst snd]. rewrite run_cons. cbn [step run fst snd].
    unfold worker_complete. now rewrite Hw1. }
  rewrite Hrun. cbn [fst snd]. split; [exact Hs2|]. split; [reflexivity|].
  unfold worker_complete. rewrite Hw1. cbn [fst thread_pool calls set_worker
    workers tasks stop s1].
  split; [reflexivity|].
  split; [apply list_lookup_insert_eq; now rewrite length_insert|].
  split; [reflexivity|]. split.
  - intros a Ha. rewrite Hptr, !lookup_alter_ne by (symmetry; exact Ha). reflexivity.
  - rewrite Hptr, !lookup_alter_eq. cbn [calls s1] in Hc. rewrite Hc. cbn.
    eexists. split; [reflexivity|]. now split.
Qed.

Lemma drain_consistent (w : nat) (Es : list (Engine Pix)) s :
  consistent Pix s ->
  workers (thread_pool s) !! w = Some Waiting ->
  length Es = length (tasks (thread_pool s)) ->
  consistent Pix (fst (run (drain w Es) s))
  /\ dequeued (snd (run (drain w Es) s)) = tasks (thread_pool s)
  /\ processed (snd (run (drain w Es) s)) = tasks (thread_pool s)
  /\ tasks (thread_pool (fst (run (drain w Es) s))) = []
  /\ workers (thread_pool (fst (run (drain w Es) s))) !! w = Some Waiting
  /\ stop (thread_pool (fst (run (drain w Es) s))) = stop (thread_pool s)
  /\ (forall a, ~ In a (map OCRTask.response (tasks (thread_pool s))) ->
        calls (fst (run (drain w Es) s)) !! a = calls s !! a)
  /\ (forall t, In t (tasks (thread_pool s)) ->
        exists c,
          calls (fst (run (drain w Es) s)) !! OCRTask.response t = Some c
          /\ Call.completed c = true
          /\ Call.request c = OCRTask.request t).
Proof.
  revert s. induction Es as [|E Es IH]; intros s Hs Hw Hlen.
  - destruct (tasks (thread_pool s)) as [|t rest] eqn:Ht; [|discriminate Hlen].
    cbn. split; [exact Hs|]. do 2 (split; [reflexivity|]).
    split; [exact Ht|]. split; [exact Hw|]. split; [reflexivity|].
    split; [reflexivity|]. intros t [].
  - destruct (tasks (thread_pool s)) as [|t rest] eqn:Ht; [discriminate Hlen|].
    change (drain w (E :: Es)) with ([Take w; Complete w E] ++ drain w Es).
    rewrite run_app. cbn [fst snd].
    destruct (take_complete w E s t rest Hs Hw Ht)
      as (Hs2 & Hout & Hrest & Hw2 & Hstop & Hframe & c & Hc & Hflag & Hreq).
    set (s2 := fst (run [Take w; Complete w E] s)) in *.
    assert (Hlen2 : length Es = length (tasks (thread_pool s2)))
      by (rewrite Hrest; cbn in Hlen; lia).
    destruct (IH s2 Hs2 Hw2 Hlen2)
      as (Hs3 & Hd & Hp & Hq & Hw3 & Hstop3 & Hframe3 & Hdone3).
    rewrite Hout, dequeued_app, processed_app, Hd, Hp, Hrest. cbn.
    assert (Hfresh : ~ In (OCRTask.response t) (map OCRTask.response rest)).
    { pose proof (pending_distinct Pix s Hs) as Hnd. unfold pending in Hnd.
      rewrite Ht, map_app in Hnd. cbn in Hnd.
      apply List.NoDup_cons_iff in Hnd as [Hnotin _].
      intros Hin. apply Hnotin, in_or_app. now left. }
    split; [exact Hs3|]. do 2 (split; [reflexivity|]).
    split; [exact Hq|]. split; [exact Hw3|]. split; [now rewrite Hstop3|].
    split.
    + intros a Ha. rewrite Hframe3, Hframe; [reflexivity| |].
      * intros ->. apply Ha. now left.
      * rewrite Hrest. intros Hin. apply Ha. now right.
    + intros t' [<-|Hin].
      * exists c. rewrite Hframe3 by (now rewrite Hrest). now repeat split.
      * apply Hdone3. now rewrite Hrest.
Qed.

(** X8: a worker that keeps running empties the queue, also after [stop]
    has been set.  From any state a schedule reaches, a waiting worker
    that takes and completes as many times as there are queued tasks
    processes them all, in the order of the queue; the queue is then
    empty, the worker waits again, and the call of each of these tasks has
    its flag set and holds the answer to the request of the task. *)
Theorem queued_tasks_drain (n : nat) es (w : nat) (Es : list (Engine Pix)) :
  let s := fst (run es (Server_new n)) in
  workers (thread_pool s) !! w = Some Waiting ->
  length Es = length (tasks (thread_pool s)) ->
  processed (snd (run (drain w Es) s)) = tasks (thread_pool s)
  /\ tasks (thread_pool (fst (run (drain w Es) s))) = []
  /\ workers (thread_pool (fst (run (drain w Es) s))) !! w = Some Waiting
  /\ (forall t, In t (tasks (thread_pool s)) ->
        exists c,
          calls (fst (run (drain w Es) s)) !! OCRTask.response t = Some c
          /\ Call.completed c = true
          /\ answered Pix (OCRTask.request t) (Call.response c)).
Proof.
  intros s Hw Hlen.
  destruct (run_consistent es (Server_new n) (consistent_new n)) as [Hs _].
  fold s in Hs.
  destruct (drain_consistent w Es s Hs Hw Hlen)
    as (Hs' & _ & Hp & Hq & Hw' & _ & _ & Hdone).
  repeat split; try assumption.
  intros t Ht. destruct (Hdone t Ht) as (c & Hc & Hflag & Hreq).
  exists c. split; [exact Hc|]. split; [exact Hflag|].
  rewrite <- Hreq. now apply (calls_answered Pix _ Hs' _ c Hc).
Qed.

End PoolDrain.

Lemma queued_tasks_drain_witness :
  processed (snd (run (drain 0 [Sample.hello; Sample.no_tessdata])
     (fst (run [Arrive (Pix:=Sample.bitmap) (Sample.J 1); Arrive (Sample.J 2); Shutdown]
               (Server_new 1)))))
  = [Sample.task 1 0; Sample.task 2 1].
Proof.
  apply (queued_tasks_drain (Pix:=Sample.bitmap) 1
           [Arrive (Sample.J 1); Arrive (Sample.J 2); Shutdown] 0
           [Sample.hello; Sample.no_tessdata]); reflexivity.
Defined.

Section PoolCounts.

Context {Pix : Type}.
Implicit Types (s : Server) (e : event Pix) (es : list (event Pix)).

Lemma size_alter (f : Call.t -> Call.t) (a : nat) (m : gmap nat Call.t) :
  size (alter f a m) = size m.
Proof.
  rewrite <- !(size_dom (D:=gset nat)). now rewrite dom_alter_L.
Qed.

Lemma step_conserved e s :
  consistent Pix s ->
  (size (calls (fst (step e s))) + length (replied (snd (step e s))))%nat
  = (size (calls s) + length (enqueued (snd (step e s))))%nat.
Proof.
  intros Hs. destruct e as [request|w|w E|a|]; cbn [step].
  - cbn. rewrite map_size_insert_None; [lia|].
    destruct (calls s !! next_call s) as [c|] eqn:Hc; [|reflexivity].
    destruct (calls_answered Pix s Hs _ _ Hc) as [Hlt _]. lia.
  - destruct (worker_take w (thread_pool s)) as [p [t|]]; cbn; lia.
  - unfold worker_complete.
    destruct (workers (thread_pool s) !! w) as [[|t|]|]; cbn; try lia.
    rewrite !size_alter. lia.
  - unfold ProcessImage_return.
    destruct (calls s !! a) as [c|] eqn:Hc; [|cbn; lia].
    destruct (Call.completed c); [|cbn; lia]. cbn.
    rewrite <- (insert_delete_id (calls s) a c Hc) at 2.
    rewrite map_size_insert_None by apply lookup_delete_eq. lia.
  - cbn. lia.
Qed.

Lemma run_conserved es s :
  consistent Pix s ->
  (size (calls (fst (run es s))) + length (replied (snd (run es s))))%nat
  = (size (calls s) + length (enqueued (snd (run es s))))%nat.
Proof.
  revert s. induction es as [|e es IH]; intros s Hs; [cbn; lia|].
  rewrite run_cons. cbn [fst snd].
  destruct (step_consistent e s Hs) as [Hs1 _].
  pose proof (IH _ Hs1) as H2. pose proof (step_conserved e s Hs) as H1.
  rewrite replied_app, enqueued_app, !length_app. lia.
Qed.

(** X9: calls are neither lost nor answered twice.  In every schedule the
    number of calls still in progress plus the number of replies sent is
    the number of calls that arrived; so there are never more replies than
    arrivals. *)
Theorem calls_conserved (n : nat) es :
  (size (calls (fst (run es (Server_new n))))
   + length (replied (snd (run es (Server_new n)))))%nat
  = length (enqueued (snd (run es (Server_new n)))).
Proof.
  rewrite (run_conserved es (Server_new n) (consistent_new n)).
  cbn. now rewrite map_size_empty.
Qed.

Lemma step_addresses e s :
  map OCRTask.response (enqueued (snd (step e s)))
    = seq (next_call s) (length (enqueued (snd (step e s))))
  /\ next_call (fst (step e s))
     = (next_call s + length (enqueued (snd (step e s))))%nat
  /\ Forall (fun t => OCRTask.completed t = OCRTask.response t)
            (enqueued (snd (step e s))).
Proof.
  destruct e as [request|w|w E|a|]; cbn [step].
  - cbn. split; [reflexivity|]. split; [lia|]. now repeat constructor.
  - destruct (worker_take w (thread_pool s)) as [p [t|]]; cbn;
      (split; [reflexivity|split; [lia|constructor]]).
  - unfold worker_complete.
    destruct (workers (thread_pool s) !! w) as [[|t|]|]; cbn;
      (split; [reflexivity|split; [lia|constructor]]).
  - unfold ProcessImage_return.
    destruct (calls s !! a) as [c|]; [destruct (Call.completed c)|]; cbn;
      (split; [reflexivity|split; [lia|constructor]]).
  - cbn. split; [reflexivity|split; [lia|constructor]].
Qed.

Lemma run_addresses es s :
  map OCRTask.response (enqueued (snd (run es s)))
    = seq (next_call s) (length (enqueued (snd (run es s))))
  /\ next_call (fst (run es s))
     = (next_call s + length (enqueued (snd (run es s))))%nat
  /\ Forall (fun t => OCRTask.completed t = OCRTask.response t)
            (enqueued (snd (run es s))).
Proof.
  revert s. induction es as [|e es IH]; intros s.
  - cbn. split; [reflexivity|]. split; [lia|constructor].
  - rewrite run_cons. cbn [fst snd].
    destruct (step_addresses e s) as (Ha1 & Hn1 & Hp1).
    destruct (IH (fst (step e s))) as (Ha2 & Hn2 & Hp2).
    rewrite enqueued_app, map_app, length_app, List.seq_app, Ha1, Ha2, Hn1, Hn2.
    split; [reflexivity|]. split; [lia|]. apply Forall_app. now split.
Qed.

(** X10: every call gets an address of its own.  The tasks pushed carry
    the addresses 0, 1, 2, ... in the order of arrival, the two pointers
    of a task point into the same call, and no address is taken from the
    queue twice. *)
Theorem tasks_carry_fresh_addresses (n : nat) es :
  map OCRTask.response (enqueued (snd (run es (Server_new n))))
    = seq 0 (length (enqueued (snd (run es (Server_new n)))))
  /\ Forall (fun t => OCRTask.completed t = OCRTask.response t)
            (enqueued (snd (run es (Server_new n))))
  /\ List.NoDup (map OCRTask.response (dequeued (snd (run es (Server_new n))))).
Proof.
  destruct (run_addresses es (Server_new n)) as (Ha & _ & Hp).
  split; [exact Ha|]. split; [exact Hp|].
  pose proof (List.seq_NoDup (length (enqueued (snd (run es (Server_new n))))) 0) as Hnd.
  cbn [Server_new next_call] in Ha. rewrite <- Ha in Hnd.
  pose proof (run_fifo es (Server_new n)) as Hq. cbn [Server_new thread_pool
    ThreadPool_new tasks List.app] in Hq. cbn [Server_new] in Hnd.
  rewrite Hq, map_app in Hnd. now apply List.NoDup_app_remove_r in Hnd.
Qed.

Lemma held_two (ws : list worker_state) (w1 w2 : nat) (t1 t2 : OCRTask.t) :
  (w1 < w2)%nat ->
  ws !! w1 = Some (Processing t1) -> ws !! w2 = Some (Processing t2) ->
  exists A B C, flat_map held ws = A ++ t1 :: B ++ t2 :: C.
Proof.
  intros Hlt H1 H2.
  assert (H2' : drop (S w1) ws !! (w2 - S w1)%nat = Some (Processing t2)).
  { rewrite lookup_drop. now replace (S w1 + (w2 - S w1))%nat with w2 by lia. }
  exists (flat_map held (take w1 ws)),
         (flat_map held (take (w2 - S w1) (drop (S w1) ws))),
         (flat_map held (drop (S (w2 - S w1)) (drop (S w1) ws))).
  rewrite <- (take_drop_middle ws w1 _ H1) at 1.
  rewrite flat_map_app. cbn [flat_map held List.app]. f_equal. f_equal.
  rewrite <- (take_drop_middle _ _ _ H2') at 1.
  rewrite flat_map_app. reflexivity.
Qed.

Lemma held_lookup (ws : list worker_state) (w : nat) (t : OCRTask.t) :
  ws !! w = Some (Processing t) -> In t (flat_map held ws).
Proof.
  intros H. destruct (held_insert ws w _ Waiting H) as (A & B & -> & _).
  apply in_or_app. right. now left.
Qed.

Lemma NoDup_two (A B C : list nat) (x y : nat) :
  List.NoDup (A ++ x :: B ++ y :: C) -> x <> y.
Proof.
  intros H. apply List.NoDup_remove_2 in H. intros ->. apply H.
  apply in_or_app. right. apply in_or_app. right. now left.
Qed.

(** X11: no task is in two hands.  In every state a schedule reaches, two
    different workers hold tasks of different calls, and the call of a
    task that a worker holds has no task left in the queue. *)
Theorem workers_hold_distinct_calls (n : nat) es (w1 w2 : nat) (t1 t2 : OCRTask.t) :
  let s := fst (run es (Server_new n)) in
  workers (thread_pool s) !! w1 = Some (Processing t1) ->
  workers (thread_pool s) !! w2 = Some (Processing t2) ->
  w1 <> w2 ->
  OCRTask.response t1 <> OCRTask.response t2
  /\ ~ In (OCRTask.response t1) (map OCRTask.response (tasks (thread_pool s))).
Proof.
  intros s H1 H2 Hne.
  destruct (run_consistent es (Server_new n) (consistent_new n)) as [Hs _].
  fold s in Hs. pose proof (pending_distinct Pix s Hs) as Hnd.
  unfold pending in Hnd. rewrite map_app in Hnd. split.
  - apply List.NoDup_app_remove_l in Hnd.
    destruct (Nat.lt_total w1 w2) as [Hlt|[Heq|Hlt]]; [|congruence|].
    + destruct (held_two _ _ _ _ _ Hlt H1 H2) as (A & B & C & HABC).
      rewrite HABC, map_app in Hnd. cbn [map] in Hnd.
      rewrite map_app in Hnd. cbn [map] in Hnd. now apply NoDup_two in Hnd.
    + destruct (held_two _ _ _ _ _ Hlt H2 H1) as (A & B & C & HABC).
      rewrite HABC, map_app in Hnd. cbn [map] in Hnd.
      rewrite map_app in Hnd. cbn [map] in Hnd.
      apply NoDup_two in Hnd. congruence.
  - intros Hin. apply held_lookup in H1.
    apply (in_map OCRTask.response) in H1.
    apply in_split in Hin as (Q1 & Q2 & HQ). rewrite HQ in Hnd.
    rewrite <- List.app_assoc in Hnd. cbn in Hnd.
    apply List.NoDup_remove_2 in Hnd. apply Hnd.
    apply in_or_app. right. apply in_or_app. now right.
Qed.

End PoolCounts.

Lemma workers_hold_distinct_calls_witness :
  OCRTask.response (Sample.task 1 0) <> OCRTask.response (Sample.task 2 1).
Proof.
  apply (workers_hold_distinct_calls (Pix:=Sample.bitmap) 2
           [Arrive (Sample.J 1); Arrive (Sample.J 2); Take 0; Take 1]
           0 1 (Sample.task 1 0) (Sample.task 2 1)); [reflexivity|reflexivity|lia].
Defined.

(** ** The client, [src/client/client.cpp] *)

Section ClientCall.

Variable Q : Client.Qt.

(** X12: against this server the thread of the client reports a result,
    not an error.  When the stub delivers, for the request the thread
    builds, a reply that some schedule of the server produced, the thread
    emits [resultReady] with its own id and file name and the text, time
    and image of that reply; the text is not empty and is the text of a
    run of [process_image] on the image data of the thread. *)
Theorem client_reports_server_reply (Pix : Type) (n : nat) (es : list (event Pix))
    (th : Client.ProcessThread Q) (stub : ImageRequest.t -> Client.rpc)
    (uninitialized : spec_float) (response : OCRResponse.t) (status : Status) :
  let request := {| ImageRequest.filename := Client.toStdString Q (Client.filename Q th);
                    ImageRequest.image_data := Client.image_data Q th;
                    ImageRequest.batch_id := Client.batch_id Q th;
                    ImageRequest.image_id := Client.image_id Q th |} in
  In (Replied request response status) (snd (run es (Server_new n))) ->
  stub request = Client.Stream [response] status ->
  Client.ProcessThread_run Q stub uninitialized th
    = Client.resultReady Q (Client.image_id Q th) (Client.filename Q th)
        (Client.fromStdString Q (OCRResponse.extracted_text response))
        (OCRResponse.processing_time_ms response)
        (OCRResponse.processed_image response)
  /\ OCRResponse.extracted_text response <> []
  /\ exists E : Engine Pix,
       OCRResponse.extracted_text response
       = text (process_image E (Client.image_data Q th)).
Proof.
  intros request Hin Hstub.
  destruct (replies_answered n es _ _ _ Hin) as (-> & E & t & r0 & _ & Hresp).
  split; [|split].
  - unfold Client.ProcessThread_run, Client.ProcessImage. fold request.
    now rewrite Hstub.
  - rewrite Hresp. cbn. apply process_image_text_nonempty.
  - exists E. now rewrite Hresp.
Qed.

(** X13: the thread emits exactly one signal, with its own id and file
    name, and it is [resultReady] exactly when the stub delivers a first
    message and finishes with [OK]; the text is that of the first message.
    No message, another status or an exception give [processingError]. *)
Theorem signal_is_result_iff_delivered (stub : ImageRequest.t -> Client.rpc)
    (uninitialized : spec_float) (th : Client.ProcessThread Q) :
  let request := {| ImageRequest.filename := Client.toStdString Q (Client.filename Q th);
                    ImageRequest.image_data := Client.image_data Q th;
                    ImageRequest.batch_id := Client.batch_id Q th;
                    ImageRequest.image_id := Client.image_id Q th |} in
  (forall r rest,
     stub request = Client.Stream (r :: rest) Status_OK ->
     Client.ProcessThread_run Q stub uninitialized th
     = Client.resultReady Q (Client.image_id Q th) (Client.filename Q th)
         (Client.fromStdString Q (OCRResponse.extracted_text r))
         (OCRResponse.processing_time_ms r) (OCRResponse.processed_image r))
  /\ ((forall r rest, stub request <> Client.Stream (r :: rest) Status_OK) ->
      exists error,
        Client.ProcessThread_run Q stub uninitialized th
        = Client.processingError Q (Client.image_id Q th) (Client.filename Q th) error).
Proof.
  intros request. unfold Client.ProcessThread_run, Client.ProcessImage.
  fold request. split.
  - intros r rest ->. reflexivity.
  - intros Hno. destruct (stub request) as [[|r rest] [|code]|what]; eauto.
    now destruct (Hno r rest).
Qed.

(** X14: a widget never shows more than 30 code units of text.  A result
    of up to 30 is shown as it is, a longer one as its first 27 followed
    by three dots, which makes 30; an error is shown as its first 30,
    which is all of it when it has no more. *)
Theorem label_text_bounded (text : Client.QString Q) (image : list Byte.byte)
    (w : Client.ResultWidget Q) :
  (length (Client.textLabel Q (Client.setResult Q text image w)) <= 30)%nat
  /\ (length (Client.textLabel Q (Client.setError Q text w)) <= 30)%nat
  /\ Client.textLabel Q (Client.setError Q text w) = firstn 30 text
  /\ ((length text <= 30)%nat ->
      Client.textLabel Q (Client.setResult Q text image w) = text
      /\ Client.textLabel Q (Client.setError Q text w) = text)
  /\ ((30 < length text)%nat ->
      Client.textLabel Q (Client.setResult Q text image w)
      = firstn 27 text ++ Client.qlit Q "..."
      /\ length (Client.textLabel Q (Client.setResult Q text image w)) = 30%nat
      /\ length (Client.textLabel Q (Client.setError Q text w)) = 30%nat).
Proof.
  cbn [Client.setResult Client.setError Client.textLabel].
  unfold Client.displayText, Client.left.
  assert (Hdots : length (firstn 27 text ++ Client.qlit Q "...")
                  = (Nat.min 27 (length text) + 3)%nat).
  { rewrite length_app, List.length_firstn. unfold Client.qlit. rewrite length_map.
    reflexivity. }
  destruct (Nat.ltb 30 (length text)) eqn:Hlt.
  - apply Nat.ltb_lt in Hlt. split; [|split; [|split; [|split]]].
    + rewrite Hdots. lia.
    + rewrite List.length_firstn. lia.
    + reflexivity.
    + lia.
    + intros _. split; [reflexivity|]. split.
      * rewrite Hdots. lia.
      * rewrite List.length_firstn. lia.
  - apply Nat.ltb_ge in Hlt. split; [|split; [|split; [|split]]].
    + exact Hlt.
    + rewrite List.length_firstn. lia.
    + reflexivity.
    + intros _. split; [reflexivity|]. now apply List.firstn_all2.
    + lia.
Qed.

End ClientCall.

Lemma client_reports_server_reply_witness :
  Client.ProcessThread_run Client.ascii_qt (Client.one_response (Sample.reply 1))
    (S754_zero false) Client.sample_thread
  = Client.resultReady Client.ascii_qt 1 (Text.lit "scan.png") (Text.lit "HELLO")
      (S754_zero false) Sample.png.
Proof.
  apply (client_reports_server_reply Client.ascii_qt Sample.bitmap 1
           Sample.three_jobs Client.sample_thread
           (Client.one_response (Sample.reply 1)) (S754_zero false)
           (Sample.reply 1) Status_OK).
  - vm_compute. repeat (first [left; reflexivity | right]).
  - reflexivity.
Defined.

Lemma signal_is_result_iff_delivered_witness :
  (exists error,
      Client.ProcessThread_run Client.ascii_qt (fun _ => Client.Stream [] Status_OK)
        (S754_zero false) Client.sample_thread
      = Client.processingError Client.ascii_qt 1 (Text.lit "scan.png") error)
  /\ Client.ProcessThread_run Client.ascii_qt
       (fun _ => Client.Stream [Sample.reply 1; Sample.reply 2] Status_OK)
       (S754_zero false) Client.sample_thread
     = Client.resultReady Client.ascii_qt 1 (Text.lit "scan.png") (Text.lit "HELLO")
         (S754_zero false) Sample.png.
Proof.
  split.
  - apply (signal_is_result_iff_delivered Client.ascii_qt
             (fun _ => Client.Stream [] Status_OK) (S754_zero false)
             Client.sample_thread).
    intros r rest. discriminate.
  - destruct (signal_is_result_iff_delivered Client.ascii_qt
             (fun _ => Client.Stream [Sample.reply 1; Sample.reply 2] Status_OK)
             (S754_zero false) Client.sample_thread) as [H _].
    apply (H (Sample.reply 1) [Sample.reply 2]). reflexivity.
Defined.

Lemma label_text_bounded_witness :
  Client.textLabel Client.ascii_qt
    (Client.setResult Client.ascii_qt INIT_FAILED [] (Client.ResultWidget_new Client.ascii_qt))
  = Text.lit "[ERROR: Tesseract initializ..."
  /\ Client.textLabel Client.ascii_qt
       (Client.setError Client.ascii_qt INIT_FAILED (Client.ResultWidget_new Client.ascii_qt))
     = Text.lit "[ERROR: Tesseract initializati".
Proof.
  destruct (label_text_bounded Client.ascii_qt INIT_FAILED []
              (Client.ResultWidget_new Client.ascii_qt)) as (_ & _ & Herr & _ & Hlong).
  destruct Hlong as (Hres & _ & _); [vm_compute; lia|].
  split; [exact Hres|exact Herr].
Defined.

Section ClientWindow.

Variable Q : Client.Qt.

Import Client.

Lemma coherent_new : coherent Q (Gui_new Q).
Proof.
  split; cbn.
  - split; lia.
  - intros id. rewrite lookup_empty. split; [intros [? ?]; discriminate|lia].
  - constructor.
  - intros th [].
  - intros id wd H. rewrite lookup_empty in H. discriminate H.
  - split; [reflexivity|constructor].
Qed.

Lemma total_nonneg (g : Gui Q) :
  coherent Q g -> (0 <= total_images Q (window Q g))%Z.
Proof. intros [[H1 H2] _ _ _ _ _]. lia. Qed.

Lemma running_in_range (g : Gui Q) (th : ProcessThread Q) :
  coherent Q g -> In th (running Q g) ->
  (0 <= image_id Q th < total_images Q (window Q g))%Z.
Proof.
  intros Hg Hin.
  destruct (running_shown Q g Hg th Hin) as (_ & wd & Hwd & _).
  apply (widgets_of_batch Q g Hg). now exists wd.
Qed.

(** Coherence does not look at the progress bar nor at [active_threads]. *)
Lemma coherent_ext (g g' : Gui Q) :
  completed_images Q (window Q g') = completed_images Q (window Q g) ->
  total_images Q (window Q g') = total_images Q (window Q g) ->
  current_batch_id Q (window Q g') = current_batch_id Q (window Q g) ->
  resultWidgets Q (window Q g') = resultWidgets Q (window Q g) ->
  resultsLayout Q (window Q g') = resultsLayout Q (window Q g) ->
  running Q g' = running Q g ->
  coherent Q g -> coherent Q g'.
Proof.
  intros Hc Ht Hb Hw Hl Hr [H1 H2 H3 H4 H5 H6].
  split; rewrite ?Hc, ?Ht, ?Hb, ?Hw, ?Hl, ?Hr; assumption.
Qed.

Lemma clear_coherent (g : Gui Q) (b : Z) :
  coherent Q g ->
  completed_images Q (window Q g) = total_images Q (window Q g) ->
  coherent Q (with_window Q
    (clearResults Q
       {| current_batch_id := b;
          total_images := total_images Q (window Q g);
          completed_images := completed_images Q (window Q g);
          active_threads := active_threads Q (window Q g);
          resultWidgets := resultWidgets Q (window Q g);
          resultsLayout := resultsLayout Q (window Q g);
          progressBar := progressBar Q (window Q g) |}) g).
Proof.
  intros [[H1a H1b] _ _ _ _ _] Hdone.
  assert (Hr : running Q g = []).
  { destruct (running Q g) as [|th r]; [reflexivity|]. cbn [length] in H1b. lia. }
  split; cbn; rewrite ?Hr; cbn.
  - split; lia.
  - intros id. rewrite lookup_empty. split; [intros [? ?]; discriminate|lia].
  - constructor.
  - intros th [].
  - intros id wd H. rewrite lookup_empty in H. discriminate H.
  - split; [reflexivity|constructor].
Qed.

Lemma count_and_show_coherent (g : Gui Q) (k : nat) (th : ProcessThread Q)
    (f : ResultWidget Q -> ResultWidget Q) :
  coherent Q g -> running Q g !! k = Some th ->
  (forall wd, isProcessing Q (f wd) = false) ->
  coherent Q {| window := count_and_show Q (image_id Q th) f (window Q g);
                running := delete k (running Q g) |}.
Proof.
  intros Hg Hk Hf. pose proof Hg as [[H1a H1b] H2 H3 H4 H5 H6].
  pose proof (take_drop_middle _ _ _ Hk) as Hsplit.
  set (A := take k (running Q g)) in *. set (B := drop (S k) (running Q g)) in *.
  assert (Hdel : delete k (running Q g) = A ++ B) by apply delete_take_drop.
  rewrite <- Hsplit in H1b, H3.
  rewrite map_app in H3. cbn [map] in H3.
  pose proof (List.NoDup_remove_1 _ _ _ H3) as Hnd.
  pose proof (List.NoDup_remove_2 _ _ _ H3) as Hnotin.
  rewrite <- map_app in Hnd, Hnotin.
  assert (Hsub : forall th', In th' (A ++ B) -> In th' (running Q g)).
  { intros th'. rewrite <- Hsplit, !in_app_iff. cbn. tauto. }
  split; cbn [window running count_and_show completed_images total_images
              current_batch_id resultWidgets resultsLayout]; rewrite ?Hdel.
  - rewrite length_app in *. cbn [length] in H1b. split; lia.
  - intros id. now rewrite lookup_alter_is_Some.
  - exact Hnd.
  - intros th' Hin. destruct (H4 th' (Hsub th' Hin)) as (Hb & wd & Hwd & Hp).
    split; [exact Hb|]. exists wd. split; [|exact Hp].
    rewrite lookup_alter_ne; [exact Hwd|].
    intros Heq. apply Hnotin. rewrite Heq. now apply in_map.
  - intros id wd Hl Hp. apply lookup_alter_Some in Hl as [(<- & x & _ & ->)|(Hne & Hl)].
    + now rewrite Hf in Hp.
    + pose proof (H5 id wd Hl Hp) as Hin. rewrite <- Hsplit in Hin.
      rewrite map_app in Hin |- *. cbn [map] in Hin.
      apply in_app_or in Hin as [Hin|[Heq|Hin]];
        [apply in_or_app; now left|now destruct Hne|apply in_or_app; now right].
  - exact H6.
Qed.

Lemma deliver_coherent (g : Gui Q) (k : nat) (th : ProcessThread Q)
    (stub : ImageRequest.t -> rpc) (u : spec_float) :
  coherent Q g -> running Q g !! k = Some th ->
  coherent Q {| window := fst (deliver Q (ProcessThread_run Q stub u th) (window Q g));
                running := delete k (running Q g) |}.
Proof.
  intros Hg Hk.
  assert (Hcases :
    exists f, (forall wd, isProcessing Q (f wd) = false)
      /\ fst (deliver Q (ProcessThread_run Q stub u th) (window Q g))
         = updateProgress Q (count_and_show Q (image_id Q th) f (window Q g))).
  { unfold ProcessThread_run.
    destruct (ProcessImage _ _ _ _ _ _) as [[[|] out]|what]; cbn [deliver];
      eexists; (split; [|reflexivity]); reflexivity. }
  destruct Hcases as (f & Hf & ->).
  eapply coherent_ext; [..|exact (count_and_show_coherent g k th f Hg Hk Hf)];
    reflexivity.
Qed.

Lemma deliver_up_to_date (sig : signal Q) (w : OCRWindow Q) :
  up_to_date Q (fst (deliver Q sig w)).
Proof. destruct sig; reflexivity. Qed.

Lemma finish_coherent (k : nat) (stub : ImageRequest.t -> rpc) (u : spec_float)
    (g : Gui Q) :
  coherent Q g -> coherent Q (fst (finish Q k stub u g)).
Proof.
  intros Hg. unfold finish. destruct (running Q g !! k) as [th|] eqn:Hk; [|exact Hg].
  pose proof (deliver_coherent g k th stub u Hg Hk) as H1.
  now destruct (deliver Q (ProcessThread_run Q stub u th) (window Q g)).
Qed.

Lemma finish_up_to_date (k : nat) (stub : ImageRequest.t -> rpc) (u : spec_float)
    (g : Gui Q) :
  up_to_date Q (window Q g) -> up_to_date Q (window Q (fst (finish Q k stub u g))).
Proof.
  intros Hp. unfold finish. destruct (running Q g !! k) as [th|]; [|exact Hp].
  pose proof (deliver_up_to_date (ProcessThread_run Q stub u th) (window Q g)) as H1.
  now destruct (deliver Q (ProcessThread_run Q stub u th) (window Q g)).
Qed.

Lemma finish_all_cons (k : nat) (stub : ImageRequest.t -> rpc) (u : spec_float)
    (arrivals : list arrival) (g : Gui Q) :
  finish_all Q (Arrives k stub u :: arrivals) g =
  (fst (finish_all Q arrivals (fst (finish Q k stub u g))),
   snd (finish Q k stub u g) ++ snd (finish_all Q arrivals (fst (finish Q k stub u g)))).
Proof.
  cbn [finish_all]. destruct (finish Q k stub u g) as [g1 out1]. cbn [fst snd].
  now destruct (finish_all Q arrivals g1).
Qed.

Lemma finish_all_coherent (arrivals : list arrival) (g : Gui Q) :
  coherent Q g -> coherent Q (fst (finish_all Q arrivals g)).
Proof.
  revert g. induction arrivals as [|[k stub u] arrivals IH]; intros g Hg; [exact Hg|].
  rewrite finish_all_cons. cbn [fst]. apply IH. now apply finish_coherent.
Qed.

Lemma upload_one_coherent (g : Gui Q) (f : picked Q) :
  coherent Q g -> coherent Q (fst (upload_one Q g f)).
Proof.
  intros Hg. unfold upload_one. destruct (content Q f) as [data|].
  2:{ pose proof (finish_all_coherent (meanwhile Q f) g Hg) as H.
      now destruct (finish_all Q (meanwhile Q f) g). }
  cbn [fst]. pose proof (total_nonneg g Hg) as Hpos.
  pose proof Hg as [[H1a H1b] H2 H3 H4 H5 [H6a H6b]].
  set (th := {| filename := basename Q f; image_data := data;
                batch_id := current_batch_id Q (window Q g);
                image_id := total_images Q (window Q g) |}).
  assert (Hfresh : forall th', In th' (running Q g) ->
            image_id Q th' <> total_images Q (window Q g)).
  { intros th' Hin. pose proof (running_in_range g th' Hg Hin). lia. }
  split; cbn [window running completed_images total_images current_batch_id
              resultWidgets resultsLayout].
  - rewrite length_app. cbn [length]. split; lia.
  - intros id. rewrite lookup_insert_is_Some', H2. lia.
  - rewrite map_app. cbn [map].
    eapply Permutation_NoDup; [apply Permutation_cons_append|].
    constructor; [|exact H3].
    intros Hin. apply in_map_iff in Hin as (th' & Heq & Hin).
    now apply (Hfresh th' Hin).
  - intros th' Hin. apply in_app_or in Hin as [Hin|[<-|[]]].
    + destruct (H4 th' Hin) as (Hb & wd & Hwd & Hp). split; [exact Hb|].
      exists wd. rewrite lookup_insert_ne by (symmetry; now apply Hfresh).
      now split.
    + split; [reflexivity|]. exists (ResultWidget_new Q).
      cbn [image_id th]. rewrite lookup_insert_eq. now split.
  - intros id wd. rewrite map_app. cbn [map]. intros Hl Hp.
    apply in_or_app.
    destruct (decide (total_images Q (window Q g) = id)) as [<-|Hne].
    + right. now left.
    + left. rewrite lookup_insert_ne in Hl by exact Hne. now apply (H5 id wd).
  - split.
    + rewrite map_app, H6a. cbn [map widget_id].
      replace (Z.to_nat (total_images Q (window Q g) + 1))
        with (S (Z.to_nat (total_images Q (window Q g)))) by lia.
      rewrite List.seq_S, map_app. cbn [map]. f_equal. f_equal. lia.
    + apply Forall_app. split; [exact H6b|]. constructor; [|constructor].
      now split.
Qed.

Lemma upload_all_cons (g : Gui Q) (f : picked Q) (fs : list (picked Q)) :
  upload_all Q g (f :: fs) =
  (fst (upload_all Q (fst (upload_one Q g f)) fs),
   snd (upload_one Q g f) ++ snd (upload_all Q (fst (upload_one Q g f)) fs)).
Proof.
  cbn [upload_all]. destruct (upload_one Q g f) as [g1 out1]. cbn [fst snd].
  now destruct (upload_all Q g1 fs).
Qed.

Lemma upload_all_coherent (fs : list (picked Q)) (g : Gui Q) :
  coherent Q g -> coherent Q (fst (upload_all Q g fs)).
Proof.
  revert g. induction fs as [|f fs IH]; intros g Hg; [exact Hg|].
  rewrite upload_all_cons. cbn [fst]. apply IH. now apply upload_one_coherent.
Qed.

(** The slots leave the window coherent and the progress bar up to date. *)
Lemma gui_step_coherent (e : gui_event Q) (g : Gui Q) :
  coherent Q g -> up_to_date Q (window Q g) ->
  coherent Q (fst (gui_step Q e g))
  /\ up_to_date Q (window Q (fst (gui_step Q e g))).
Proof.
  intros Hg Hp. destruct e as [filenames|k stub u]; cbn [gui_step].
  - unfold onUploadClicked. destruct filenames as [|f fs]; [now split|].
    cbv zeta.
    match goal with |- context [with_window Q ?w g] => set (w0 := w) end.
    assert (H0 : coherent Q (with_window Q w0 g)).
    { unfold w0.
      destruct ((0 <? total_images Q (window Q g))%Z
                && (completed_images Q (window Q g) =? total_images Q (window Q g))%Z)
        eqn:Hc.
      - apply andb_true_iff in Hc as [_ Hc]. apply Z.eqb_eq in Hc.
        now apply clear_coherent.
      - eapply coherent_ext; [..|exact Hg]; reflexivity. }
    pose proof (upload_all_coherent (f :: fs) _ H0) as H1.
    destruct (upload_all Q (with_window Q w0 g) (f :: fs)) as [g' out].
    cbn [fst] in *. split; [|reflexivity].
    eapply coherent_ext; [..|exact H1]; reflexivity.
  - split; [now apply finish_coherent|now apply finish_up_to_date].
Qed.

Lemma gui_run_cons (e : gui_event Q) (es : list (gui_event Q)) (g : Gui Q) :
  gui_run Q (e :: es) g =
  (fst (gui_run Q es (fst (gui_step Q e g))),
   snd (gui_step Q e g) ++ snd (gui_run Q es (fst (gui_step Q e g)))).
Proof.
  cbn [gui_run]. destruct (gui_step Q e g) as [g1 out1]. cbn [fst snd].
  now destruct (gui_run Q es g1).
Qed.

Lemma gui_run_coherent (es : list (gui_event Q)) (g : Gui Q) :
  coherent Q g -> up_to_date Q (window Q g) ->
  coherent Q (fst (gui_run Q es g))
  /\ up_to_date Q (window Q (fst (gui_run Q es g))).
Proof.
  revert g. induction es as [|e es IH]; intros g Hg Hp; [now split|].
  rewrite gui_run_cons. cbn [fst].
  destruct (gui_step_coherent e g Hg Hp) as [Hg1 Hp1]. now apply IH.
Qed.

End ClientWindow.

Section ClientWindowProperties.

Variable Q : Client.Qt.

Import Client.

Lemma percent_bounds (c t : Z) :
  (0 <= c <= t)%Z -> (0 < t)%Z ->
  (0 <= (c * 100) ÷ t <= 100)%Z /\ ((c * 100) ÷ t = 100 <-> c = t)%Z.
Proof.
  intros Hc Ht. rewrite Z.quot_div_nonneg by lia.
  assert (H0 : (0 <= c * 100 / t)%Z) by (apply Z.div_pos; lia).
  assert (H1 : (c * 100 / t <= 100)%Z) by (apply Z.div_le_upper_bound; lia).
  split; [lia|]. split.
  - intros Heq. destruct (Z.eq_dec c t) as [|Hne]; [assumption|].
    assert (c * 100 / t < 100)%Z by (apply Z.div_lt_upper_bound; lia). lia.
  - intros ->. rewrite Z.mul_comm. apply Z.div_mul. lia.
Qed.

(** What an upload or an arrival does to the counters: the thread that
    leaves [running] is the image that [completed_images] counts. *)
Lemma finish_counts (k : nat) (stub : ImageRequest.t -> rpc) (u : spec_float)
    (g : Gui Q) :
  let g' := fst (finish Q k stub u g) in
  total_images Q (window Q g') = total_images Q (window Q g)
  /\ current_batch_id Q (window Q g') = current_batch_id Q (window Q g)
  /\ (completed_images Q (window Q g') + Z.of_nat (length (running Q g'))
      = completed_images Q (window Q g) + Z.of_nat (length (running Q g)))%Z
  /\ (completed_images Q (window Q g) <= completed_images Q (window Q g'))%Z
  /\ List.filter (is_warning Q) (snd (finish Q k stub u g)) = [].
Proof.
  unfold finish. destruct (running Q g !! k) as [th|] eqn:Hk.
  2:{ cbn. repeat split; lia. }
  pose proof (lookup_lt_Some _ _ _ Hk) as Hlt.
  pose proof (length_delete (running Q g) k ltac:(now exists th)) as Hlen.
  unfold ProcessThread_run.
  destruct (ProcessImage _ _ _ _ _ _) as [[[|] out]|what]; cbn [deliver];
    unfold onResultReady, onProcessingError; cbv zeta;
    cbn [fst snd window running updateProgress count_and_show total_images
         completed_images current_batch_id];
    (split; [reflexivity|]); (split; [reflexivity|]); (split; [lia|]);
    (split; [lia|]); try reflexivity.
  now destruct (_ =? _)%Z.
Qed.

Lemma finish_all_counts (arrivals : list arrival) (g : Gui Q) :
  let g' := fst (finish_all Q arrivals g) in
  total_images Q (window Q g') = total_images Q (window Q g)
  /\ current_batch_id Q (window Q g') = current_batch_id Q (window Q g)
  /\ (completed_images Q (window Q g') + Z.of_nat (length (running Q g'))
      = completed_images Q (window Q g) + Z.of_nat (length (running Q g)))%Z
  /\ (completed_images Q (window Q g) <= completed_images Q (window Q g'))%Z
  /\ List.filter (is_warning Q) (snd (finish_all Q arrivals g)) = [].
Proof.
  revert g. induction arrivals as [|[k stub u] arrivals IH]; intros g.
  - cbn. repeat split; lia.
  - rewrite finish_all_cons. cbn [fst snd].
    destruct (finish_counts k stub u g) as (Ht & Hb & Hc & Hm & Hw).
    destruct (IH (fst (finish Q k stub u g))) as (Ht' & Hb' & Hc' & Hm' & Hw').
    cbv zeta in *. rewrite List.filter_app, Hw, Hw'.
    repeat split; [congruence|congruence|lia|lia].
Qed.


Lemma upload_one_counts (g : Gui Q) (f : picked Q) :
  let g' := fst (upload_one Q g f) in
  let n := Z.of_nat (if opens Q f then 1 else 0) in
  let warnings :=
    if opens Q f then [] else [warning Q (qlit Q "Could not open file: " ++ path Q f)] in
  total_images Q (window Q g') = (total_images Q (window Q g) + n)%Z
  /\ current_batch_id Q (window Q g') = current_batch_id Q (window Q g)
  /\ (completed_images Q (window Q g') + Z.of_nat (length (running Q g'))
      = completed_images Q (window Q g) + Z.of_nat (length (running Q g)) + n)%Z
  /\ (completed_images Q (window Q g) <= completed_images Q (window Q g'))%Z
  /\ List.filter (is_warning Q) (snd (upload_one Q g f)) = warnings
  /\ (meanwhile Q f = [] ->
      completed_images Q (window Q g') = completed_images Q (window Q g)
      /\ snd (upload_one Q g f) = warnings).
Proof.
  unfold upload_one, opens. destruct (content Q f) as [data|].
  - cbn [fst snd window running total_images completed_images current_batch_id].
    rewrite length_app. cbn. repeat split; lia.
  - destruct (finish_all_counts (meanwhile Q f) g) as (Ht & Hb & Hc & Hm & Hw).
    cbv zeta in *.
    assert (Hnone : meanwhile Q f = [] -> finish_all Q (meanwhile Q f) g = (g, []))
      by (intros ->; reflexivity).
    destruct (finish_all Q (meanwhile Q f) g) as [g1 out1]. cbn [fst snd] in *.
    cbn [List.filter is_warning]. rewrite Hw.
    split; [lia|]. split; [congruence|]. split; [lia|]. split; [lia|].
    split; [reflexivity|].
    intros Hempty. specialize (Hnone Hempty). injection Hnone as -> ->.
    split; reflexivity.
Qed.

Lemma upload_all_counts (fs : list (picked Q)) (g : Gui Q) :
  let g' := fst (upload_all Q g fs) in
  let readable := Z.of_nat (length (List.filter (opens Q) fs)) in
  let warnings :=
    map (fun f => warning Q (qlit Q "Could not open file: " ++ path Q f))
        (List.filter (fun f => negb (opens Q f)) fs) in
  total_images Q (window Q g') = (total_images Q (window Q g) + readable)%Z
  /\ current_batch_id Q (window Q g') = current_batch_id Q (window Q g)
  /\ (completed_images Q (window Q g') + Z.of_nat (length (running Q g'))
      = completed_images Q (window Q g) + Z.of_nat (length (running Q g)) + readable)%Z
  /\ (completed_images Q (window Q g) <= completed_images Q (window Q g'))%Z
  /\ List.filter (is_warning Q) (snd (upload_all Q g fs)) = warnings
  /\ (Forall (fun f => meanwhile Q f = []) fs ->
      completed_images Q (window Q g') = completed_images Q (window Q g)
      /\ snd (upload_all Q g fs) = warnings).
Proof.
  revert g. induction fs as [|f fs IH]; intros g.
  - cbn. repeat split; lia.
  - rewrite upload_all_cons. cbn [fst snd List.filter].
    destruct (upload_one_counts g f) as (Ht & Hb & Hc & Hm & Hw & Hq).
    destruct (IH (fst (upload_one Q g f))) as (Ht' & Hb' & Hc' & Hm' & Hw' & Hq').
    cbv zeta in *. rewrite List.filter_app, Hw, Hw'.
    split; [|split; [|split; [|split; [|split]]]].
    + destruct (opens Q f); cbn [length] in *; lia.
    + congruence.
    + destruct (opens Q f); cbn [length] in *; lia.
    + lia.
    + now destruct (opens Q f).
    + intros Hall. apply Forall_cons in Hall as [Hf Hfs].
      destruct (Hq Hf) as [Hq1 Hq2]. destruct (Hq' Hfs) as [Hq1' Hq2'].
      rewrite Hq2, Hq2'. split; [congruence|]. now destruct (opens Q f).
Qed.

(** An upload of at least one file. *)
Lemma upload_counts (g : Gui Q) (fs : list (picked Q)) :
  let w := window Q g in
  let g' := fst (onUploadClicked Q fs g) in
  let out := snd (onUploadClicked Q fs g) in
  let complete :=
    (0 <? total_images Q w)%Z && (completed_images Q w =? total_images Q w)%Z in
  let readable := Z.of_nat (length (List.filter (opens Q) fs)) in
  let warnings :=
    map (fun f => warning Q (qlit Q "Could not open file: " ++ path Q f))
        (List.filter (fun f => negb (opens Q f)) fs) in
  fs <> [] ->
  current_batch_id Q (window Q g')
    = (if complete then current_batch_id Q w + 1 else current_batch_id Q w)%Z
  /\ total_images Q (window Q g')
     = ((if complete then 0 else total_images Q w) + readable)%Z
  /\ (completed_images Q (window Q g') + Z.of_nat (length (running Q g'))
      = (if complete then 0 else completed_images Q w)
        + Z.of_nat (length (running Q g)) + readable)%Z
  /\ ((if complete then 0 else completed_images Q w) <= completed_images Q (window Q g'))%Z
  /\ List.filter (is_warning Q) out = warnings
  /\ (Forall (fun f => meanwhile Q f = []) fs ->
      completed_images Q (window Q g') = (if complete then 0 else completed_images Q w)%Z
      /\ out = warnings).
Proof.
  intros w g' out complete readable warnings Hne.
  unfold g', out, onUploadClicked. destruct fs as [|f fs]; [congruence|]. cbv zeta.
  fold w. fold complete.
  match goal with |- context [with_window Q ?w0 g] => set (w1 := w0) end.
  destruct (upload_all_counts (f :: fs) (with_window Q w1 g))
    as (Ht & Hb & Hc & Hm & Hw & Hq).
  fold readable warnings in Ht, Hc, Hw, Hq.
  destruct (upload_all Q (with_window Q w1 g) (f :: fs)) as [g1 out1].
  cbn [fst snd with_window window running updateProgress total_images completed_images
       current_batch_id] in *.
  assert (Hw1 : current_batch_id Q w1
                = (if complete then current_batch_id Q w + 1 else current_batch_id Q w)%Z
                /\ total_images Q w1 = (if complete then 0 else total_images Q w)%Z
                /\ completed_images Q w1 = (if complete then 0 else completed_images Q w)%Z)
    by (unfold w1; destruct complete; repeat split).
  destruct Hw1 as (Hb1 & Ht1 & Hc1). rewrite Hb1 in Hb. rewrite Ht1 in Ht.
  rewrite Hc1 in Hc, Hm, Hq.
  split; [exact Hb|]. split; [exact Ht|]. split; [exact Hc|]. split; [exact Hm|].
  split; [exact Hw|exact Hq].
Qed.

Lemma gui_step_total (e : gui_event Q) (g : Gui Q) :
  (total_images Q (window Q (fst (gui_step Q e g)))
   <= total_images Q (window Q g) + picked_files Q [e])%Z.
Proof.
  unfold picked_files. destruct e as [fs|k stub u]; cbn [gui_step fold_right].
  - destruct fs as [|f fs]; [cbn; lia|].
    destruct (upload_counts g (f :: fs)) as (_ & Ht & _); [discriminate|].
    cbv zeta in Ht. rewrite Ht.
    pose proof (List.filter_length_le (opens Q) (f :: fs)) as Hle.
    destruct ((0 <? total_images Q (window Q g))%Z) eqn:Hpos; cbn [andb].
    + apply Z.ltb_lt in Hpos. destruct (_ =? _)%Z; lia.
    + lia.
  - destruct (finish_counts k stub u g) as (Ht & _). cbv zeta in Ht. lia.
Qed.

Lemma gui_run_total (es : list (gui_event Q)) (g : Gui Q) :
  (total_images Q (window Q (fst (gui_run Q es g)))
   <= total_images Q (window Q g) + picked_files Q es)%Z.
Proof.
  revert g. induction es as [|e es IH]; intros g; [cbn; lia|].
  rewrite gui_run_cons. cbn [fst].
  pose proof (IH (fst (gui_step Q e g))) as H1.
  pose proof (gui_step_total e g) as H2.
  assert (Hsplit : picked_files Q (e :: es) = (picked_files Q [e] + picked_files Q es)%Z)
    by (unfold picked_files; destruct e; cbn [fold_right]; lia).
  lia.
Qed.

Lemma gui_step_batch (e : gui_event Q) (g : Gui Q) :
  (current_batch_id Q (window Q g)
   <= current_batch_id Q (window Q (fst (gui_step Q e g)))
   <= current_batch_id Q (window Q g) + picked_files Q [e])%Z.
Proof.
  unfold picked_files. destruct e as [fs|k stub u]; cbn [gui_step fold_right].
  - destruct fs as [|f fs]; [cbn; lia|].
    destruct (upload_counts g (f :: fs)) as (Hb & _); [discriminate|].
    cbv zeta in Hb. rewrite Hb. cbn [length].
    destruct (_ && _); lia.
  - destruct (finish_counts k stub u g) as (_ & Hb & _). cbv zeta in Hb. lia.
Qed.

Lemma gui_run_batch (es : list (gui_event Q)) (g : Gui Q) :
  (current_batch_id Q (window Q g)
   <= current_batch_id Q (window Q (fst (gui_run Q es g)))
   <= current_batch_id Q (window Q g) + picked_files Q es)%Z.
Proof.
  revert g. induction es as [|e es IH]; intros g; [cbn; lia|].
  rewrite gui_run_cons. cbn [fst].
  pose proof (IH (fst (gui_step Q e g))) as H1.
  pose proof (gui_step_batch e g) as H2.
  assert (Hsplit : picked_files Q (e :: es) = (picked_files Q [e] + picked_files Q es)%Z)
    by (unfold picked_files; destruct e; cbn [fold_right]; lia).
  lia.
Qed.

Lemma int_wrap_small (z : Z) : (- 2 ^ 31 <= z < 2 ^ 31)%Z -> int_wrap z = z.
Proof.
  intros Hz. unfold int_wrap. rewrite Z.mod_small; [lia|].
  change (2 ^ 32)%Z with (2 ^ 31 + 2 ^ 31)%Z. lia.
Qed.

(** Past that range the product is no longer the percentage: with
    21474837 images completed out of as many, the bar is set to -99. *)
Example progress_past_int_range :
  progressBar Q
    (updateProgress Q
       {| current_batch_id := 1; total_images := 21474837;
          completed_images := 21474837; active_threads := [];
          resultWidgets := ∅; resultsLayout := []; progressBar := 0 |})
  = (-99)%Z.
Proof. vm_compute. reflexivity. Qed.

(** X15: the counters and the progress bar of the window.  After every
    sequence of uploads and delivered signals in which at most 21474836
    files were picked, the counters and [completed_images * 100] are in
    the range of [int], the images completed are at most the images of
    the batch, the difference is the number of threads still running, and
    the bar shows [completed * 100 / total] (0 for an empty batch), which
    lies between 0 and 100 and is 100 exactly when a batch that is not
    empty is complete. *)
Theorem progress_follows_counts (es : list (gui_event Q)) :
  let g := fst (gui_run Q es (Gui_new Q)) in
  let w := window Q g in
  (picked_files Q es <= 21474836)%Z ->
  (0 <= completed_images Q w <= total_images Q w)%Z
  /\ (total_images Q w <= 21474836)%Z
  /\ (1 <= current_batch_id Q w <= 21474837)%Z
  /\ (completed_images Q w * 100 < 2 ^ 31)%Z
  /\ (completed_images Q w + Z.of_nat (length (running Q g)) = total_images Q w)%Z
  /\ progressBar Q w
     = (if (total_images Q w =? 0)%Z then 0
        else (completed_images Q w * 100) ÷ total_images Q w)%Z
  /\ (0 <= progressBar Q w <= 100)%Z
  /\ (progressBar Q w = 100%Z
      <-> (0 < total_images Q w)%Z /\ completed_images Q w = total_images Q w).
Proof.
  intros g w Hfiles.
  destruct (gui_run_coherent Q es (Gui_new Q) (coherent_new Q) eq_refl) as [Hg Hp].
  pose proof (gui_run_total es (Gui_new Q)) as Htot.
  pose proof (gui_run_batch es (Gui_new Q)) as Hbatch.
  fold g in Hg, Hp, Htot, Hbatch. fold w in Hp, Htot, Hbatch.
  cbn [Gui_new window OCRWindow_new total_images current_batch_id] in Htot, Hbatch.
  destruct (counted Q g Hg) as [Hc1 Hc2]. fold w in Hc1, Hc2.
  assert (Hle : (0 <= completed_images Q w <= total_images Q w)%Z) by lia.
  assert (Hbar : progressBar Q w
                 = (if (total_images Q w =? 0)%Z then 0
                    else (completed_images Q w * 100) ÷ total_images Q w)%Z).
  { rewrite Hp. rewrite int_wrap_small; [reflexivity|].
    change (2 ^ 31)%Z with 2147483648%Z. lia. }
  split; [exact Hle|]. split; [lia|]. split; [lia|].
  split; [change (2 ^ 31)%Z with 2147483648%Z; lia|].
  split; [exact Hc2|]. split; [exact Hbar|].
  rewrite Hbar. destruct (total_images Q w =? 0)%Z eqn:Ht.
  - apply Z.eqb_eq in Ht. split; [lia|]. split; [discriminate|lia].
  - apply Z.eqb_neq in Ht.
    destruct (percent_bounds (completed_images Q w) (total_images Q w) Hle) as [Hb Hiff];
      [lia|].
    split; [exact Hb|]. rewrite Hiff. split; [intros ->; lia|tauto].
Qed.


Lemma NoDup_map_injective {A B : Type} (f : A -> B) (l : list A) :
  (forall x y, f x = f y -> x = y) -> List.NoDup l -> List.NoDup (map f l).
Proof.
  intros Hf. induction 1 as [|x l Hx Hl IH]; cbn; constructor; [|exact IH].
  intros Hin. apply in_map_iff in Hin as (y & Heq & Hy).
  apply Hf in Heq. now subst y.
Qed.

Lemma cell_injective (a b : Z) :
  (a ÷ COLUMNS, Z.rem a COLUMNS)%Z = (b ÷ COLUMNS, Z.rem b COLUMNS)%Z -> a = b.
Proof.
  intros [= Hq Hr].
  rewrite (Z.quot_rem' a COLUMNS), (Z.quot_rem' b COLUMNS). now rewrite Hq, Hr.
Qed.


(** X20: the box that reports a complete batch opens only when no image
    is pending.  In a window whose counters are in the range of [int] and
    agree with the threads that run, an arriving signal shows nothing or
    the one information box with the total of the batch; when the box
    shows, every image of the batch is counted and no thread is left
    running, so that no signal can arrive while the box is open.  The
    counters are in range and agree with the running threads afterwards
    as well. *)
Theorem completion_box_when_idle (k : nat) (stub : ImageRequest.t -> rpc)
    (u : spec_float) (g : Gui Q) :
  let g' := fst (gui_step Q (Finished Q k stub u) g) in
  let out := snd (gui_step Q (Finished Q k stub u) g) in
  (0 <= completed_images Q (window Q g))%Z ->
  (total_images Q (window Q g) < 2 ^ 31)%Z ->
  (completed_images Q (window Q g) + Z.of_nat (length (running Q g))
   = total_images Q (window Q g))%Z ->
  (out = [] \/ out = [information Q (total_images Q (window Q g'))])
  /\ (out <> [] ->
      running Q g' = []
      /\ completed_images Q (window Q g') = total_images Q (window Q g'))
  /\ (0 <= completed_images Q (window Q g') <= total_images Q (window Q g'))%Z
  /\ total_images Q (window Q g') = total_images Q (window Q g)
  /\ (completed_images Q (window Q g') + Z.of_nat (length (running Q g'))
      = total_images Q (window Q g'))%Z.
Proof.
  intros g' out Hpos Hrange Hcount.
  destruct (finish_counts k stub u g) as (Ht & _ & Hc & Hm & _).
  cbv zeta in Ht, Hc, Hm. change (fst (finish Q k stub u g)) with g' in Ht, Hc, Hm.
  assert (Hafter : (completed_images Q (window Q g') + Z.of_nat (length (running Q g'))
                    = total_images Q (window Q g'))%Z) by lia.
  assert (Hout : out = []
                 \/ (out = [information Q (total_images Q (window Q g'))]
                     /\ completed_images Q (window Q g') = total_images Q (window Q g'))).
  { unfold out, g'. cbn [gui_step]. unfold finish.
    destruct (running Q g !! k) as [th|]; [|now left].
    unfold ProcessThread_run.
    destruct (ProcessImage _ _ _ _ _ _) as [[[|] o]|what]; cbn [deliver];
      unfold onResultReady, onProcessingError; cbv zeta; cbn [fst snd window];
      try (now left).
    destruct (_ =? _)%Z eqn:Heq; [right|now left].
    apply Z.eqb_eq in Heq. split; [reflexivity|exact Heq]. }
  split; [destruct Hout as [H|[H _]]; [now left|now right]|].
  split; [|split; [lia|split; [exact Ht|exact Hafter]]].
  intros Hne. destruct Hout as [H|[_ H]]; [contradiction|].
  split; [|exact H].
  destruct (running Q g') as [|th r]; [reflexivity|]. cbn [length] in Hafter. lia.
Qed.

(** X18: an upload extends the batch or starts the next one.  In a
    window reached by uploads and delivered signals, with no more than
    21474836 files picked in all, the counters stay in the range of
    [int].  Picking no file changes nothing and shows nothing.
    Otherwise, when the batch is not empty and complete, the batch id
    goes up by one and the counters start from zero, and in every other
    case they go on; the files that open are added to the batch, each
    with a thread, and the images counted as completed during the upload
    are those of the threads that left.  The warnings shown are, in
    order, "Could not open file: " and the path, one for each file that
    does not open; when no signal arrives while a warning is open,
    nothing else is shown and no image is completed. *)
Theorem upload_extends_or_starts_batch (es : list (gui_event Q)) (fs : list (picked Q)) :
  let g := fst (gui_run Q es (Gui_new Q)) in
  let w := window Q g in
  let g' := fst (gui_step Q (UploadClicked Q fs) g) in
  let out := snd (gui_step Q (UploadClicked Q fs) g) in
  let complete :=
    (0 <? total_images Q w)%Z && (completed_images Q w =? total_images Q w)%Z in
  let readable := Z.of_nat (length (List.filter (opens Q) fs)) in
  let warnings :=
    map (fun f => warning Q (qlit Q "Could not open file: " ++ path Q f))
        (List.filter (fun f => negb (opens Q f)) fs) in
  (picked_files Q es + Z.of_nat (length fs) <= 21474836)%Z ->
  (total_images Q (window Q g') <= 21474836)%Z
  /\ (1 <= current_batch_id Q (window Q g') <= 21474837)%Z
  /\ (fs = [] -> g' = g /\ out = [])
  /\ (fs <> [] ->
      current_batch_id Q (window Q g')
        = (if complete then current_batch_id Q w + 1 else current_batch_id Q w)%Z
      /\ total_images Q (window Q g')
         = ((if complete then 0 else total_images Q w) + readable)%Z
      /\ (completed_images Q (window Q g') + Z.of_nat (length (running Q g'))
          = (if complete then 0 else completed_images Q w)
            + Z.of_nat (length (running Q g)) + readable)%Z
      /\ ((if complete then 0 else completed_images Q w)
          <= completed_images Q (window Q g'))%Z
      /\ List.filter (is_warning Q) out = warnings
      /\ (Forall (fun f => meanwhile Q f = []) fs ->
          completed_images Q (window Q g')
            = (if complete then 0 else completed_images Q w)%Z
          /\ out = warnings)).
Proof.
  intros g w g' out complete readable warnings Hfiles.
  pose proof (gui_run_total es (Gui_new Q)) as Ht.
  pose proof (gui_run_batch es (Gui_new Q)) as Hb.
  pose proof (gui_step_total (UploadClicked Q fs) g) as Ht'.
  pose proof (gui_step_batch (UploadClicked Q fs) g) as Hb'.
  fold g in Ht, Hb. fold g' in Ht', Hb'.
  cbn [Gui_new window OCRWindow_new total_images current_batch_id] in Ht, Hb.
  unfold picked_files in Ht', Hb'. cbn [fold_right] in Ht', Hb'.
  split; [lia|]. split; [lia|].
  split; [intros ->; split; reflexivity|].
  intros Hne. exact (upload_counts g fs Hne).
Qed.

End ClientWindowProperties.


Lemma progress_follows_counts_witness :
  Client.progressBar Client.ascii_qt
    (Client.window Client.ascii_qt
       (fst (Client.gui_run Client.ascii_qt
               [Client.UploadClicked Client.ascii_qt
                  [Client.readable_file; Client.missing_file_late; Client.readable_file]]
               (Client.Gui_new Client.ascii_qt)))) = 50%Z
  /\ Client.progressBar Client.ascii_qt
       (Client.window Client.ascii_qt
          (fst (Client.gui_run Client.ascii_qt
                  [Client.UploadClicked Client.ascii_qt
                     [Client.readable_file; Client.missing_file_late; Client.readable_file];
                   Client.Finished Client.ascii_qt 0
                     (Client.one_response (Sample.reply 1)) (S754_zero false)]
                  (Client.Gui_new Client.ascii_qt)))) = 100%Z.
Proof.
  split.
  - destruct (progress_follows_counts Client.ascii_qt
                [Client.UploadClicked Client.ascii_qt
                   [Client.readable_file; Client.missing_file_late; Client.readable_file]])
      as (_ & _ & _ & _ & _ & Hbar & _); [vm_compute; discriminate|].
    exact Hbar.
  - destruct (progress_follows_counts Client.ascii_qt
                [Client.UploadClicked Client.ascii_qt
                   [Client.readable_file; Client.missing_file_late; Client.readable_file];
                 Client.Finished Client.ascii_qt 0
                   (Client.one_response (Sample.reply 1)) (S754_zero false)])
      as (_ & _ & _ & _ & _ & _ & _ & Hfull); [vm_compute; discriminate|].
    apply Hfull. vm_compute. split; reflexivity.
Defined.

Lemma completion_box_when_idle_witness :
  snd (Client.gui_step Client.ascii_qt
         (Client.Finished Client.ascii_qt 0
            (Client.one_response (Sample.reply 0)) (S754_zero false))
         (fst (Client.gui_run Client.ascii_qt
                 [Client.UploadClicked Client.ascii_qt [Client.readable_file]]
                 (Client.Gui_new Client.ascii_qt))))
  = [Client.information Client.ascii_qt 1]
  /\ Client.running Client.ascii_qt
       (fst (Client.gui_step Client.ascii_qt
               (Client.Finished Client.ascii_qt 0
                  (Client.one_response (Sample.reply 0)) (S754_zero false))
               (fst (Client.gui_run Client.ascii_qt
                       [Client.UploadClicked Client.ascii_qt [Client.readable_file]]
                       (Client.Gui_new Client.ascii_qt))))) = [].
Proof.
  destruct (completion_box_when_idle Client.ascii_qt 0
              (Client.one_response (Sample.reply 0)) (S754_zero false)
              (fst (Client.gui_run Client.ascii_qt
                      [Client.UploadClicked Client.ascii_qt [Client.readable_file]]
                      (Client.Gui_new Client.ascii_qt))))
    as (Hout & Hidle & _); [vm_compute; discriminate|reflexivity..|].
  destruct Hout as [Hout|Hout]; [discriminate Hout|].
  split; [exact Hout|]. apply Hidle. discriminate.
Defined.

Lemma upload_extends_or_starts_batch_witness :
  (Client.total_images Client.ascii_qt
     (Client.window Client.ascii_qt
        (fst (Client.gui_step Client.ascii_qt
                (Client.UploadClicked Client.ascii_qt
                   [Client.missing_file_late; Client.readable_file])
                (fst (Client.gui_run Client.ascii_qt
                        [Client.UploadClicked Client.ascii_qt [Client.readable_file]]
                        (Client.Gui_new Client.ascii_qt)))))) = 2%Z
   /\ List.filter (Client.is_warning Client.ascii_qt)
        (snd (Client.gui_step Client.ascii_qt
                (Client.UploadClicked Client.ascii_qt
                   [Client.missing_file_late; Client.readable_file])
                (fst (Client.gui_run Client.ascii_qt
                        [Client.UploadClicked Client.ascii_qt [Client.readable_file]]
                        (Client.Gui_new Client.ascii_qt)))))
      = [Client.warning Client.ascii_qt (Text.lit "Could not open file: /tmp/gone.png")])
  /\ (Client.current_batch_id Client.ascii_qt
        (Client.window Client.ascii_qt
           (fst (Client.gui_step Client.ascii_qt
                   (Client.UploadClicked Client.ascii_qt
                      [Client.readable_file; Client.missing_file])
                   (fst (Client.gui_run Client.ascii_qt
                           [Client.UploadClicked Client.ascii_qt [Client.readable_file];
                            Client.Finished Client.ascii_qt 0
                              (Client.one_response (Sample.reply 0)) (S754_zero false)]
                           (Client.Gui_new Client.ascii_qt)))))) = 2%Z
      /\ snd (Client.gui_step Client.ascii_qt
                (Client.UploadClicked Client.ascii_qt
                   [Client.readable_file; Client.missing_file])
                (fst (Client.gui_run Client.ascii_qt
                        [Client.UploadClicked Client.ascii_qt [Client.readable_file];
                         Client.Finished Client.ascii_qt 0
                           (Client.one_response (Sample.reply 0)) (S754_zero false)]
                        (Client.Gui_new Client.ascii_qt))))
         = [Client.warning Client.ascii_qt (Text.lit "Could not open file: /tmp/gone.png")]).
Proof.
  split.
  - destruct (upload_extends_or_starts_batch Client.ascii_qt
                [Client.UploadClicked Client.ascii_qt [Client.readable_file]]
                [Client.missing_file_late; Client.readable_file]) as (_ & _ & _ & H);
      [vm_compute; discriminate|].
    destruct H as (_ & Ht & _ & _ & Hw & _); [discriminate|].
    split; [exact Ht|exact Hw].
  - destruct (upload_extends_or_starts_batch Client.ascii_qt
                [Client.UploadClicked Client.ascii_qt [Client.readable_file];
                 Client.Finished Client.ascii_qt 0
                   (Client.one_response (Sample.reply 0)) (S754_zero false)]
                [Client.readable_file; Client.missing_file]) as (_ & _ & _ & H);
      [vm_compute; discriminate|].
    destruct H as (Hb & _ & _ & _ & _ & Hq); [discriminate|].
    destruct Hq as [_ Hout]; [repeat constructor|].
    split; [exact Hb|exact Hout].
Defined.

Section PoolAnswers.

Context {Pix : Type}.

(** X19: a queued call gets its reply.  From any state a schedule
    reaches, once a waiting worker has taken and completed as many times
    as there are queued tasks, the call of every task that was queued
    returns [Status::OK] with a response that answers the request of that
    task. *)
Theorem queued_call_is_answered (n : nat) (es : list (event Pix)) (w : nat)
    (Es : list (Engine Pix)) (t : OCRTask.t) :
  let s := fst (run es (Server_new n)) in
  workers (thread_pool s) !! w = Some Waiting ->
  length Es = length (tasks (thread_pool s)) ->
  In t (tasks (thread_pool s)) ->
  exists response,
    snd (step (Return (Pix:=Pix) (OCRTask.response t)) (fst (run (drain w Es) s)))
    = [Replied (OCRTask.request t) response Status_OK]
    /\ answered Pix (OCRTask.request t) response.
Proof.
  intros s Hw Hlen Ht.
  destruct (run_consistent es (Server_new n) (consistent_new n)) as [Hs _].
  fold s in Hs.
  destruct (drain_consistent w Es s Hs Hw Hlen)
    as (Hs' & _ & _ & _ & _ & _ & _ & Hdone).
  destruct (Hdone t Ht) as (c & Hc & Hflag & Hreq).
  exists (Call.response c). split.
  - cbn [step]. unfold ProcessImage_return. rewrite Hc, Hflag. cbn [snd].
    now rewrite Hreq.
  - rewrite <- Hreq. now apply (calls_answered Pix _ Hs' _ c Hc).
Qed.

End PoolAnswers.

Lemma queued_call_is_answered_witness :
  exists response,
    snd (step (Return (Pix:=Sample.bitmap) 1)
           (fst (run (drain 0 [Sample.hello; Sample.no_tessdata])
              (fst (run [Arrive (Pix:=Sample.bitmap) (Sample.J 1); Arrive (Sample.J 2);
                         Shutdown] (Server_new 1))))))
    = [Replied (Sample.J 2) response Status_OK]
    /\ answered Sample.bitmap (Sample.J 2) response.
Proof.
  apply (queued_call_is_answered (Pix:=Sample.bitmap) 1
           [Arrive (Sample.J 1); Arrive (Sample.J 2); Shutdown] 0
           [Sample.hello; Sample.no_tessdata] (Sample.task 2 1)).
  - reflexivity.
  - reflexivity.
  - right. left. reflexivity.
Defined.
